(** * Convex hull relaxation of disjunctive programs (pyomo.gdp.plugins.chull)

    A shallow embedding of [ConvexHull_Transformation] and the properties of
    its constraint rewriter, disjunct transformer, disjunction transformer
    and target loop.

    Python objects are kept in arenas (one list per kind of object); an
    object's identity is its position in its arena, so a newly created
    object is always distinct from every existing one.  Exceptions are
    results that keep the state mutated so far. *)

From Stdlib Require Import ZArith QArith Lqa Lia List String.
From stdpp Require Import base option list strings gmap.

Set Warnings "-register-all".

(** ** Expressions *)

Module Expr.

(** Identity of a variable (a [_VarData] object). *)
Abbreviation vid := nat.

(** An expression tree over variables and constants, built by the Python
    operators [+ - * / **] on numeric values and variables. *)
Inductive expr : Type :=
| Const (q : Q)
| Var (v : vid)
| Add (a b : expr)
| Sub (a b : expr)
| Mul (a b : expr)
| Div (a b : expr)
| Pow (a : expr) (n : nat).

(** What comparing two expressions yields: [a <= b], [a >= b], [a == b];
    an equality can also be given as the pair [(a, b)], and a constraint
    of the model may be stored with explicit bounds around a body. *)
Inductive relation : Type :=
| Le (a b : expr)
| Ge (a b : expr)
| Eq (a b : expr)
| Ranged (lower : option Q) (body : expr) (upper : option Q).

(** Value of an expression under a valuation of the variables.  The
    function is total: a quotient by zero has the value 0 here, where
    Python raises [ZeroDivisionError]; [defined] below says where an
    expression can be evaluated. *)
Fixpoint eval (rho : vid -> Q) (e : expr) : Q :=
  match e with
  | Const q => q
  | Var v => rho v
  | Add a b => eval rho a + eval rho b
  | Sub a b => eval rho a - eval rho b
  | Mul a b => eval rho a * eval rho b
  | Div a b => eval rho a / eval rho b
  | Pow a n => eval rho a ^ Z.of_nat n
  end%Q.

Definition holds (rho : vid -> Q) (r : relation) : Prop :=
  match r with
  | Le a b => (eval rho a <= eval rho b)%Q
  | Ge a b => (eval rho b <= eval rho a)%Q
  | Eq a b => (eval rho a == eval rho b)%Q
  | Ranged lo e up =>
      (match lo with Some l => (l <= eval rho e)%Q | None => True end) /\
      (match up with Some u => (eval rho e <= u)%Q | None => True end)
  end.

(** Modelled from the spec: [clone_expression(e, substitute=m)] of
    pyomo.core.kernel.expr_common, which is not part of the source file:
    a structurally cloned copy with the substitution map, keyed by the
    identity of the variable, applied at the leaves. *)
Fixpoint clone_expression (e : expr) (substitute : gmap vid expr) : expr :=
  match e with
  | Const q => Const q
  | Var v => match substitute !! v with Some e' => e' | None => Var v end
  | Add a b => Add (clone_expression a substitute) (clone_expression b substitute)
  | Sub a b => Sub (clone_expression a substitute) (clone_expression b substitute)
  | Mul a b => Mul (clone_expression a substitute) (clone_expression b substitute)
  | Div a b => Div (clone_expression a substitute) (clone_expression b substitute)
  | Pow a n => Pow (clone_expression a substitute) n
  end.

(** The variables at the leaves, left to right. *)
Fixpoint leaves (e : expr) : list vid :=
  match e with
  | Const _ => []
  | Var v => [v]
  | Add a b | Sub a b | Mul a b | Div a b => leaves a ++ leaves b
  | Pow a _ => leaves a
  end.

End Expr.
Export Expr.

(** ** Index keys of indexed components *)

Module Key.

(** A key of an indexed component: [None] for a scalar component, an
    integer, a string, or a tuple of keys. *)
Inductive key : Type :=
| KNone
| KInt (z : Z)
| KStr (s : string)
| KTuple (l : list key).

Fixpoint key_eqb (a b : key) {struct a} : bool :=
  match a, b with
  | KNone, KNone => true
  | KInt x, KInt y => Z.eqb x y
  | KStr s, KStr t => String.eqb s t
  | KTuple l, KTuple m =>
      (fix all2 (l m : list key) {struct l} : bool :=
         match l, m with
         | [], [] => true
         | x :: l', y :: m' => key_eqb x y && all2 l' m'
         | _, _ => false
         end) l m
  | _, _ => false
  end.

(** Python's ordering of keys: [None] first, then numbers, then strings,
    then tuples, tuples in lexicographic order. *)
Fixpoint key_compare (a b : key) {struct a} : comparison :=
  match a, b with
  | KNone, KNone => Datatypes.Eq
  | KNone, _ => Lt
  | _, KNone => Gt
  | KInt x, KInt y => Z.compare x y
  | KInt _, _ => Lt
  | _, KInt _ => Gt
  | KStr s, KStr t => String.compare s t
  | KStr _, _ => Lt
  | _, KStr _ => Gt
  | KTuple l, KTuple m =>
      (fix lex (l m : list key) {struct l} : comparison :=
         match l, m with
         | [], [] => Datatypes.Eq
         | [], _ :: _ => Lt
         | _ :: _, [] => Gt
         | x :: l', y :: m' =>
             match key_compare x y with
             | Datatypes.Eq => lex l' m'
             | c => c
             end
         end) l m
  end.

Definition key_leb (a b : key) : bool :=
  match key_compare a b with Gt => false | _ => true end.

Fixpoint insert_sorted (k : key) (l : list key) : list key :=
  match l with
  | [] => [k]
  | x :: r => if key_leb k x then k :: l else x :: insert_sorted k r
  end.

(** [sorted(keys)] *)
Definition sorted (l : list key) : list key :=
  fold_right insert_sorted [] l.

(** A Python dict with keys of type [key], in insertion order. *)
Definition kdict (A : Type) := list (key * A).

Fixpoint kget {A} (k : key) (d : kdict A) : option A :=
  match d with
  | [] => None
  | (k', x) :: r => if key_eqb k k' then Some x else kget k r
  end.

(** [d[k] = x]: overwrite in place, or append. *)
Fixpoint kset {A} (k : key) (x : A) (d : kdict A) : kdict A :=
  match d with
  | [] => [(k, x)]
  | (k', y) :: r => if key_eqb k k' then (k, x) :: r else (k', y) :: kset k x r
  end.

Definition kkeys {A} (d : kdict A) : list key := map fst d.

End Key.
Export Key.

(** ** The model graph *)

Module Model.

(** Positions in the arenas of components, of block data objects and of
    dicts. *)
Abbreviation cid := nat.
Abbreviation bid := nat.
Abbreviation did := nat.

(** The kind of a component, [obj.type()]. *)
Inductive ctype : Type :=
| Constraint | Var_ | Connector | Param | Set_ | Suffix
| Disjunction | Disjunct | Block
| Objective | Expression | Other (name : string).

(** A reference to a component held by a block.  Constraints,
    disjunctions and blocks (a [Disjunct] is a block) live in arenas; a
    scalar variable is its own data; a component of any other kind is
    never changed by the transformation and is given by its kind and its
    [active] attribute ([None] when the object has no such attribute). *)
Inductive cref : Type :=
| RConstraint (c : cid)
| RDisjunction (c : cid)
| RDisjunct (c : cid)
| RBlock (c : cid)
| RVar (v : vid)
| ROther (t : ctype) (active : option bool).

#[global] Instance ctype_eq_dec : EqDecision ctype.
Proof. solve_decision. Defined.
#[global] Instance cref_eq_dec : EqDecision cref.
Proof. solve_decision. Defined.

Definition type (r : cref) : ctype :=
  match r with
  | RConstraint _ => Constraint
  | RDisjunction _ => Disjunction
  | RDisjunct _ => Disjunct
  | RBlock _ => Block
  | RVar _ => Var_
  | ROther t _ => t
  end.

Record VarData := mkVar {
  var_lb : option Q;
  var_ub : option Q;
  var_fixed : bool;
  var_value : option Q }.

Record ConstraintData := mkCon {
  con_active : bool;
  con_expr : relation }.

(** A scalar constraint is its own data ([obj[None] is obj]) and may have
    no expression yet; an indexed one has a flag of its own and one data
    object per key. *)
Inductive ConstraintComp : Type :=
| SimpleConstraint (active : bool) (e : option relation)
| IndexedConstraint (active : bool) (data : kdict ConstraintData).

Record DisjunctionData := mkDisjunction {
  dj_active : bool;
  xor : bool;
  disjuncts : list bid }.

Inductive DisjunctionBody : Type :=
| SimpleDisjunction (d : DisjunctionData)
| IndexedDisjunction (active : bool) (data : kdict DisjunctionData).

Record DisjunctionComp := mkDisjunctionComp {
  dc_parent_block : bid;
  dc_body : DisjunctionBody }.

(** A [Block] or [Disjunct] component: scalar (its own data) or indexed. *)
Inductive BlockComp : Type :=
| SimpleBlock (self : bid)
| IndexedBlock (active : bool) (data : kdict bid).

(** The dict kept in [_gdp_transformation_info]; a field is [None] when
    the key is absent. *)
Record InfoDict := mkInfo {
  relaxed : option bool;
  chull : option bid;
  disaggregatedVars : option (gmap vid vid);
  bigmConstraints : option (gmap vid cid);
  relaxedConstraints : option (gmap cid cid);
  disjunction_or_constraint : option (gmap cid cid);
  disjunction_disaggregation_constraints : option (gmap cid cid);
  src : option bid;
  srcVars : option (gmap vid vid);
  boundConstraintToSrcVar : option (gmap cid vid);
  srcConstraints : option (gmap cid cid) }.

Definition empty_dict : InfoDict :=
  mkInfo None None None None None None None None None None None.

(** The attribute [_gdp_transformation_info] of a block: absent, bound
    to something that is not a dict, or bound to a dict object. *)
Inductive attr : Type :=
| NoAttr
| NotADict
| IsDict (d : did).

(** A [_BlockData] (or [_DisjunctData]) object. *)
Record BlockData := mkBlock {
  blk_active : bool;
  blk_parent_component : cref;
  blk_decls : list cref;                 (* component_map(), in declaration order *)
  indicator_var : option vid;            (* disjuncts only *)
  gdp_transformation_info : attr;
  disjContainers : list cref }.          (* transformation blocks only *)

Record state := mkState {
  vars : list VarData;
  constraints : list ConstraintComp;
  disjunctions : list DisjunctionComp;
  blockcomps : list BlockComp;
  blocks : list BlockData;
  dicts : list InfoDict }.

(** Exceptions.  The [GDP_Error]s carry the names of the error taxonomy;
    [UnknownFormulationMode] is the [RuntimeError] of the constraint
    rewriter; the others are Python's own.  [DanglingReference] (a
    reference to an object that is in no arena) and [OutOfFuel] have no
    Python counterpart. *)
Inductive error : Type :=
| TargetNotFound
| UnsupportedTargetKind
| NonExclusiveDisjunctionUnsupported
| UnboundedDisaggregationVariable (v : vid)
| UnsupportedEntityKind (t : ctype)
| ConflictingMetadataAttribute
| OrderingViolation
| UnknownFormulationMode
| NameError (name : string)
| UnboundLocalError (name : string)
| AttributeError (name : string)
| KeyError
| ValueError
| AssertionError
| DanglingReference
| OutOfFuel.

Inductive result (A : Type) : Type :=
| Ok (a : A)
| Err (e : error).
Arguments Ok {A} a.
Arguments Err {A} e.

(** A computation reads and mutates the model and either returns or
    raises; the state mutated so far is kept in both cases. *)
Definition M (A : Type) : Type := state -> result A * state.

Definition ret {A} (a : A) : M A := fun st => (Ok a, st).
Definition raise {A} (e : error) : M A := fun st => (Err e, st).
Definition bind {A B} (m : M A) (f : A -> M B) : M B :=
  fun st => match m st with
            | (Ok a, st') => f a st'
            | (Err e, st') => (Err e, st')
            end.
Definition gets {A} (f : state -> A) : M A := fun st => (Ok (f st), st).
Definition modify (f : state -> state) : M unit := fun st => (Ok tt, f st).
Definition from_option {A} (e : error) (o : option A) : M A :=
  match o with Some a => ret a | None => raise e end.

End Model.
Export Model.

Declare Scope py_scope.
Delimit Scope py_scope with py.
Notation "x <- m ;; k" := (bind m (fun x => k))
  (at level 100, m at next level, right associativity) : py_scope.
Notation "m ;; k" := (bind m (fun _ => k))
  (at level 100, right associativity) : py_scope.
Open Scope py_scope.

(** [for x in l: body(x)] *)
Fixpoint mfor {A} (l : list A) (body : A -> M unit) : M unit :=
  match l with
  | [] => ret tt
  | x :: r => body x ;; mfor r body
  end.

(** A loop that carries a local variable. *)
Fixpoint mfold {A B} (l : list A) (acc : B) (body : B -> A -> M B) : M B :=
  match l with
  | [] => ret acc
  | x :: r => acc' <- body acc x ;; mfold r acc' body
  end.

(** ** Services of the host model representation

    Modelled from the spec: the accessors of the model objects (active
    flags, index keys, attributes, adding a component to a block, creating
    an object) belong to pyomo.core, which is not part of the source file.
    Component names are left out: lookups are by identity, and name
    collisions are resolved by the host's unique-naming facility. *)

Module Host.

Definition set_vars (x : list VarData) (st : state) : state :=
  mkState x (constraints st) (disjunctions st) (blockcomps st) (blocks st) (dicts st).
Definition set_constraints (x : list ConstraintComp) (st : state) : state :=
  mkState (vars st) x (disjunctions st) (blockcomps st) (blocks st) (dicts st).
Definition set_disjunctions (x : list DisjunctionComp) (st : state) : state :=
  mkState (vars st) (constraints st) x (blockcomps st) (blocks st) (dicts st).
Definition set_blockcomps (x : list BlockComp) (st : state) : state :=
  mkState (vars st) (constraints st) (disjunctions st) x (blocks st) (dicts st).
Definition set_blocks (x : list BlockData) (st : state) : state :=
  mkState (vars st) (constraints st) (disjunctions st) (blockcomps st) x (dicts st).
Definition set_dicts (x : list InfoDict) (st : state) : state :=
  mkState (vars st) (constraints st) (disjunctions st) (blockcomps st) (blocks st) x.

(** *** Variables *)

Definition get_var (v : vid) : M VarData :=
  fun st => from_option DanglingReference (vars st !! v) st.

(** [Var(within=Reals)]: a new continuous variable without bounds. *)
Definition new_var : M vid :=
  fun st => (Ok (length (vars st)),
             set_vars (vars st ++ [mkVar None None false None]) st).

(** [v.fix(q)] *)
Definition fix_var (v : vid) (q : Q) : M unit :=
  d <- get_var v ;;
  modify (fun st => set_vars (<[v := mkVar (var_lb d) (var_ub d) true (Some q)]> (vars st)) st).

(** *** Constraints *)

Definition get_constraint (c : cid) : M ConstraintComp :=
  fun st => from_option DanglingReference (constraints st !! c) st.

Definition put_constraint (c : cid) (x : ConstraintComp) : M unit :=
  modify (fun st => set_constraints (<[c := x]> (constraints st)) st).

(** [Constraint(...)]: a new, empty constraint component. *)
Definition new_constraint (x : ConstraintComp) : M cid :=
  fun st => (Ok (length (constraints st)),
             set_constraints (constraints st ++ [x]) st).

Definition constraint_is_indexed (x : ConstraintComp) : bool :=
  match x with SimpleConstraint _ _ => false | IndexedConstraint _ _ => true end.

(** [iterkeys(obj)] *)
Definition constraint_keys (x : ConstraintComp) : list key :=
  match x with
  | SimpleConstraint _ (Some _) => [KNone]
  | SimpleConstraint _ None => []
  | IndexedConstraint _ data => kkeys data
  end.

(** [obj[i]] *)
Definition constraint_getitem (x : ConstraintComp) (i : key) : option ConstraintData :=
  match x with
  | SimpleConstraint a (Some e) =>
      match i with KNone => Some (mkCon a e) | _ => None end
  | SimpleConstraint _ None => None
  | IndexedConstraint _ data => kget i data
  end.

(** [obj[i].deactivate()] *)
Definition constraint_deactivate_data (x : ConstraintComp) (i : key) : ConstraintComp :=
  match x with
  | SimpleConstraint _ e => SimpleConstraint false e
  | IndexedConstraint a data =>
      match kget i data with
      | Some d => IndexedConstraint a (kset i (mkCon false (con_expr d)) data)
      | None => x
      end
  end.

(** [obj.add(i, r)]: a scalar constraint accepts the key [None] only. *)
Definition constraint_add (c : cid) (i : key) (r : relation) : M unit :=
  x <- get_constraint c ;;
  match x with
  | SimpleConstraint a _ =>
      match i with
      | KNone => put_constraint c (SimpleConstraint a (Some r))
      | _ => raise ValueError
      end
  | IndexedConstraint a data =>
      put_constraint c (IndexedConstraint a (kset i (mkCon true r) data))
  end.

(** *** Dicts *)

Definition get_dict (d : did) : M InfoDict :=
  fun st => from_option DanglingReference (dicts st !! d) st.

(** [{...}]: a new dict object. *)
Definition new_dict (x : InfoDict) : M did :=
  fun st => (Ok (length (dicts st)), set_dicts (dicts st ++ [x]) st).

Definition update_dict (d : did) (f : InfoDict -> InfoDict) : M unit :=
  x <- get_dict d ;;
  modify (fun st => set_dicts (<[d := f x]> (dicts st)) st).

Definition with_relaxed (v : option bool) (x : InfoDict) : InfoDict :=
  mkInfo v (chull x) (disaggregatedVars x) (bigmConstraints x)
    (relaxedConstraints x) (disjunction_or_constraint x)
    (disjunction_disaggregation_constraints x) (src x) (srcVars x)
    (boundConstraintToSrcVar x) (srcConstraints x).
Definition with_chull (v : option bid) (x : InfoDict) : InfoDict :=
  mkInfo (relaxed x) v (disaggregatedVars x) (bigmConstraints x)
    (relaxedConstraints x) (disjunction_or_constraint x)
    (disjunction_disaggregation_constraints x) (src x) (srcVars x)
    (boundConstraintToSrcVar x) (srcConstraints x).
Definition with_disaggregatedVars (v : option (gmap vid vid)) (x : InfoDict) : InfoDict :=
  mkInfo (relaxed x) (chull x) v (bigmConstraints x)
    (relaxedConstraints x) (disjunction_or_constraint x)
    (disjunction_disaggregation_constraints x) (src x) (srcVars x)
    (boundConstraintToSrcVar x) (srcConstraints x).
Definition with_bigmConstraints (v : option (gmap vid cid)) (x : InfoDict) : InfoDict :=
  mkInfo (relaxed x) (chull x) (disaggregatedVars x) v
    (relaxedConstraints x) (disjunction_or_constraint x)
    (disjunction_disaggregation_constraints x) (src x) (srcVars x)
    (boundConstraintToSrcVar x) (srcConstraints x).
Definition with_relaxedConstraints (v : option (gmap cid cid)) (x : InfoDict) : InfoDict :=
  mkInfo (relaxed x) (chull x) (disaggregatedVars x) (bigmConstraints x)
    v (disjunction_or_constraint x)
    (disjunction_disaggregation_constraints x) (src x) (srcVars x)
    (boundConstraintToSrcVar x) (srcConstraints x).
Definition with_disjunction_or_constraint (v : option (gmap cid cid)) (x : InfoDict) : InfoDict :=
  mkInfo (relaxed x) (chull x) (disaggregatedVars x) (bigmConstraints x)
    (relaxedConstraints x) v
    (disjunction_disaggregation_constraints x) (src x) (srcVars x)
    (boundConstraintToSrcVar x) (srcConstraints x).
Definition with_disjunction_disaggregation_constraints
    (v : option (gmap cid cid)) (x : InfoDict) : InfoDict :=
  mkInfo (relaxed x) (chull x) (disaggregatedVars x) (bigmConstraints x)
    (relaxedConstraints x) (disjunction_or_constraint x)
    v (src x) (srcVars x)
    (boundConstraintToSrcVar x) (srcConstraints x).
Definition with_srcVars (v : option (gmap vid vid)) (x : InfoDict) : InfoDict :=
  mkInfo (relaxed x) (chull x) (disaggregatedVars x) (bigmConstraints x)
    (relaxedConstraints x) (disjunction_or_constraint x)
    (disjunction_disaggregation_constraints x) (src x) v
    (boundConstraintToSrcVar x) (srcConstraints x).
Definition with_boundConstraintToSrcVar (v : option (gmap cid vid)) (x : InfoDict) : InfoDict :=
  mkInfo (relaxed x) (chull x) (disaggregatedVars x) (bigmConstraints x)
    (relaxedConstraints x) (disjunction_or_constraint x)
    (disjunction_disaggregation_constraints x) (src x) (srcVars x)
    v (srcConstraints x).
Definition with_srcConstraints (v : option (gmap cid cid)) (x : InfoDict) : InfoDict :=
  mkInfo (relaxed x) (chull x) (disaggregatedVars x) (bigmConstraints x)
    (relaxedConstraints x) (disjunction_or_constraint x)
    (disjunction_disaggregation_constraints x) (src x) (srcVars x)
    (boundConstraintToSrcVar x) v.

(** *** Blocks *)

Definition get_block (b : bid) : M BlockData :=
  fun st => from_option DanglingReference (blocks st !! b) st.

Definition update_block (b : bid) (f : BlockData -> BlockData) : M unit :=
  x <- get_block b ;;
  modify (fun st => set_blocks (<[b := f x]> (blocks st)) st).

Definition new_block (x : BlockData) : M bid :=
  fun st => (Ok (length (blocks st)), set_blocks (blocks st ++ [x]) st).

Definition with_active (a : bool) (x : BlockData) : BlockData :=
  mkBlock a (blk_parent_component x) (blk_decls x) (indicator_var x)
    (gdp_transformation_info x) (disjContainers x).
Definition with_decls (l : list cref) (x : BlockData) : BlockData :=
  mkBlock (blk_active x) (blk_parent_component x) l (indicator_var x)
    (gdp_transformation_info x) (disjContainers x).
Definition with_info (a : attr) (x : BlockData) : BlockData :=
  mkBlock (blk_active x) (blk_parent_component x) (blk_decls x) (indicator_var x)
    a (disjContainers x).
Definition with_disjContainers (l : list cref) (x : BlockData) : BlockData :=
  mkBlock (blk_active x) (blk_parent_component x) (blk_decls x) (indicator_var x)
    (gdp_transformation_info x) l.

(** [block.add_component(name, r)] *)
Definition add_component (b : bid) (r : cref) : M unit :=
  update_block b (fun x => with_decls (blk_decls x ++ [r]) x).

(** [disjunct.indicator_var] *)
Definition get_indicator_var (b : bid) : M vid :=
  x <- get_block b ;;
  from_option (AttributeError "indicator_var") (indicator_var x).

Definition get_blockcomp (c : cid) : M BlockComp :=
  fun st => from_option DanglingReference (blockcomps st !! c) st.

Definition put_blockcomp (c : cid) (x : BlockComp) : M unit :=
  modify (fun st => set_blockcomps (<[c := x]> (blockcomps st)) st).

Definition new_blockcomp (x : BlockComp) : M cid :=
  fun st => (Ok (length (blockcomps st)),
             set_blockcomps (blockcomps st ++ [x]) st).

Definition blockcomp_data (x : BlockComp) : kdict bid :=
  match x with
  | SimpleBlock self => [(KNone, self)]
  | IndexedBlock _ data => data
  end.

(** *** Disjunctions *)

Definition get_disjunction (c : cid) : M DisjunctionComp :=
  fun st => from_option DanglingReference (disjunctions st !! c) st.

Definition put_disjunction (c : cid) (x : DisjunctionComp) : M unit :=
  modify (fun st => set_disjunctions (<[c := x]> (disjunctions st)) st).

Definition disjunction_data (x : DisjunctionComp) : kdict DisjunctionData :=
  match dc_body x with
  | SimpleDisjunction d => [(KNone, d)]
  | IndexedDisjunction _ data => data
  end.

Definition disjunction_is_indexed (x : DisjunctionComp) : bool :=
  match dc_body x with SimpleDisjunction _ => false | IndexedDisjunction _ _ => true end.

Definition disjunction_active (x : DisjunctionComp) : bool :=
  match dc_body x with SimpleDisjunction d => dj_active d | IndexedDisjunction a _ => a end.

Definition deactivated (d : DisjunctionData) : DisjunctionData :=
  mkDisjunction false (xor d) (disjuncts d).

(** *** Components in general *)

(** [obj.active]; [None] when the object has no such attribute.  A
    variable is not an active component: its [active] is always true. *)
Definition active (r : cref) : M (option bool) :=
  match r with
  | RConstraint c =>
      x <- get_constraint c ;;
      ret (Some match x with
                | SimpleConstraint a _ => a
                | IndexedConstraint a _ => a
                end)
  | RDisjunction c =>
      x <- get_disjunction c ;; ret (Some (disjunction_active x))
  | RDisjunct c | RBlock c =>
      x <- get_blockcomp c ;;
      match x with
      | SimpleBlock self => b <- get_block self ;; ret (Some (blk_active b))
      | IndexedBlock a _ => ret (Some a)
      end
  | RVar v => get_var v ;; ret (Some true)
  | ROther _ a => ret a
  end.

(** [hasattr(obj, 'active') and not obj.active] *)
Definition is_inactive (a : option bool) : bool :=
  match a with Some false => true | _ => false end.

Definition is_indexed (r : cref) : M bool :=
  match r with
  | RConstraint c => x <- get_constraint c ;; ret (constraint_is_indexed x)
  | RDisjunction c => x <- get_disjunction c ;; ret (disjunction_is_indexed x)
  | RDisjunct c | RBlock c =>
      x <- get_blockcomp c ;;
      ret match x with SimpleBlock _ => false | IndexedBlock _ _ => true end
  | RVar _ => ret false
  | ROther _ _ => ret false
  end.

(** [ActiveComponent.deactivate(obj)]: clears the flag of the object
    itself and nothing else. *)
Definition ActiveComponent_deactivate (r : cref) : M unit :=
  match r with
  | RConstraint c =>
      x <- get_constraint c ;;
      put_constraint c match x with
                       | SimpleConstraint _ e => SimpleConstraint false e
                       | IndexedConstraint _ data => IndexedConstraint false data
                       end
  | RDisjunction c =>
      x <- get_disjunction c ;;
      put_disjunction c
        (mkDisjunctionComp (dc_parent_block x)
           match dc_body x with
           | SimpleDisjunction d => SimpleDisjunction (deactivated d)
           | IndexedDisjunction _ data => IndexedDisjunction false data
           end)
  | RDisjunct c | RBlock c =>
      x <- get_blockcomp c ;;
      match x with
      | SimpleBlock self => update_block self (with_active false)
      | IndexedBlock _ data => put_blockcomp c (IndexedBlock false data)
      end
  | RVar _ | ROther _ _ => raise (AttributeError "_active")
  end.

(** [obj.deactivate()] on a component: an indexed component also clears
    the flag of each of its data objects. *)
Definition deactivate (r : cref) : M unit :=
  match r with
  | RConstraint c =>
      x <- get_constraint c ;;
      put_constraint c match x with
                       | SimpleConstraint _ e => SimpleConstraint false e
                       | IndexedConstraint _ data =>
                           IndexedConstraint false
                             (map (fun kd => (kd.1, mkCon false (con_expr kd.2))) data)
                       end
  | RDisjunction c =>
      x <- get_disjunction c ;;
      put_disjunction c
        (mkDisjunctionComp (dc_parent_block x)
           match dc_body x with
           | SimpleDisjunction d => SimpleDisjunction (deactivated d)
           | IndexedDisjunction _ data =>
               IndexedDisjunction false (map (fun kd => (kd.1, deactivated kd.2)) data)
           end)
  | RDisjunct c | RBlock c =>
      x <- get_blockcomp c ;;
      match x with
      | SimpleBlock self => update_block self (with_active false)
      | IndexedBlock _ data =>
          put_blockcomp c (IndexedBlock false data) ;;
          mfor data (fun kb => update_block kb.2 (with_active false))
      end
  | RVar _ | ROther _ _ => raise (AttributeError "deactivate")
  end.

End Host.
Export Host.

(** ** Expression services of the host

    The polynomial degree of an expression, the body and bounds of a stored
    constraint, and the reclassification pass run after a whole instance
    was transformed are computed by pyomo.core and pyomo.gdp code that is
    not part of the source file: the transformation is parametric in
    them. *)

Class ExprHost := {
  (** [e.polynomial_degree()]; [None] when the expression is not
      polynomial.  Fixed variables count as constants. *)
  polynomial_degree : list VarData -> expr -> option nat;
  (** [c.body], [c.lower], [c.upper] *)
  body : relation -> expr;
  lower : relation -> option Q;
  upper : relation -> option Q;
  (** [HACK_GDP_Disjunct_Reclassifier().apply_to(instance)] *)
  HACK_GDP_Disjunct_Reclassifier : bid -> M unit }.

(** Modelled from the spec: [identify_variables(e, include_fixed=False)]
    of pyomo.core.base.expr, which is not part of the source file: the
    variables an expression references, fixed ones excluded, each once, in
    the order of their first occurrence. *)
Definition identify_variables (e : expr) : M (list vid) :=
  mfold (leaves e) [] (fun seen v =>
    d <- get_var v ;;
    if var_fixed d || bool_decide (v ∈ seen) then ret seen else ret (seen ++ [v])).

(** ** The transformation *)

Definition NL_Mode_LeeGrossmann : Z := 1.
Definition NL_Mode_GrossmannLee : Z := 2.
Definition NL_Mode_FurmanSawayaGrossmann : Z := 3.

Definition EPS : Q := 1 # 100.

(** The object bound to [transBlock]: the transformation block and its
    component [relaxedDisjuncts]. *)
Record TransBlock := mkTransBlock {
  tb_block : bid;
  relaxedDisjuncts : cid }.

(** The values of [self.handlers]: [False], or one of the methods. *)
Inductive handler : Type :=
| HFalse
| H_xform_constraint
| H_warn_for_active_disjunction
| H_warn_for_active_disjunct
| H_transform_block_on_disjunct.

(** [self.handlers.get(t, None)] *)
Definition handlers (t : ctype) : option handler :=
  match t with
  | Constraint => Some H_xform_constraint
  | Var_ => Some HFalse
  | Connector => Some HFalse
  | Param => Some HFalse
  | Set_ => Some HFalse
  | Suffix => Some HFalse
  | Disjunction => Some H_warn_for_active_disjunction
  | Disjunct => Some H_warn_for_active_disjunct
  | Block => Some H_transform_block_on_disjunct
  | _ => None
  end.

Definition lb : key := KStr "lb".
Definition ub : key := KStr "ub".

Section Transformation.

Context `{ExprHost}.

(** *** [_xform_constraint] *)

(** [c.body.polynomial_degree() not in (0,1)] *)
Definition not_in_0_1 (d : option nat) : bool :=
  match d with
  | Some 0%nat | Some 1%nat => false
  | _ => true
  end.

(** The body of the loop [for i in sorted(iterkeys(obj))]. *)
Definition xform_constraint_index (mode : Z) (obj : cid) (indexed : bool)
    (newConstraint : cid) (disjunct : bid)
    (var_substitute_map zero_substitute_map : gmap vid expr) (i : key) : M unit :=
  x <- get_constraint obj ;;
  c <- from_option KeyError (constraint_getitem x i) ;;
  if negb (con_active c) then ret tt else
  put_constraint obj (constraint_deactivate_data x i) ;;
  vs <- gets vars ;;
  let NL := not_in_0_1 (polynomial_degree vs (body (con_expr c))) in
  let h_0 :=
    if negb NL || (mode =? NL_Mode_FurmanSawayaGrossmann)%Z
    then Some (clone_expression (body (con_expr c)) zero_substitute_map)
    else None in
  let expr := clone_expression (body (con_expr c)) var_substitute_map in
  y <- get_indicator_var disjunct ;;
  expr <-
    (if NL then
       if (mode =? NL_Mode_LeeGrossmann)%Z then
         let sub_expr :=
           clone_expression (body (con_expr c))
             ((fun subs => Div subs (Var y)) <$> var_substitute_map) in
         ret (Mul sub_expr (Var y))
       else if (mode =? NL_Mode_GrossmannLee)%Z then
         let sub_expr :=
           clone_expression (body (con_expr c))
             ((fun subs => Div subs (Add (Var y) (Const EPS))) <$> var_substitute_map) in
         ret (Mul (Add (Var y) (Const EPS)) sub_expr)
       else if (mode =? NL_Mode_FurmanSawayaGrossmann)%Z then
         let sub_expr :=
           clone_expression (body (con_expr c))
             ((fun subs => Div subs (Add (Mul (Const (1 - EPS)) (Var y)) (Const EPS)))
                <$> var_substitute_map) in
         h_0 <- from_option (UnboundLocalError "h_0") h_0 ;;
         ret (Sub (Mul (Add (Mul (Const (1 - EPS)) (Var y)) (Const EPS)) sub_expr)
                  (Mul (Mul (Const EPS) h_0) (Sub (Const 1) (Var y))))
       else raise UnknownFormulationMode
     else ret expr) ;;
  match lower (con_expr c) with
  | Some L =>
      newConsExpr <-
        (if NL then ret (Ge expr (Mul (Const L) (Var y)))
         else
           h_0 <- from_option (UnboundLocalError "h_0") h_0 ;;
           ret (Ge (Sub expr (Mul (Sub (Const 1) (Var y)) h_0)) (Mul (Const L) (Var y)))) ;;
      if indexed then constraint_add newConstraint (KTuple [i; lb]) newConsExpr
      else constraint_add newConstraint lb newConsExpr
  | None => ret tt
  end ;;
  match upper (con_expr c) with
  | Some U =>
      newConsExpr <-
        (if NL then ret (Le expr (Mul (Const U) (Var y)))
         else
           h_0 <- from_option (UnboundLocalError "h_0") h_0 ;;
           ret (Le (Sub expr (Mul (Sub (Const 1) (Var y)) h_0)) (Mul (Const U) (Var y)))) ;;
      if indexed then constraint_add newConstraint (KTuple [i; ub]) newConsExpr
      else constraint_add newConstraint ub newConsExpr
  | None => ret tt
  end.

(** [relaxationBlock._gdp_transformation_info] *)
Definition get_info (b : bid) : M did :=
  x <- get_block b ;;
  match gdp_transformation_info x with
  | IsDict d => ret d
  | NotADict => raise (AttributeError "setdefault")
  | NoAttr => raise (AttributeError "_gdp_transformation_info")
  end.

Definition xform_constraint (mode : Z) (obj : cref) (disjunct : bid)
    (relaxationBlock : bid) (infodict : did)
    (var_substitute_map zero_substitute_map : gmap vid expr) : M unit :=
  match obj with
  | RConstraint obj =>
      d <- get_dict infodict ;;
      varMap <- from_option KeyError (disaggregatedVars d) ;;
      x <- get_constraint obj ;;
      let indexed := constraint_is_indexed x in
      newConstraint <- new_constraint (IndexedConstraint true []) ;;
      add_component relaxationBlock (RConstraint newConstraint) ;;
      update_dict infodict (fun d =>
        with_relaxedConstraints
          (Some (<[obj := newConstraint]> (default ∅ (relaxedConstraints d)))) d) ;;
      rinfo <- get_info relaxationBlock ;;
      update_dict rinfo (fun d =>
        with_srcConstraints
          (Some (<[newConstraint := obj]> (default ∅ (srcConstraints d)))) d) ;;
      x <- get_constraint obj ;;
      mfor (sorted (constraint_keys x))
        (xform_constraint_index mode obj indexed newConstraint disjunct
           var_substitute_map zero_substitute_map)
  | _ => raise DanglingReference
  end.

(** *** [_warn_for_active_disjunction], [_warn_for_active_disjunct]

    The second assertion of [_warn_for_active_disjunction] compares the
    name of the disjunction with the keys of the dict of its parent
    block; names are not modelled and the assertion is taken to hold. *)

Definition warn_for_active_disjunction (disjunction : cref) (disjunct : bid)
    (relaxedBlock : bid) (infodict : did)
    (var_substitute_map zero_substitute_map : gmap vid expr) : M unit :=
  match disjunction with
  | RDisjunction c =>
      x <- get_disjunction c ;;
      if negb (disjunction_active x) then raise AssertionError else
      match dc_body x with
      | IndexedDisjunction _ data =>
          match find (fun i => match kget i data with
                               | Some d => dj_active d
                               | None => false
                               end) (sorted (kkeys data)) with
          | Some _ => raise OrderingViolation
          | None => deactivate disjunction
          end
      | SimpleDisjunction _ => raise OrderingViolation
      end
  | _ => raise DanglingReference
  end.

Definition warn_for_active_disjunct (innerdisjunct : cref) (outerdisjunct : bid)
    (relaxedBlock : bid) (infodict : did)
    (var_substitute_map zero_substitute_map : gmap vid expr) : M unit :=
  match innerdisjunct with
  | RDisjunct c =>
      a <- active innerdisjunct ;;
      if negb (default true a) then raise AssertionError else
      x <- get_blockcomp c ;;
      match x with
      | IndexedBlock _ data =>
          found <- mfold (sorted (kkeys data)) false (fun found i =>
            if found : bool then ret true else
            b <- from_option KeyError (kget i data) ;;
            d <- get_block b ;;
            ret (blk_active d)) ;;
          if found : bool then raise OrderingViolation
          else deactivate innerdisjunct
      | SimpleBlock _ => raise OrderingViolation
      end
  | _ => raise DanglingReference
  end.

(** *** [_transform_block_on_disjunct]

    The arguments of the call of [_transform_block_components] are
    evaluated first, and [varSet] is the name of no local or global
    variable. *)
Definition transform_block_on_disjunct (block : cref) (disjunct : bid)
    (relaxationBlock : bid) (infodict : did)
    (var_substitute_map zero_substitute_map : gmap vid expr) : M unit :=
  raise (NameError "varSet").

(** *** [_transform_block_components] *)

(** The body of the loop over the components of the block. *)
Definition transform_component (mode : Z) (disjunct : bid)
    (relaxedBlock : bid) (infodict : did)
    (var_substitute_map zero_substitute_map : gmap vid expr) (obj : cref) : M unit :=
  a <- active obj ;;
  if is_inactive a then ret tt else
  match handlers (type obj) with
  | None => raise (UnsupportedEntityKind (type obj))
  | Some HFalse => ret tt
  | Some H_xform_constraint =>
      xform_constraint mode obj disjunct relaxedBlock infodict
        var_substitute_map zero_substitute_map
  | Some H_warn_for_active_disjunction =>
      warn_for_active_disjunction obj disjunct relaxedBlock infodict
        var_substitute_map zero_substitute_map
  | Some H_warn_for_active_disjunct =>
      warn_for_active_disjunct obj disjunct relaxedBlock infodict
        var_substitute_map zero_substitute_map
  | Some H_transform_block_on_disjunct =>
      transform_block_on_disjunct obj disjunct relaxedBlock infodict
        var_substitute_map zero_substitute_map
  end.

Definition transform_block_components (mode : Z) (block : bid) (disjunct : bid)
    (relaxedBlock : bid) (infodict : did)
    (var_substitute_map zero_substitute_map : gmap vid expr) : M unit :=
  b <- get_block block ;;
  mfor (blk_decls b)
    (transform_component mode disjunct relaxedBlock infodict
       var_substitute_map zero_substitute_map).

(** *** [_transform_disjunct] *)

(** [relaxedDisjuncts[len(relaxedDisjuncts)]]: the block at a key that is
    not there yet is created. *)
Definition relaxedDisjuncts_getitem_len (transBlock : TransBlock) : M bid :=
  x <- get_blockcomp (relaxedDisjuncts transBlock) ;;
  let data := blockcomp_data x in
  let k := KInt (Z.of_nat (length data)) in
  match kget k data with
  | Some b => ret b
  | None =>
      match x with
      | IndexedBlock a data =>
          b <- new_block (mkBlock true (RBlock (relaxedDisjuncts transBlock))
                            [] None NoAttr []) ;;
          put_blockcomp (relaxedDisjuncts transBlock) (IndexedBlock a (kset k b data)) ;;
          ret b
      | SimpleBlock _ => raise KeyError
      end
  end.

(** [transBlock.disjContainers.add(r)] *)
Definition disjContainers_add (transBlock : TransBlock) (r : cref) : M unit :=
  update_block (tb_block transBlock) (fun x =>
    if bool_decide (r ∈ disjContainers x) then x
    else with_disjContainers (disjContainers x ++ [r]) x).

(** The body of the loop [for var in varSet]. *)
Definition disaggregate_var (obj : bid) (relaxationBlock : bid)
    (infodict relaxationBlockInfo : did) (var : vid) : M unit :=
  disaggregatedVar <- new_var ;;
  add_component relaxationBlock (RVar disaggregatedVar) ;;
  d <- get_dict infodict ;;
  m <- from_option KeyError (disaggregatedVars d) ;;
  update_dict infodict (with_disaggregatedVars (Some (<[var := disaggregatedVar]> m))) ;;
  d <- get_dict relaxationBlockInfo ;;
  m <- from_option KeyError (srcVars d) ;;
  update_dict relaxationBlockInfo (with_srcVars (Some (<[disaggregatedVar := var]> m))) ;;
  v <- get_var var ;;
  match var_lb v, var_ub v with
  | Some lb_, Some ub_ =>
      bigmConstraint <- new_constraint (IndexedConstraint true []) ;;
      add_component relaxationBlock (RConstraint bigmConstraint) ;;
      y <- get_indicator_var obj ;;
      constraint_add bigmConstraint lb
        (Le (Mul (Var y) (Const lb_)) (Var disaggregatedVar)) ;;
      y <- get_indicator_var obj ;;
      constraint_add bigmConstraint ub
        (Le (Var disaggregatedVar) (Mul (Var y) (Const ub_))) ;;
      d <- get_dict infodict ;;
      m <- from_option KeyError (bigmConstraints d) ;;
      update_dict infodict (with_bigmConstraints (Some (<[var := bigmConstraint]> m))) ;;
      d <- get_dict relaxationBlockInfo ;;
      m <- from_option KeyError (boundConstraintToSrcVar d) ;;
      update_dict relaxationBlockInfo
        (with_boundConstraintToSrcVar (Some (<[bigmConstraint := var]> m)))
  | _, _ => raise (UnboundedDisaggregationVariable var)
  end.

(** The part of [_transform_disjunct] from the loop over the variables
    on. *)
Definition disaggregate_and_transform (mode : Z) (obj : bid) (relaxationBlock : bid)
    (infodict relaxationBlockInfo : did) (varSet : list vid) : M unit :=
  mfor varSet (disaggregate_var obj relaxationBlock infodict relaxationBlockInfo) ;;
  d <- get_dict infodict ;;
  m <- from_option KeyError (disaggregatedVars d) ;;
  let var_substitute_map : gmap vid expr := Var <$> m in
  let zero_substitute_map : gmap vid expr := (fun _ => Const 0) <$> m in
  transform_block_components mode obj obj relaxationBlock infodict
    var_substitute_map zero_substitute_map ;;
  update_block obj (with_active false) ;;
  update_dict infodict (with_relaxed (Some true)) ;;
  update_block obj (with_info (IsDict infodict)).

Definition transform_disjunct (mode : Z) (obj : bid) (transBlock : TransBlock)
    (varSet : list vid) : M unit :=
  o <- get_block obj ;;
  infodict <-
    match gdp_transformation_info o with
    | IsDict d => ret d
    | NotADict => raise ConflictingMetadataAttribute
    | NoAttr => new_dict empty_dict
    end ;;
  d <- get_dict infodict ;;
  if negb (blk_active o) && negb (default false (relaxed d)) then
    y <- get_indicator_var obj ;;
    fix_var y 0
  else if bool_decide (is_Some (chull d)) then ret tt
  else
    relaxationBlock <- relaxedDisjuncts_getitem_len transBlock ;;
    relaxationBlockInfo <-
      new_dict (mkInfo None None None None None None None
                  (Some obj) (Some ∅) (Some ∅) None) ;;
    update_block relaxationBlock (with_info (IsDict relaxationBlockInfo)) ;;
    update_dict infodict (with_chull (Some relaxationBlock)) ;;
    o <- get_block obj ;;
    let disjParent := blk_parent_component o in
    indexed <- is_indexed disjParent ;;
    (if indexed then disjContainers_add transBlock disjParent else ret tt) ;;
    update_dict infodict (with_disaggregatedVars (Some ∅)) ;;
    update_dict infodict (with_bigmConstraints (Some ∅)) ;;
    disaggregate_and_transform mode obj relaxationBlock infodict relaxationBlockInfo
      varSet.

(** *** [_getDisjunctionConstraints] *)

Definition getDisjunctionConstraints (disjunction : cid) : M (cid * cid) :=
  x <- get_disjunction disjunction ;;
  let parent := dc_parent_block x in
  p <- get_block parent ;;
  infodict <-
    match gdp_transformation_info p with
    | IsDict infodict =>
        d <- get_dict infodict ;;
        match disjunction_or_constraint d with
        | Some _ => ret tt
        | None => update_dict infodict (with_disjunction_or_constraint (Some ∅))
        end ;;
        d <- get_dict infodict ;;
        match disjunction_disaggregation_constraints d with
        | Some _ => ret tt
        | None =>
            update_dict infodict (with_disjunction_disaggregation_constraints (Some ∅))
        end ;;
        ret infodict
    | NotADict => raise ConflictingMetadataAttribute
    | NoAttr =>
        infodict <- new_dict empty_dict ;;
        update_block parent (with_info (IsDict infodict)) ;;
        update_dict infodict (with_disjunction_or_constraint (Some ∅)) ;;
        update_dict infodict (with_disjunction_disaggregation_constraints (Some ∅)) ;;
        ret infodict
    end ;;
  d <- get_dict infodict ;;
  disaggregationConstraintMap <-
    from_option KeyError (disjunction_disaggregation_constraints d) ;;
  disaggregationConstraint <-
    match disaggregationConstraintMap !! disjunction with
    | Some c => ret c
    | None =>
        c <- new_constraint (IndexedConstraint true []) ;;
        update_dict infodict
          (with_disjunction_disaggregation_constraints
             (Some (<[disjunction := c]> disaggregationConstraintMap))) ;;
        add_component parent (RConstraint c) ;;
        ret c
    end ;;
  d <- get_dict infodict ;;
  orConstraintMap <- from_option KeyError (disjunction_or_constraint d) ;;
  orC <-
    match orConstraintMap !! disjunction with
    | Some c => ret c
    | None =>
        c <- new_constraint (if disjunction_is_indexed x
                             then IndexedConstraint true []
                             else SimpleConstraint true None) ;;
        add_component parent (RConstraint c) ;;
        update_dict infodict
          (with_disjunction_or_constraint (Some (<[disjunction := c]> orConstraintMap))) ;;
        ret c
    end ;;
  ret (orC, disaggregationConstraint).

(** *** [_transformDisjunctionData] *)

(** Modelled from the spec: [block.component_objects(Constraint,
    active=True, sort=SortComponents.deterministic, descend_into=Block)]
    of pyomo.core, which is not part of the source file: the active
    constraint components of the block and of the active blocks nested in
    it, the block itself first, in declaration order, the members of an
    indexed block in the order of their keys; nothing if the block is
    inactive. *)
Fixpoint active_constraints (fuel : nat) (b : bid) : M (list cid) :=
  match fuel with
  | O => raise OutOfFuel
  | S fuel =>
      x <- get_block b ;;
      if negb (blk_active x) then ret [] else
      own <- mfold (blk_decls x) [] (fun acc r =>
        match r with
        | RConstraint c =>
            a <- active r ;;
            if is_inactive a then ret acc else ret (acc ++ [c])
        | _ => ret acc
        end) ;;
      mfold (blk_decls x) own (fun acc r =>
        match r with
        | RBlock c =>
            a <- active r ;;
            if is_inactive a then ret acc else
            bc <- get_blockcomp c ;;
            mfold (sorted (kkeys (blockcomp_data bc))) acc (fun acc k =>
              sub <- from_option KeyError (kget k (blockcomp_data bc)) ;;
              l <- active_constraints fuel sub ;;
              ret (acc ++ l))
        | _ => ret acc
        end)
  end.

(** [cons.body] of a constraint component: only a scalar constraint has
    the attribute, and only once it has an expression. *)
Definition component_body (cons : cid) : M expr :=
  x <- get_constraint cons ;;
  match x with
  | SimpleConstraint _ (Some e) => ret (body e)
  | SimpleConstraint _ None => raise ValueError
  | IndexedConstraint _ _ => raise (AttributeError "body")
  end.

(** [disjunct._gdp_transformation_info['disaggregatedVars'][var]] *)
Definition disaggregatedVar_of (disjunct : bid) (var : vid) : M vid :=
  o <- get_block disjunct ;;
  match gdp_transformation_info o with
  | IsDict infodict =>
      d <- get_dict infodict ;;
      m <- from_option KeyError (disaggregatedVars d) ;;
      from_option KeyError (m !! var)
  | NotADict => raise (AttributeError "__getitem__")
  | NoAttr => raise (AttributeError "_gdp_transformation_info")
  end.

(** The key of the disaggregation constraint of the [i]-th variable. *)
Definition consIdx (index : key) (is_indexed : bool) (i : nat) : key :=
  match index with
  | KTuple l => KTuple (l ++ [KInt (Z.of_nat i)])
  | _ => if is_indexed then KTuple [index; KInt (Z.of_nat i)]
         else KInt (Z.of_nat i)
  end.

(** The variables to disaggregate, in the order they are found. *)
Definition collect_varSet (fuel : nat) (disjuncts : list bid) : M (list vid) :=
  mfold disjuncts [] (fun varSet disjunct =>
    conss <- active_constraints fuel disjunct ;;
    mfold conss varSet (fun varSet cons =>
      e <- component_body cons ;;
      vs <- identify_variables e ;;
      ret (fold_left (fun varSet var =>
             if bool_decide (var ∈ varSet) then varSet else varSet ++ [var])
           vs varSet))).

(** The part of [_transformDisjunctionData] after the constraints of
    the disjunction were obtained. *)
Definition relax_disjuncts (fuel : nat) (mode : Z) (obj : DisjunctionData)
    (is_indexed : bool) (transBlock : TransBlock) (index : key)
    (orConstraint disaggregationConstraint : cid) : M unit :=
  varSet <- collect_varSet fuel (disjuncts obj) ;;
  or_expr <- mfold (disjuncts obj) (Const 0) (fun or_expr disjunct =>
    y <- get_indicator_var disjunct ;;
    transform_disjunct mode disjunct transBlock varSet ;;
    ret (Add or_expr (Var y))) ;;
  constraint_add orConstraint index (Eq or_expr (Const 1)) ;;
  mfor (imap (fun i var => (i, var)) varSet) (fun iv =>
    disaggregatedExpr <- mfold (disjuncts obj) (Const 0) (fun e disjunct =>
      disaggregatedVar <- disaggregatedVar_of disjunct iv.2 ;;
      ret (Add e (Var disaggregatedVar))) ;;
    constraint_add disaggregationConstraint (consIdx index is_indexed iv.1)
      (Eq (Var iv.2) disaggregatedExpr)).

(** [obj] is the member at key [k] of the disjunction [c]. *)
Definition transformDisjunctionData (fuel : nat) (mode : Z) (obj : cid * key)
    (transBlock : TransBlock) (index : key) : M unit :=
  let parent_component := obj.1 in
  x <- get_disjunction parent_component ;;
  o <- from_option KeyError (kget obj.2 (disjunction_data x)) ;;
  if negb (xor o) then raise NonExclusiveDisjunctionUnsupported else
  disjContainers_add transBlock (RDisjunction parent_component) ;;
  cs <- getDisjunctionConstraints parent_component ;;
  relax_disjuncts fuel mode o (disjunction_is_indexed x) transBlock index cs.1 cs.2.

(** *** [_transformDisjunction] *)

Definition transformDisjunction (fuel : nat) (mode : Z) (obj : cid)
    (transBlock : TransBlock) : M unit :=
  x <- get_disjunction obj ;;
  mfor (sorted (kkeys (disjunction_data x))) (fun i =>
    transformDisjunctionData fuel mode (obj, i) transBlock i) ;;
  deactivate (RDisjunction obj).

(** *** [_transformBlockData], [_transformBlock] *)

(** Modelled from the spec: the loop over [obj.component_objects(
    Disjunction, active=True, sort=SortComponents.deterministic,
    descend_into=(Block,Disjunct), descent_order=
    TraversalStrategy.PostfixDFS)] of pyomo.core, which is not part of
    the source file: the active blocks and disjuncts nested in an active
    block are visited first, deepest first, then the active disjunctions
    of the block itself in declaration order; what is inactive when it is
    reached is skipped. *)
Fixpoint transformBlockData (fuel : nat) (mode : Z) (obj : bid)
    (transBlock : TransBlock) : M unit :=
  match fuel with
  | O => raise OutOfFuel
  | S fuel' =>
      x <- get_block obj ;;
      if negb (blk_active x) then ret tt else
      mfor (blk_decls x) (fun r =>
        match r with
        | RBlock c | RDisjunct c =>
            a <- active r ;;
            if is_inactive a then ret tt else
            bc <- get_blockcomp c ;;
            mfor (sorted (kkeys (blockcomp_data bc))) (fun k =>
              sub <- from_option KeyError (kget k (blockcomp_data bc)) ;;
              transformBlockData fuel' mode sub transBlock)
        | _ => ret tt
        end) ;;
      mfor (blk_decls x) (fun r =>
        match r with
        | RDisjunction disjunction =>
            a <- active r ;;
            if is_inactive a then ret tt
            else transformDisjunction fuel mode disjunction transBlock
        | _ => ret tt
        end)
  end.

Definition transformBlock (fuel : nat) (mode : Z) (obj : cid)
    (transBlock : TransBlock) : M unit :=
  bc <- get_blockcomp obj ;;
  mfor (sorted (kkeys (blockcomp_data bc))) (fun i =>
    sub <- from_option KeyError (kget i (blockcomp_data bc)) ;;
    transformBlockData fuel mode sub transBlock).

(** *** [_apply_to] *)

(** What a target resolves to: a component, or a member of an indexed
    component. *)
Inductive target : Type :=
| TComponent (r : cref)
| TDisjunctionData (c : cid) (i : key)
| TBlockData (b : bid)
| TConstraintData (c : cid) (i : key).

Definition resolves (st : state) (t : target) : bool :=
  match t with
  | TComponent (RConstraint c) => bool_decide (is_Some (constraints st !! c))
  | TComponent (RDisjunction c) => bool_decide (is_Some (disjunctions st !! c))
  | TComponent (RDisjunct c) | TComponent (RBlock c) =>
      bool_decide (is_Some (blockcomps st !! c))
  | TComponent (RVar v) => bool_decide (is_Some (vars st !! v))
  | TComponent (ROther _ _) => true
  | TDisjunctionData c i =>
      match disjunctions st !! c with
      | Some x => bool_decide (is_Some (kget i (disjunction_data x)))
      | None => false
      end
  | TBlockData b => bool_decide (is_Some (blocks st !! b))
  | TConstraintData c i =>
      match constraints st !! c with
      | Some x => bool_decide (is_Some (constraint_getitem x i))
      | None => false
      end
  end.

(** Modelled from the spec: [_t.find_component(instance)] of
    pyomo.core, which is not part of the source file: the object the
    target names, or [None] when it does not resolve against the model. *)
Definition find_component (_t : target) : M (option target) :=
  fun st => (Ok (if resolves st _t then Some _t else None), st).

(** [t.active] *)
Definition target_active (t : target) : M bool :=
  match t with
  | TComponent r =>
      a <- active r ;; from_option (AttributeError "active") a
  | TDisjunctionData c i =>
      x <- get_disjunction c ;;
      d <- from_option KeyError (kget i (disjunction_data x)) ;;
      ret (dj_active d)
  | TBlockData b => x <- get_block b ;; ret (blk_active x)
  | TConstraintData c i =>
      x <- get_constraint c ;;
      d <- from_option KeyError (constraint_getitem x i) ;;
      ret (con_active d)
  end.

(** The dispatch on [t.type()] and on [t.parent_component() is t]; a
    scalar component is its own only member. *)
Definition transform_target (fuel : nat) (mode : Z) (t : target)
    (transBlock : TransBlock) : M unit :=
  match t with
  | TComponent (RDisjunction c) => transformDisjunction fuel mode c transBlock
  | TDisjunctionData c i =>
      x <- get_disjunction c ;;
      if disjunction_is_indexed x
      then transformDisjunctionData fuel mode (c, i) transBlock i
      else transformDisjunction fuel mode c transBlock
  | TComponent (RBlock c) | TComponent (RDisjunct c) =>
      transformBlock fuel mode c transBlock
  | TBlockData b =>
      x <- get_block b ;;
      match blk_parent_component x with
      | RBlock c | RDisjunct c =>
          bc <- get_blockcomp c ;;
          match bc with
          | SimpleBlock _ => transformBlock fuel mode c transBlock
          | IndexedBlock _ _ => transformBlockData fuel mode b transBlock
          end
      | _ => raise UnsupportedTargetKind
      end
  | _ => raise UnsupportedTargetKind
  end.

(** The body of the loop [for _t in targets]. *)
Definition apply_to_target (fuel : nat) (mode : Z) (transBlock : TransBlock)
    (_t : target) : M unit :=
  t <- find_component _t ;;
  match t with
  | None => raise TargetNotFound
  | Some t =>
      a <- target_active t ;;
      if negb a then ret tt
      else transform_target fuel mode t transBlock
  end.

(** The last loop of [_apply_to]: a container all of whose members are
    inactive is deactivated. *)
Definition deactivate_container (obj : cref) : M unit :=
  a <- active obj ;;
  if is_inactive a then ret tt else
  any_active <-
    match obj with
    | RDisjunction c =>
        x <- get_disjunction c ;;
        ret match dc_body x with
            | SimpleDisjunction d => dj_active d
            | IndexedDisjunction _ data => existsb (fun kd => dj_active kd.2) data
            end
    | RDisjunct c | RBlock c =>
        x <- get_blockcomp c ;;
        mfold (blockcomp_data x) false (fun found kb =>
          if found : bool then ret true
          else d <- get_block kb.2 ;; ret (blk_active d))
    | _ => raise (AttributeError "__iter__")
    end ;;
  if any_active : bool then ret tt else ActiveComponent_deactivate obj.

(** The transformation block and its components [relaxedDisjuncts] and
    [lbub]. *)
Definition make_transBlock (instance : bid) : M TransBlock :=
  c <- gets (fun st => length (blockcomps st)) ;;
  transBlock <- new_block (mkBlock true (RBlock c) [] None NoAttr []) ;;
  new_blockcomp (SimpleBlock transBlock) ;;
  add_component instance (RBlock c) ;;
  relaxedDisjuncts <- new_blockcomp (IndexedBlock true []) ;;
  add_component transBlock (RBlock relaxedDisjuncts) ;;
  add_component transBlock (ROther Set_ (Some true)) ;;
  ret (mkTransBlock transBlock relaxedDisjuncts).

(** [targets] is [None] when the whole instance is to be transformed.
    The warnings about unrecognized keyword arguments and options only
    write to the log. *)
Definition apply_to (fuel : nat) (instance : bid) (targets : option (list target))
    (nl_mode : Z) : M unit :=
  transBlock <- make_transBlock instance ;;
  mfor (default [TBlockData instance] targets)
    (apply_to_target fuel nl_mode transBlock) ;;
  tb <- get_block (tb_block transBlock) ;;
  mfor (disjContainers tb) deactivate_container ;;
  match targets with
  | None => HACK_GDP_Disjunct_Reclassifier instance
  | Some _ => ret tt
  end.

End Transformation.

(** ** Observations on a model *)

(** The constraint stored at a key of a constraint component. *)
Definition emitted (st : state) (c : cid) (k : key) : option relation :=
  match constraints st !! c with
  | Some x => con_expr <$> constraint_getitem x k
  | None => None
  end.

(** The key of a rewritten constraint: [(i, side)] for a member of an
    indexed constraint, [side] for a scalar one. *)
Definition side_key (indexed : bool) (i : key) (side : key) : key :=
  if indexed then KTuple [i; side] else side.

(** What no step of the transformation undoes: an object stays in its
    arena, a block keeps its indicator variable, an inactive disjunction
    stays inactive, an indexed block loses no member and a variable
    keeps its bounds. *)
Definition mono (st st' : state) : Prop :=
  (forall b x, blocks st !! b = Some x ->
     exists x', blocks st' !! b = Some x' /\ indicator_var x' = indicator_var x) /\
  (forall c x, disjunctions st !! c = Some x ->
     exists x', disjunctions st' !! c = Some x' /\
                (disjunction_active x = false -> disjunction_active x' = false)) /\
  (forall c x, blockcomps st !! c = Some x ->
     exists x', blockcomps st' !! c = Some x' /\
                (length (blockcomp_data x) <= length (blockcomp_data x'))%nat) /\
  (forall d x, dicts st !! d = Some x -> exists x', dicts st' !! d = Some x') /\
  (forall v x, vars st !! v = Some x ->
     exists x', vars st' !! v = Some x' /\
                var_lb x' = var_lb x /\ var_ub x' = var_ub x).

(** A computation all of whose runs are monotone in that sense. *)
Definition preserves {A} (m : M A) : Prop :=
  forall st, mono st (m st).2.

(** What the loop over the variables to disaggregate relies on: the
    disjunct has its indicator variable, the relaxation block exists, and
    the two dicts have the maps the loop writes to. *)
Definition loop_inv (obj relaxationBlock : bid) (infodict relaxationBlockInfo : did)
    (y : vid) (st : state) : Prop :=
  (exists o, blocks st !! obj = Some o /\ indicator_var o = Some y) /\
  (exists r, blocks st !! relaxationBlock = Some r) /\
  relaxationBlock <> obj /\
  (exists d m1 m2, dicts st !! infodict = Some d /\
                   disaggregatedVars d = Some m1 /\ bigmConstraints d = Some m2) /\
  (exists d m3 m4, dicts st !! relaxationBlockInfo = Some d /\
                   srcVars d = Some m3 /\ boundConstraintToSrcVar d = Some m4) /\
  infodict <> relaxationBlockInfo.

(** The two bound constraints of a disaggregated variable. *)
Definition bigm_lb (y : vid) (l : Q) (disaggregatedVar : vid) : relation :=
  Le (Mul (Var y) (Const l)) (Var disaggregatedVar).
Definition bigm_ub (y : vid) (u : Q) (disaggregatedVar : vid) : relation :=
  Le (Var disaggregatedVar) (Mul (Var y) (Const u)).

(** A variable with both bounds. *)
Definition bounded (st : state) (var : vid) (l u : Q) : Prop :=
  exists v, vars st !! var = Some v /\ var_lb v = Some l /\ var_ub v = Some u.

(** A variable that lacks a bound. *)
Definition unbounded (st : state) (var : vid) : Prop :=
  exists v, vars st !! var = Some v /\ (var_lb v = None \/ var_ub v = None).

(** A step that keeps what the constraint components hold, except
    possibly at the component [n]. *)
Definition emitted_except (n : option cid) (st st' : state) : Prop :=
  forall c k r, Some c <> n -> emitted st c k = Some r -> emitted st' c k = Some r.

(** The number of objects of the model: what a run generates is what it
    adds to this count. *)
Definition object_count (st : state) : nat :=
  length (vars st) + length (constraints st) + length (disjunctions st) +
  length (blockcomps st) + length (blocks st).

(** A computation all of whose runs, the failed ones included, end in a
    state related to the one they started in. *)
Definition keeps (R : state -> state -> Prop) {A} (m : M A) : Prop :=
  forall st, R st (m st).2.

(** Every object of an arena is still there, and related to what it
    was. *)
Definition arena_kept {A} (P : A -> A -> Prop) (l l' : list A) : Prop :=
  forall i x, l !! i = Some x -> exists x', l' !! i = Some x' /\ P x x'.

(** A variable keeps its bounds, and stays fixed once it is. *)
Definition var_kept (x x' : VarData) : Prop :=
  var_lb x' = var_lb x /\ var_ub x' = var_ub x /\
  (var_fixed x = true -> var_fixed x' = true).

(** A constraint component stays scalar or indexed and loses no member. *)
Definition constraint_kept (x x' : ConstraintComp) : Prop :=
  constraint_is_indexed x' = constraint_is_indexed x /\
  forall k d, constraint_getitem x k = Some d ->
    exists d', constraint_getitem x' k = Some d'.

(** A disjunction keeps its parent block and its keys, each member keeps
    its [xor] flag and its disjuncts, and what is inactive stays so. *)
Definition disjunction_kept (x x' : DisjunctionComp) : Prop :=
  dc_parent_block x' = dc_parent_block x /\
  disjunction_is_indexed x' = disjunction_is_indexed x /\
  (disjunction_active x = false -> disjunction_active x' = false) /\
  kkeys (disjunction_data x') = kkeys (disjunction_data x) /\
  forall k d, kget k (disjunction_data x) = Some d ->
    exists d', kget k (disjunction_data x') = Some d' /\
               xor d' = xor d /\ disjuncts d' = disjuncts d /\
               (dj_active d = false -> dj_active d' = false).

(** A block or disjunct component stays scalar or indexed and keeps each
    of its members. *)
Definition blockcomp_kept (x x' : BlockComp) : Prop :=
  (match x, x' with
   | SimpleBlock _, SimpleBlock _ => True
   | IndexedBlock a _, IndexedBlock a' _ => a = false -> a' = false
   | _, _ => False
   end) /\
  forall k b, kget k (blockcomp_data x) = Some b -> kget k (blockcomp_data x') = Some b.

(** A block keeps its indicator variable and its parent component, its
    components in their order (new ones come last), and stays inactive
    once it is. *)
Definition block_kept (x x' : BlockData) : Prop :=
  indicator_var x' = indicator_var x /\
  blk_parent_component x' = blk_parent_component x /\
  (blk_active x = false -> blk_active x' = false) /\
  exists more, blk_decls x' = blk_decls x ++ more.

(** A dict that says [relaxed] goes on saying so. *)
Definition dict_kept (x x' : InfoDict) : Prop :=
  relaxed x = Some true -> relaxed x' = Some true.

(** What no step of the transformation removes, and the flags it never
    sets back: a fixed variable, an inactive block or disjunction, a dict
    that says [relaxed].  The [active] flag of a constraint is not among
    them: [add] writes an active member, also over a deactivated one. *)
Definition stable (st st' : state) : Prop :=
  arena_kept var_kept (vars st) (vars st') /\
  arena_kept constraint_kept (constraints st) (constraints st') /\
  arena_kept disjunction_kept (disjunctions st) (disjunctions st') /\
  arena_kept blockcomp_kept (blockcomps st) (blockcomps st') /\
  arena_kept block_kept (blocks st) (blocks st') /\
  arena_kept dict_kept (dicts st) (dicts st').

(** The valuation of the original variables that reads the value of each
    disaggregated variable from its copy. *)
Definition at_copies (rho : vid -> Q) (m : gmap vid vid) : vid -> Q :=
  fun v => match m !! v with Some dv => rho dv | None => rho v end.

(** The valuation that puts each disaggregated variable at 0. *)
Definition at_zero (rho : vid -> Q) (m : gmap vid vid) : vid -> Q :=
  fun v => match m !! v with Some _ => 0%Q | None => rho v end.

(** An expression that can be evaluated under a valuation: no divisor is
    zero (where Python raises [ZeroDivisionError]). *)
Fixpoint defined (rho : vid -> Q) (e : expr) : Prop :=
  match e with
  | Const _ | Var _ => True
  | Add a b | Sub a b | Mul a b => defined rho a /\ defined rho b
  | Div a b => defined rho a /\ defined rho b /\ ~ (eval rho b == 0)%Q
  | Pow a _ => defined rho a
  end.

(** A relation both sides of which can be evaluated. *)
Definition defined_relation (rho : vid -> Q) (r : relation) : Prop :=
  match r with
  | Le a b | Ge a b | Eq a b => defined rho a /\ defined rho b
  | Ranged _ e _ => defined rho e
  end.

(** The exclusivity constraint that the dict of the parent block of the
    disjunction [c] records for it, if any. *)
Definition recorded_xor (st : state) (c : cid) : option cid :=
  x ← disjunctions st !! c;
  p ← blocks st !! dc_parent_block x;
  match gdp_transformation_info p with
  | IsDict d =>
      dd ← dicts st !! d;
      mo ← disjunction_or_constraint dd;
      mo !! c
  | _ => None
  end.

(** A step that writes to the arena of constraints only. *)
Definition constraints_only (st st' : state) : Prop :=
  vars st' = vars st /\ disjunctions st' = disjunctions st /\
  blockcomps st' = blockcomps st /\ blocks st' = blocks st /\ dicts st' = dicts st.

(** A block keeps its dict attribute and stays inactive once it is. *)
Definition info_kept (x x' : BlockData) : Prop :=
  gdp_transformation_info x' = gdp_transformation_info x /\
  (blk_active x = false -> blk_active x' = false).

(** A dict keeps the entries that link a disjunct with its relaxation
    block and a variable with its copy. *)
Definition entries_kept (x x' : InfoDict) : Prop :=
  relaxed x' = relaxed x /\ chull x' = chull x /\
  disaggregatedVars x' = disaggregatedVars x /\
  bigmConstraints x' = bigmConstraints x /\
  src x' = src x /\ srcVars x' = srcVars x /\
  boundConstraintToSrcVar x' = boundConstraintToSrcVar x.

(** A step that keeps these links. *)
Definition links_kept (st st' : state) : Prop :=
  arena_kept info_kept (blocks st) (blocks st') /\
  arena_kept entries_kept (dicts st) (dicts st').

(** A dict keeps the relaxation block it names under [chull]. *)
Definition chull_kept (st st' : state) : Prop :=
  arena_kept (fun x x' => chull x' = chull x) (dicts st) (dicts st').

(** The block [parent] has the dict [infodict], in which the maps from
    a disjunction to its exclusivity constraint and to its disaggregation
    constraint are [mo] and [md]. *)
Definition disjunction_maps (parent : bid) (infodict : did) (mo md : gmap cid cid)
    (st : state) : Prop :=
  exists p dd,
    blocks st !! parent = Some p /\ gdp_transformation_info p = IsDict infodict /\
    dicts st !! infodict = Some dd /\
    disjunction_or_constraint dd = Some mo /\
    disjunction_disaggregation_constraints dd = Some md.

(** A target that is neither a block, a disjunct nor a disjunction. *)
Definition other_kind (t : target) : bool :=
  match t with
  | TComponent (RConstraint _) | TComponent (RVar _) | TComponent (ROther _ _)
  | TConstraintData _ _ => true
  | _ => false
  end.

(** The links between a disjunct [obj] and its relaxation block [rb],
    through the dict [infodict] of the one and the dict [rinfo] of the
    other: [chull] and [src] point at each other, [srcVars] inverts
    [disaggregatedVars] and [boundConstraintToSrcVar] inverts
    [bigmConstraints], and the variables of [done] have their copy and
    their bound constraint. *)
Definition linked (obj rb : bid) (infodict rinfo : did) (done : list vid)
    (st : state) : Prop :=
  exists r dd rr m1 m2 m3 m4,
    blocks st !! rb = Some r /\ gdp_transformation_info r = IsDict rinfo /\
    dicts st !! infodict = Some dd /\ chull dd = Some rb /\
    disaggregatedVars dd = Some m1 /\ bigmConstraints dd = Some m2 /\
    dicts st !! rinfo = Some rr /\ src rr = Some obj /\
    srcVars rr = Some m3 /\ boundConstraintToSrcVar rr = Some m4 /\
    (forall v dv, m1 !! v = Some dv -> m3 !! dv = Some v) /\
    (forall v bc, m2 !! v = Some bc -> m4 !! bc = Some v) /\
    (forall v, In v done -> is_Some (m1 !! v) /\ is_Some (m2 !! v)).

(** The copies and the bound constraints recorded so far are objects of
    the model: what is created next is none of them. *)
Definition recorded_exist (infodict : did) (st : state) : Prop :=
  forall dd, dicts st !! infodict = Some dd ->
    (forall m1 v dv, disaggregatedVars dd = Some m1 -> m1 !! v = Some dv ->
       (dv < length (vars st))%nat) /\
    (forall m2 v bc, bigmConstraints dd = Some m2 -> m2 !! v = Some bc ->
       (bc < length (constraints st))%nat).

(** ** An instance of the host's expression services *)

Module Pyomo.

(** Modelled from the spec: the polynomial degree of an expression, with
    fixed variables counted as constants; a quotient is polynomial only
    when its denominator is constant. *)
Fixpoint degree (vs : list VarData) (e : expr) : option nat :=
  match e with
  | Const _ => Some 0%nat
  | Var v => match vs !! v with
             | Some d => if var_fixed d then Some 0%nat else Some 1%nat
             | None => Some 1%nat
             end
  | Add a b | Sub a b =>
      match degree vs a, degree vs b with
      | Some m, Some n => Some (Nat.max m n)
      | _, _ => None
      end
  | Mul a b =>
      match degree vs a, degree vs b with
      | Some m, Some n => Some (m + n)%nat
      | _, _ => None
      end
  | Div a b =>
      match degree vs a, degree vs b with
      | Some m, Some 0%nat => Some m
      | _, _ => None
      end
  | Pow a n =>
      match degree vs a with
      | Some m => Some (m * n)%nat
      | None => None
      end
  end.

Definition constant (e : expr) : bool :=
  match leaves e with [] => true | _ => false end.

Definition value (e : expr) : Q := eval (fun _ => 0%Q) e.

(** Modelled from the spec: a constraint is a body with an optional
    lower and an optional upper bound; a comparison with a constant side
    bounds the other side, and a comparison of two variable sides bounds
    their difference by zero. *)
Definition bounds (r : relation) : option Q * expr * option Q :=
  match r with
  | Ranged lo e up => (lo, e, up)
  | Le a b =>
      if constant b then (None, a, Some (value b))
      else if constant a then (Some (value a), b, None)
      else (None, Sub a b, Some 0%Q)
  | Ge a b =>
      if constant a then (None, b, Some (value a))
      else if constant b then (Some (value b), a, None)
      else (None, Sub b a, Some 0%Q)
  | Eq a b =>
      if constant b then (Some (value b), a, Some (value b))
      else if constant a then (Some (value a), b, Some (value a))
      else (Some 0%Q, Sub a b, Some 0%Q)
  end.

(** Modelled from the spec: the disjuncts are reclassified as blocks
    once the whole instance was transformed. *)
Definition reclassify (instance : bid) : M unit :=
  modify (fun st =>
    set_blocks
      (map (fun x =>
              with_decls
                (map (fun r => match r with RDisjunct c => RBlock c | _ => r end)
                   (blk_decls x)) x)
         (blocks st)) st).

Definition host : ExprHost :=
  {| polynomial_degree := degree;
     body := fun r => (bounds r).1.2;
     lower := fun r => (bounds r).1.1;
     upper := fun r => (bounds r).2;
     HACK_GDP_Disjunct_Reclassifier := reclassify |}.

End Pyomo.

(** ** A small disjunctive model

    One variable [x] in [0, 10] and the disjunction of [2x + 3 >= 5] and
    [x^2 <= 4]. *)

Module Example.

Definition x : vid := 0%nat.
Definition y1 : vid := 1%nat.
Definition y2 : vid := 2%nat.

Definition c1 : relation :=
  Ge (Add (Mul (Const 2) (Var x)) (Const 3)) (Const 5).
Definition c2 : relation :=
  Le (Pow (Var x) 2) (Const 4).

Definition model : state :=
  {| vars := [ mkVar (Some 0%Q) (Some 10%Q) false None;
               mkVar (Some 0%Q) (Some 1%Q) false None;
               mkVar (Some 0%Q) (Some 1%Q) false None ];
     constraints := [ SimpleConstraint true (Some c1);
                      SimpleConstraint true (Some c2) ];
     disjunctions := [ mkDisjunctionComp 0%nat
                         (SimpleDisjunction (mkDisjunction true true [1%nat; 2%nat])) ];
     blockcomps := [ SimpleBlock 0%nat; SimpleBlock 1%nat; SimpleBlock 2%nat ];
     blocks := [ mkBlock true (RBlock 0%nat)
                   [RVar x; RDisjunct 1%nat; RDisjunct 2%nat; RDisjunction 0%nat]
                   None NoAttr [];
                 mkBlock true (RDisjunct 1%nat) [RVar y1; RConstraint 0%nat]
                   (Some y1) NoAttr [];
                 mkBlock true (RDisjunct 2%nat) [RVar y2; RConstraint 1%nat]
                   (Some y2) NoAttr [] ];
     dicts := [] |}.

Definition instance : bid := 0%nat.

(** The disjunction as the only target. *)
Definition targets : option (list target) := Some [TComponent (RDisjunction 0%nat)].

(** The model while the first constraint is rewritten: the new constraint
    component is there and still empty. *)
Definition rewriting : state :=
  set_constraints (constraints model ++ [IndexedConstraint true []]) model.

(** The same model with [x <= 1] for the second disjunct: no constraint
    is nonlinear. *)
Definition linear_model : state :=
  set_constraints [ SimpleConstraint true (Some c1);
                    SimpleConstraint true (Some (Le (Var x) (Const 1))) ] model.

(** The same model with the first constraint on a block nested in the
    first disjunct. *)
Definition nested_model : state :=
  {| vars := vars model;
     constraints := constraints model;
     disjunctions := disjunctions model;
     blockcomps := blockcomps model ++ [SimpleBlock 3%nat];
     blocks := [ mkBlock true (RBlock 0%nat)
                   [RVar x; RDisjunct 1%nat; RDisjunct 2%nat; RDisjunction 0%nat]
                   None NoAttr [];
                 mkBlock true (RDisjunct 1%nat) [RVar y1; RBlock 3%nat]
                   (Some y1) NoAttr [];
                 mkBlock true (RDisjunct 2%nat) [RVar y2; RConstraint 1%nat]
                   (Some y2) NoAttr [];
                 mkBlock true (RBlock 3%nat) [RConstraint 0%nat] None NoAttr [] ];
     dicts := [] |}.

(** The same model with an objective declared on the first disjunct. *)
Definition unsupported_model : state :=
  set_blocks
    (<[1%nat := mkBlock true (RDisjunct 1%nat)
                  [RVar y1; ROther Objective (Some true); RConstraint 0%nat]
                  (Some y1) NoAttr []]> (blocks model)) model.

(** The model once [_apply_to] has made its transformation block. *)
Definition prepared : state := (make_transBlock instance model).2.

Definition transBlock : TransBlock := mkTransBlock 3 4.

(** The prepared model in which another transformation has relaxed the
    first disjunct: the disjunct and its constraint are inactive and its
    dict has [relaxed] set and no [chull] entry. *)
Definition relaxed_elsewhere : state :=
  {| vars := vars prepared;
     constraints := [ SimpleConstraint false (Some c1);
                      SimpleConstraint true (Some c2) ];
     disjunctions := disjunctions prepared;
     blockcomps := blockcomps prepared;
     blocks := <[1%nat := mkBlock false (RDisjunct 1%nat) [RVar y1; RConstraint 0%nat]
                            (Some y1) (IsDict 0%nat) []]> (blocks prepared);
     dicts := [with_relaxed (Some true) empty_dict] |}.

(** The prepared model with a variable [z] without an upper bound added to
    the variables. *)
Definition z : vid := 3%nat.

(** The model while the first disjunct is relaxed: the copy of [x]
    (variable 3), the relaxation block (block 3) and the dicts of the
    disjunct and of the relaxation block are there. *)
Definition relaxing : state :=
  {| vars := vars model ++ [mkVar None None false None];
     constraints := constraints model;
     disjunctions := disjunctions model;
     blockcomps := blockcomps model;
     blocks := blocks model ++ [mkBlock true (RBlock 3%nat) [] None (IsDict 1%nat) []];
     dicts := [ with_disaggregatedVars (Some {[x := 3%nat]}) empty_dict;
                mkInfo None None None None None None None
                  (Some 1%nat) (Some ∅) (Some ∅) None ] |}.

(** The prepared model in which the user has deactivated the first
    disjunct. *)
Definition deactivated_model : state :=
  set_blocks
    (<[1%nat := mkBlock false (RDisjunct 1%nat) [RVar y1; RConstraint 0%nat]
                  (Some y1) NoAttr []]> (blocks prepared)) prepared.

(** The prepared model in which the first disjunct has an attribute
    [_gdp_transformation_info] that is not a dict. *)
Definition conflicting_model : state :=
  set_blocks
    (<[1%nat := mkBlock true (RDisjunct 1%nat) [RVar y1; RConstraint 0%nat]
                  (Some y1) NotADict []]> (blocks prepared)) prepared.

End Example.

(** ** Properties *)

(** *** Keys and dicts *)

Lemma key_eqb_refl : forall k : key, key_eqb k k = true.
Proof.
  fix IH 1. intros [ | z | s | l]; simpl.
  - reflexivity.
  - apply Z.eqb_refl.
  - apply String.eqb_refl.
  - induction l as [ | x l IHl]; [reflexivity | ].
    rewrite (IH x). exact IHl.
Qed.

Lemma key_eqb_eq : forall a b : key, key_eqb a b = true -> a = b.
Proof.
  fix IH 1. intros [ | z | s | l] [ | z' | s' | l']; simpl; try discriminate.
  - reflexivity.
  - intros E. apply Z.eqb_eq in E. congruence.
  - intros E. apply String.eqb_eq in E. congruence.
  - intros E. f_equal. revert l' E.
    induction l as [ | x l IHl]; intros [ | y l'] E; try discriminate.
    + reflexivity.
    + apply andb_prop in E as [E1 E2].
      f_equal; [exact (IH _ _ E1) | exact (IHl _ E2)].
Qed.

Lemma key_eqb_neq (a b : key) : a <> b -> key_eqb a b = false.
Proof.
  intros N. destruct (key_eqb a b) eqn:E; [ | reflexivity].
  elim N. exact (key_eqb_eq _ _ E).
Qed.

Lemma kget_kset_eq {A} (k : key) (x : A) (d : kdict A) :
  kget k (kset k x d) = Some x.
Proof.
  induction d as [ | [k' y] d IH]; simpl.
  - rewrite key_eqb_refl. reflexivity.
  - destruct (key_eqb k k') eqn:E; simpl.
    + rewrite key_eqb_refl. reflexivity.
    + rewrite E. exact IH.
Qed.

Lemma kget_kset_ne {A} (k k' : key) (x : A) (d : kdict A) :
  k <> k' -> kget k (kset k' x d) = kget k d.
Proof.
  intros N. induction d as [ | [k2 y] d IH]; simpl.
  - rewrite (key_eqb_neq _ _ N). reflexivity.
  - destruct (key_eqb k' k2) eqn:E; simpl.
    + apply key_eqb_eq in E. subst k2.
      rewrite (key_eqb_neq _ _ N). reflexivity.
    + destruct (key_eqb k k2); [reflexivity | exact IH].
Qed.

(** *** Running a computation *)

Lemma bind_ok {A B} (m : M A) (f : A -> M B) st a st' :
  m st = (Ok a, st') -> bind m f st = f a st'.
Proof. intros E. unfold bind. rewrite E. reflexivity. Qed.

Lemma bind_err {A B} (m : M A) (f : A -> M B) st e st' :
  m st = (Err e, st') -> bind m f st = (Err e, st').
Proof. intros E. unfold bind. rewrite E. reflexivity. Qed.

Lemma bind_inv {A B} (m : M A) (f : A -> M B) st b st' :
  bind m f st = (Ok b, st') ->
  exists a st1, m st = (Ok a, st1) /\ f a st1 = (Ok b, st').
Proof.
  unfold bind. destruct (m st) as [[a | e] st1]; [ | discriminate].
  intros E. exists a, st1. split; [reflexivity | exact E].
Qed.

Lemma mfor_app {A} (l1 l2 : list A) (body : A -> M unit) st st1 :
  mfor l1 body st = (Ok tt, st1) ->
  mfor (l1 ++ l2) body st = mfor l2 body st1.
Proof.
  revert st. induction l1 as [ | x l1 IH]; simpl; intros st E.
  - injection E as <-. reflexivity.
  - apply bind_inv in E as (u & st2 & E1 & E2).
    rewrite (bind_ok _ _ _ _ _ E1). exact (IH _ E2).
Qed.

Section Properties.

Context `{ExprHost}.

Lemma get_constraint_ok st c x :
  constraints st !! c = Some x -> get_constraint c st = (Ok x, st).
Proof. intros E. unfold get_constraint. rewrite E. reflexivity. Qed.

Lemma get_block_ok st b x :
  blocks st !! b = Some x -> get_block b st = (Ok x, st).
Proof. intros E. unfold get_block. rewrite E. reflexivity. Qed.

Lemma get_dict_ok st d x :
  dicts st !! d = Some x -> get_dict d st = (Ok x, st).
Proof. intros E. unfold get_dict. rewrite E. reflexivity. Qed.

Lemma get_indicator_var_ok st b x y :
  blocks st !! b = Some x -> indicator_var x = Some y ->
  get_indicator_var b st = (Ok y, st).
Proof.
  intros E Ey. unfold get_indicator_var.
  rewrite (bind_ok _ _ _ _ _ (get_block_ok _ _ _ E)). rewrite Ey. reflexivity.
Qed.

(** Adding to an indexed constraint component. *)
Lemma constraint_add_indexed st c a data k r :
  constraints st !! c = Some (IndexedConstraint a data) ->
  constraint_add c k r st =
    (Ok tt, set_constraints
              (<[c := IndexedConstraint a (kset k (mkCon true r) data)]> (constraints st)) st).
Proof.
  intros E. unfold constraint_add.
  rewrite (bind_ok _ _ _ _ _ (get_constraint_ok _ _ _ E)). reflexivity.
Qed.

Lemma emitted_set_ne st cs c c' x k :
  c <> c' ->
  emitted (set_constraints (<[c' := x]> cs) st) c k =
  emitted (set_constraints cs st) c k.
Proof.
  intros N. unfold emitted. simpl.
  rewrite list_lookup_insert_ne by congruence. reflexivity.
Qed.

Lemma side_key_lb_ub indexed i : side_key indexed i lb <> side_key indexed i ub.
Proof. unfold side_key, lb, ub. destruct indexed; congruence. Qed.

Ltac unfold_run :=
  cbv beta iota delta [bind ret raise gets modify put_constraint get_constraint
    from_option get_indicator_var get_block set_constraints];
  cbn [vars constraints disjunctions blockcomps blocks dicts].

Ltac xform_start Hx Hc Ha Hbd Hy :=
  unfold xform_constraint_index; unfold_run;
  rewrite Hx; simpl; rewrite Hc; simpl; rewrite Ha; simpl;
  rewrite Hbd; simpl; rewrite Hy; simpl.

Lemma constraint_add_side (indexed : bool) c i side r :
  (if indexed then constraint_add c (KTuple [i; side]) r
   else constraint_add c side r) = constraint_add c (side_key indexed i side) r.
Proof. destruct indexed; reflexivity. Qed.

(** Optionally adding the lower side, then the upper side, to a new
    constraint component. *)
Lemma add_sides (st : state) (c : cid) a data (k1 k2 : key) (lo up : option relation) :
  constraints st !! c = Some (IndexedConstraint a data) ->
  k1 <> k2 ->
  exists st',
    (match lo with Some r => constraint_add c k1 r | None => ret tt end ;;
     match up with Some r => constraint_add c k2 r | None => ret tt end) st
    = (Ok tt, st') /\
    emitted st' c k1 = match lo with Some r => Some r | None => emitted st c k1 end /\
    emitted st' c k2 = match up with Some r => Some r | None => emitted st c k2 end.
Proof.
  intros Hc Hk.
  assert (Hlt : (c < length (constraints st))%nat) by (eapply lookup_lt_Some; eauto).
  destruct lo as [r1 | ], up as [r2 | ]; simpl.
  - rewrite (bind_ok _ _ _ _ _ (constraint_add_indexed _ _ _ _ _ _ Hc)).
    rewrite (constraint_add_indexed _ _ a (kset k1 (mkCon true r1) data)).
    2:{ simpl. rewrite list_lookup_insert_eq; [reflexivity | exact Hlt]. }
    eexists. split; [reflexivity | ].
    unfold emitted. simpl.
    rewrite list_lookup_insert_eq by (rewrite length_insert; exact Hlt).
    simpl. rewrite kget_kset_ne by exact Hk. rewrite !kget_kset_eq. split; reflexivity.
  - rewrite (bind_ok _ _ _ _ _ (constraint_add_indexed _ _ _ _ _ _ Hc)).
    eexists. split; [reflexivity | ].
    unfold emitted. simpl. rewrite Hc.
    rewrite list_lookup_insert_eq by exact Hlt.
    simpl. rewrite kget_kset_eq. rewrite kget_kset_ne by congruence. split; reflexivity.
  - unfold ret at 1. unfold bind.
    rewrite (constraint_add_indexed _ _ _ _ _ _ Hc).
    eexists. split; [reflexivity | ].
    unfold emitted. simpl. rewrite Hc.
    rewrite list_lookup_insert_eq by exact Hlt.
    simpl. rewrite kget_kset_eq. rewrite kget_kset_ne by exact Hk. split; reflexivity.
  - eexists. split; [reflexivity | ]. split; reflexivity.
Qed.


(** The rewritten body of the numerically robust formulation. *)


(** C9 (as amended). The formulation mode is looked at only when an
    active constraint with a nonlinear body is rewritten: with a mode
    that is none of the three known ones that rewrite raises
    [UnknownFormulationMode], the original constraint being deactivated
    already; a constraint of degree 0 or 1 is rewritten in the same way
    whatever the mode is. *)
Theorem unknown_mode_rejected_when_nonlinear
    (mode : Z) (obj newConstraint : cid) (indexed : bool) (disjunct : bid)
    (vsub zsub : gmap vid expr) (i : key) (st : state)
    (x : ConstraintComp) (c : ConstraintData) (bd : BlockData) (y : vid) :
  constraints st !! obj = Some x ->
  constraint_getitem x i = Some c ->
  con_active c = true ->
  blocks st !! disjunct = Some bd ->
  indicator_var bd = Some y ->
  mode <> NL_Mode_LeeGrossmann ->
  mode <> NL_Mode_GrossmannLee ->
  mode <> NL_Mode_FurmanSawayaGrossmann ->
  (not_in_0_1 (polynomial_degree (vars st) (body (con_expr c))) = true ->
   xform_constraint_index mode obj indexed newConstraint disjunct vsub zsub i st =
   (Err UnknownFormulationMode,
    set_constraints (<[obj := constraint_deactivate_data x i]> (constraints st)) st)) /\
  (not_in_0_1 (polynomial_degree (vars st) (body (con_expr c))) = false ->
   xform_constraint_index mode obj indexed newConstraint disjunct vsub zsub i st =
   xform_constraint_index NL_Mode_FurmanSawayaGrossmann obj indexed newConstraint
     disjunct vsub zsub i st).
Proof.
  intros Hx Hc Ha Hbd Hy H1 H2 H3. split; intros HNL.
  - xform_start Hx Hc Ha Hbd Hy. rewrite HNL. simpl.
    apply Z.eqb_neq in H1, H2, H3. rewrite H1, H2, H3. reflexivity.
  - xform_start Hx Hc Ha Hbd Hy. rewrite HNL. simpl. reflexivity.
Qed.

(** A loop stops at the first iteration that raises. *)
Lemma mfor_raises {A} (l : list A) (body : A -> M unit) (x : A) :
  In x l ->
  (forall st, exists e, body x st = (Err e, st)) ->
  forall st, exists e st', mfor l body st = (Err e, st').
Proof.
  intros Hin Hx. induction l as [ | z l IH]; [destruct Hin | ].
  intros st. simpl. unfold bind.
  destruct (body z st) as [[u | e] st1] eqn:E.
  - destruct Hin as [-> | Hin].
    + destruct (Hx st) as (e & He). congruence.
    + exact (IH Hin st1).
  - exists e, st1. reflexivity.
Qed.

(** C6. Inside a disjunct, an active entity whose kind has no registered
    handler makes the traversal fail: with [UnsupportedEntityKind] when it
    is reached, and with some error in any case; entities of the kinds
    Var, Connector, Param, Set and Suffix are skipped without error. *)
Theorem unregistered_kind_fails
    (mode : Z) (block disjunct relaxedBlock : bid) (infodict : did)
    (vsub zsub : gmap vid expr) (st : state) (b : BlockData) :
  blocks st !! block = Some b ->
  (forall pre obj post st1 a,
      blk_decls b = pre ++ obj :: post ->
      mfor pre (transform_component mode disjunct relaxedBlock infodict vsub zsub) st
        = (Ok tt, st1) ->
      active obj st1 = (Ok a, st1) ->
      is_inactive a = false ->
      handlers (type obj) = None ->
      transform_block_components mode block disjunct relaxedBlock infodict vsub zsub st
        = (Err (UnsupportedEntityKind (type obj)), st1)) /\
  (forall t a,
      handlers t = None ->
      is_inactive a = false ->
      In (ROther t a) (blk_decls b) ->
      exists e st',
        transform_block_components mode block disjunct relaxedBlock infodict vsub zsub st
          = (Err e, st')) /\
  (forall obj a st1,
      In (type obj) [Var_; Connector; Param; Set_; Suffix] ->
      active obj st1 = (Ok a, st1) ->
      transform_component mode disjunct relaxedBlock infodict vsub zsub obj st1
        = (Ok tt, st1)).
Proof.
  intros Hb. split; [ | split].
  - intros pre obj post st1 a Hd Hpre Ha Hi Hh.
    unfold transform_block_components.
    rewrite (bind_ok _ _ _ _ _ (get_block_ok _ _ _ Hb)).
    rewrite Hd. rewrite (mfor_app _ _ _ _ _ Hpre). simpl.
    unfold transform_component at 1.
    unfold bind at 1. unfold bind at 1. rewrite Ha. rewrite Hi, Hh. reflexivity.
  - intros t a Hh Hi Hin.
    unfold transform_block_components.
    rewrite (bind_ok _ _ _ _ _ (get_block_ok _ _ _ Hb)).
    apply (mfor_raises _ _ (ROther t a) Hin).
    intros st0. exists (UnsupportedEntityKind t).
    unfold transform_component, bind. simpl. rewrite Hi, Hh. reflexivity.
  - intros obj a st1 Hty Ha.
    unfold transform_component. unfold bind. rewrite Ha.
    destruct (is_inactive a); [reflexivity | ].
    simpl in Hty.
    destruct Hty as [<- | [<- | [<- | [<- | [<- | []]]]]]; reflexivity.
Qed.

(** C10. A target that resolves against the model and is inactive is
    skipped: no error, the model is unchanged and the targets after it are
    processed; a target that does not resolve raises [TargetNotFound]. *)
Theorem inactive_target_skipped
    (fuel : nat) (mode : Z) (transBlock : TransBlock) (t : target) (st : state) :
  (resolves st t = true ->
   target_active t st = (Ok false, st) ->
   apply_to_target fuel mode transBlock t st = (Ok tt, st) /\
   forall pre post st0,
     mfor pre (apply_to_target fuel mode transBlock) st0 = (Ok tt, st) ->
     mfor (pre ++ t :: post) (apply_to_target fuel mode transBlock) st0 =
     mfor post (apply_to_target fuel mode transBlock) st) /\
  (resolves st t = false ->
   apply_to_target fuel mode transBlock t st = (Err TargetNotFound, st)).
Proof.
  split.
  - intros Hr Ha.
    assert (Hskip : apply_to_target fuel mode transBlock t st = (Ok tt, st)).
    { unfold apply_to_target, find_component. unfold bind at 1. rewrite Hr.
      unfold bind. rewrite Ha. reflexivity. }
    split; [exact Hskip | ].
    intros pre post st0 Hpre.
    rewrite (mfor_app _ _ _ _ _ Hpre). simpl.
    rewrite (bind_ok _ _ _ _ _ Hskip). reflexivity.
  - intros Hr. unfold apply_to_target, find_component. unfold bind. rewrite Hr.
    reflexivity.
Qed.

(** *** Monotone steps *)

Lemma mono_refl st : mono st st.
Proof.
  repeat split; intros ? x Hx; exists x; auto.
Qed.

Lemma mono_trans st1 st2 st3 : mono st1 st2 -> mono st2 st3 -> mono st1 st3.
Proof.
  intros (A1 & A2 & A3 & A4 & A5) (B1 & B2 & B3 & B4 & B5). repeat split.
  - intros b x Hx. destruct (A1 _ _ Hx) as (x' & Hx' & E).
    destruct (B1 _ _ Hx') as (x'' & Hx'' & E'). exists x''. split; [exact Hx'' | congruence].
  - intros c x Hx. destruct (A2 _ _ Hx) as (x' & Hx' & E).
    destruct (B2 _ _ Hx') as (x'' & Hx'' & E'). exists x''. split; [exact Hx'' | auto].
  - intros c x Hx. destruct (A3 _ _ Hx) as (x' & Hx' & E).
    destruct (B3 _ _ Hx') as (x'' & Hx'' & E'). exists x''. split; [exact Hx'' | lia].
  - intros d x Hx. destruct (A4 _ _ Hx) as (x' & Hx').
    destruct (B4 _ _ Hx') as (x'' & Hx''). exists x''. exact Hx''.
  - intros v x Hx. destruct (A5 _ _ Hx) as (x' & Hx' & E1 & E2).
    destruct (B5 _ _ Hx') as (x'' & Hx'' & E1' & E2'). exists x''.
    split; [exact Hx'' | split; congruence].
Qed.

(** A step that leaves the five arenas alone. *)
Lemma mono_same st st' :
  blocks st' = blocks st -> disjunctions st' = disjunctions st ->
  blockcomps st' = blockcomps st -> dicts st' = dicts st ->
  vars st' = vars st ->
  mono st st'.
Proof.
  intros E1 E2 E3 E4 E5. unfold mono. rewrite E1, E2, E3, E4, E5. apply mono_refl.
Qed.

Lemma preserves_ret {A} (a : A) : preserves (ret a).
Proof. intros st. apply mono_refl. Qed.

Lemma preserves_raise {A} (e : error) : preserves (raise (A := A) e).
Proof. intros st. apply mono_refl. Qed.

Lemma preserves_gets {A} (f : state -> A) : preserves (gets f).
Proof. intros st. apply mono_refl. Qed.

Lemma preserves_from_option {A} e (o : option A) : preserves (from_option e o).
Proof. destruct o; [apply preserves_ret | apply preserves_raise]. Qed.

Lemma preserves_bind {A B} (m : M A) (f : A -> M B) :
  preserves m -> (forall a, preserves (f a)) -> preserves (bind m f).
Proof.
  intros Hm Hf st. unfold bind. specialize (Hm st).
  destruct (m st) as [[a | e] st1]; simpl in *.
  - eapply mono_trans; [exact Hm | apply Hf].
  - exact Hm.
Qed.

Lemma preserves_mfor {A} (l : list A) (body : A -> M unit) :
  (forall x, preserves (body x)) -> preserves (mfor l body).
Proof.
  intros Hb. induction l as [ | x l IH]; simpl.
  - apply preserves_ret.
  - apply preserves_bind; [apply Hb | intros _; exact IH].
Qed.

Lemma preserves_mfold {A B} (l : list A) (acc : B) (body : B -> A -> M B) :
  (forall acc x, preserves (body acc x)) -> preserves (mfold l acc body).
Proof.
  intros Hb. revert acc. induction l as [ | x l IH]; simpl; intros acc.
  - apply preserves_ret.
  - apply preserves_bind; [apply Hb | intros acc'; apply IH].
Qed.

Lemma preserves_get_var v : preserves (get_var v).
Proof. intros st. unfold get_var. apply preserves_from_option. Qed.

Lemma preserves_get_constraint c : preserves (get_constraint c).
Proof. intros st. unfold get_constraint. apply preserves_from_option. Qed.

Lemma preserves_get_dict d : preserves (get_dict d).
Proof. intros st. unfold get_dict. apply preserves_from_option. Qed.

Lemma preserves_get_block b : preserves (get_block b).
Proof. intros st. unfold get_block. apply preserves_from_option. Qed.

Lemma preserves_get_blockcomp c : preserves (get_blockcomp c).
Proof. intros st. unfold get_blockcomp. apply preserves_from_option. Qed.

Lemma preserves_get_disjunction c : preserves (get_disjunction c).
Proof. intros st. unfold get_disjunction. apply preserves_from_option. Qed.

Lemma preserves_new_var : preserves new_var.
Proof.
  intros st. simpl. repeat split; simpl; intros ? y Hy; exists y;
    first [ exact Hy | split; [exact Hy | auto]
          | split; [apply lookup_app_l_Some; exact Hy | auto] ].
Qed.

Lemma preserves_put_constraint c x : preserves (put_constraint c x).
Proof. intros st. apply mono_same; reflexivity. Qed.

Lemma preserves_new_constraint x : preserves (new_constraint x).
Proof. intros st. apply mono_same; reflexivity. Qed.

Lemma preserves_fix_var v q : preserves (fix_var v q).
Proof.
  intros st. unfold fix_var, bind, get_var.
  destruct (vars st !! v) as [x0 | ] eqn:E0; simpl; [ | apply mono_refl].
  repeat split; simpl; intros j y Hy;
    try (exists y; first [exact Hy | split; [exact Hy | ]; auto]; fail).
  destruct (decide (j = v)) as [-> | N].
  - eexists. split; [apply list_lookup_insert_eq; eapply lookup_lt_Some; eauto | ].
    simpl. replace y with x0 by congruence. split; reflexivity.
  - exists y. split; [ | split; reflexivity].
    rewrite list_lookup_insert_ne by congruence. exact Hy.
Qed.

Lemma preserves_constraint_add c k r : preserves (constraint_add c k r).
Proof.
  apply preserves_bind; [apply preserves_get_constraint | ].
  intros [a e | a data].
  - destruct k; first [apply preserves_put_constraint | apply preserves_raise].
  - apply preserves_put_constraint.
Qed.

(** Appending to an arena and updating one of its objects. *)
Lemma lookup_app_Some {A} (l : list A) (y : A) i x :
  l !! i = Some x -> (l ++ [y]) !! i = Some x.
Proof. intros E. rewrite lookup_app_l; [exact E | eapply lookup_lt_Some; eauto]. Qed.

Lemma lookup_insert_Some_cases {A} (l : list A) (i j : nat) (y x : A) :
  l !! j = Some x ->
  (j = i /\ <[i := y]> l !! j = Some y) \/ (j <> i /\ <[i := y]> l !! j = Some x).
Proof.
  intros E. destruct (decide (j = i)) as [-> | N].
  - left. split; [reflexivity | ].
    apply list_lookup_insert_eq. eapply lookup_lt_Some; eauto.
  - right. split; [exact N | ]. rewrite list_lookup_insert_ne by congruence. exact E.
Qed.

Lemma preserves_new_dict x : preserves (new_dict x).
Proof.
  intros st. simpl. repeat split; simpl; intros ? y Hy; exists y;
    first [ exact Hy | apply lookup_app_Some; exact Hy
          | split; [exact Hy | auto]
          | split; [apply lookup_app_Some; exact Hy | auto] ].
Qed.

Lemma preserves_new_block x : preserves (new_block x).
Proof.
  intros st. simpl. repeat split; simpl; intros ? y Hy; exists y;
    first [ exact Hy | apply lookup_app_Some; exact Hy
          | split; [exact Hy | auto]
          | split; [apply lookup_app_Some; exact Hy | auto] ].
Qed.

Lemma preserves_new_blockcomp x : preserves (new_blockcomp x).
Proof.
  intros st. simpl. repeat split; simpl; intros ? y Hy; exists y;
    first [ exact Hy | apply lookup_app_Some; exact Hy
          | split; [exact Hy | auto]
          | split; [apply lookup_app_Some; exact Hy | auto] ].
Qed.

Lemma preserves_update_block b (f : BlockData -> BlockData) :
  (forall x, indicator_var (f x) = indicator_var x) ->
  preserves (update_block b f).
Proof.
  intros Hf st. unfold update_block, bind, get_block.
  destruct (blocks st !! b) as [x0 | ] eqn:E0; simpl; [ | apply mono_refl].
  repeat split; simpl; intros j y Hy;
    try (exists y; first [exact Hy | split; [exact Hy | ]; auto]; fail).
  destruct (lookup_insert_Some_cases (blocks st) b j (f x0) y Hy) as [[-> E] | [N E]].
  - exists (f x0). split; [exact E | ]. rewrite Hf. congruence.
  - exists y. split; [exact E | reflexivity].
Qed.

Lemma preserves_add_component b r : preserves (add_component b r).
Proof. apply preserves_update_block. reflexivity. Qed.

Lemma preserves_update_dict d (f : InfoDict -> InfoDict) :
  preserves (update_dict d f).
Proof.
  intros st. unfold update_dict, bind, get_dict.
  destruct (dicts st !! d) as [x0 | ] eqn:E0; simpl; [ | apply mono_refl].
  repeat split; simpl; intros j y Hy;
    try (exists y; split; [exact Hy | ]; auto; fail).
  destruct (lookup_insert_Some_cases (dicts st) d j (f x0) y Hy) as [[-> E] | [N E]];
    eauto.
Qed.

Lemma preserves_get_indicator_var b : preserves (get_indicator_var b).
Proof.
  apply preserves_bind; [apply preserves_get_block | ].
  intros x. apply preserves_from_option.
Qed.

Lemma preserves_active r : preserves (active r).
Proof.
  destruct r as [c | c | c | c | v | t a]; simpl.
  - apply preserves_bind; [apply preserves_get_constraint | intros; apply preserves_ret].
  - apply preserves_bind; [apply preserves_get_disjunction | intros; apply preserves_ret].
  - apply preserves_bind; [apply preserves_get_blockcomp | ].
    intros [self | a data]; [ | apply preserves_ret].
    apply preserves_bind; [apply preserves_get_block | intros; apply preserves_ret].
  - apply preserves_bind; [apply preserves_get_blockcomp | ].
    intros [self | a data]; [ | apply preserves_ret].
    apply preserves_bind; [apply preserves_get_block | intros; apply preserves_ret].
  - apply preserves_bind; [apply preserves_get_var | intros; apply preserves_ret].
  - apply preserves_ret.
Qed.

Lemma preserves_is_indexed r : preserves (is_indexed r).
Proof.
  destruct r as [c | c | c | c | v | t a]; simpl;
    first [ apply preserves_ret
          | apply preserves_bind;
            [ first [apply preserves_get_constraint | apply preserves_get_disjunction
                    | apply preserves_get_blockcomp]
            | intros; apply preserves_ret ] ].
Qed.

(** Deactivating a disjunction. *)
Lemma preserves_put_disjunction_inactive c (f : DisjunctionComp -> DisjunctionComp) :
  (forall x, disjunction_active (f x) = false) ->
  preserves (x <- get_disjunction c ;; put_disjunction c (f x)).
Proof.
  intros Hf st. unfold bind, get_disjunction.
  destruct (disjunctions st !! c) as [x0 | ] eqn:E0; simpl; [ | apply mono_refl].
  repeat split; simpl; intros j y Hy;
    try (exists y; first [exact Hy | split; [exact Hy | ]; auto]; fail).
  destruct (lookup_insert_Some_cases (disjunctions st) c j (f x0) y Hy) as [[-> E] | [N E]].
  - exists (f x0). split; [exact E | ]. intros _. apply Hf.
  - exists y. split; [exact E | auto].
Qed.

(** Replacing an indexed block by one with the same members. *)
Lemma preserves_put_blockcomp_same c (f : BlockComp -> BlockComp) :
  (forall x, (length (blockcomp_data x) <= length (blockcomp_data (f x)))%nat) ->
  preserves (x <- get_blockcomp c ;; put_blockcomp c (f x)).
Proof.
  intros Hf st. unfold bind, get_blockcomp.
  destruct (blockcomps st !! c) as [x0 | ] eqn:E0; simpl; [ | apply mono_refl].
  repeat split; simpl; intros j y Hy;
    try (exists y; first [exact Hy | split; [exact Hy | ]; auto]; fail).
  destruct (lookup_insert_Some_cases (blockcomps st) c j (f x0) y Hy) as [[-> E] | [N E]].
  - exists (f x0). split; [exact E | ]. replace y with x0 by congruence. apply Hf.
  - exists y. split; [exact E | lia].
Qed.

Ltac pres_step :=
  first
    [ apply preserves_ret | apply preserves_raise | apply preserves_gets
    | apply preserves_from_option
    | apply preserves_get_var | apply preserves_get_constraint
    | apply preserves_get_dict | apply preserves_get_block
    | apply preserves_get_blockcomp | apply preserves_get_disjunction
    | apply preserves_new_var | apply preserves_put_constraint
    | apply preserves_new_constraint | apply preserves_fix_var
    | apply preserves_constraint_add | apply preserves_new_dict
    | apply preserves_new_block | apply preserves_new_blockcomp
    | apply preserves_add_component | apply preserves_update_dict
    | apply preserves_get_indicator_var | apply preserves_active
    | apply preserves_is_indexed
    | (apply preserves_update_block; reflexivity)
    | (apply preserves_bind; [ | intros ? ])
    | (apply preserves_mfor; intros ?)
    | (apply preserves_mfold; intros ? ?)
    | match goal with
      | |- preserves (match ?x with _ => _ end) => destruct x
      | |- preserves (if ?x then _ else _) => destruct x
      end ].

Ltac pres := repeat pres_step.

Lemma preserves_deactivate r : preserves (deactivate r).
Proof.
  destruct r as [c | c | c | c | v | t a]; simpl; try solve [pres].
  - apply (preserves_put_disjunction_inactive c
             (fun x => mkDisjunctionComp (dc_parent_block x)
                match dc_body x with
                | SimpleDisjunction d => SimpleDisjunction (deactivated d)
                | IndexedDisjunction _ data =>
                    IndexedDisjunction false (map (fun kd => (kd.1, deactivated kd.2)) data)
                end)).
    intros x. unfold disjunction_active. simpl. destruct (dc_body x); reflexivity.
  - intros st. unfold bind at 1. unfold get_blockcomp at 1.
    destruct (blockcomps st !! c) as [[self | a data] | ] eqn:E; simpl;
      [ | | apply mono_refl].
    + apply (preserves_update_block self (with_active false)). reflexivity.
    + eapply mono_trans.
      * pose proof (preserves_put_blockcomp_same c
                      (fun x => match x with
                                | SimpleBlock s => SimpleBlock s
                                | IndexedBlock _ d => IndexedBlock false d
                                end)) as P.
        assert (Hlen : forall x, (length (blockcomp_data x) <=
                  length (blockcomp_data match x with
                                         | SimpleBlock s => SimpleBlock s
                                         | IndexedBlock _ d => IndexedBlock false d
                                         end))%nat) by (intros [? | ? ?]; simpl; lia).
        specialize (P Hlen st). unfold bind, get_blockcomp in P. rewrite E in P.
        simpl in P. exact P.
      * unfold bind. simpl. apply (preserves_mfor data). intros kb. pres.
  - intros st. unfold bind at 1. unfold get_blockcomp at 1.
    destruct (blockcomps st !! c) as [[self | a data] | ] eqn:E; simpl;
      [ | | apply mono_refl].
    + apply (preserves_update_block self (with_active false)). reflexivity.
    + eapply mono_trans.
      * pose proof (preserves_put_blockcomp_same c
                      (fun x => match x with
                                | SimpleBlock s => SimpleBlock s
                                | IndexedBlock _ d => IndexedBlock false d
                                end)) as P.
        assert (Hlen : forall x, (length (blockcomp_data x) <=
                  length (blockcomp_data match x with
                                         | SimpleBlock s => SimpleBlock s
                                         | IndexedBlock _ d => IndexedBlock false d
                                         end))%nat) by (intros [? | ? ?]; simpl; lia).
        specialize (P Hlen st). unfold bind, get_blockcomp in P. rewrite E in P.
        simpl in P. exact P.
      * unfold bind. simpl. apply (preserves_mfor data). intros kb. pres.
Qed.

Lemma preserves_ActiveComponent_deactivate r : preserves (ActiveComponent_deactivate r).
Proof.
  assert (Hblock : forall c,
    preserves (x <- get_blockcomp c ;;
               match x with
               | SimpleBlock self => update_block self (with_active false)
               | IndexedBlock _ data => put_blockcomp c (IndexedBlock false data)
               end)).
  { intros c st. unfold bind at 1. unfold get_blockcomp at 1.
    destruct (blockcomps st !! c) as [[self | a data] | ] eqn:E; simpl;
      [ | | apply mono_refl].
    - apply (preserves_update_block self (with_active false)). reflexivity.
    - pose proof (preserves_put_blockcomp_same c
                    (fun x => match x with
                              | SimpleBlock s => SimpleBlock s
                              | IndexedBlock _ d => IndexedBlock false d
                              end)) as P.
      assert (Hlen : forall x, (length (blockcomp_data x) <=
                length (blockcomp_data match x with
                                       | SimpleBlock s => SimpleBlock s
                                       | IndexedBlock _ d => IndexedBlock false d
                                       end))%nat) by (intros [? | ? ?]; simpl; lia).
      specialize (P Hlen st). unfold bind, get_blockcomp in P. rewrite E in P.
      simpl in P. exact P. }
  destruct r as [c | c | c | c | v | t a]; simpl; try solve [pres]; try apply Hblock.
  apply (preserves_put_disjunction_inactive c
           (fun x => mkDisjunctionComp (dc_parent_block x)
              match dc_body x with
              | SimpleDisjunction d => SimpleDisjunction (deactivated d)
              | IndexedDisjunction _ data => IndexedDisjunction false data
              end)).
  intros x. unfold disjunction_active. simpl. destruct (dc_body x); reflexivity.
Qed.

Lemma kset_length {A} (k : key) (x : A) (d : kdict A) :
  (length d <= length (kset k x d))%nat.
Proof.
  induction d as [ | [k' y] d IH]; simpl; [lia | ].
  destruct (key_eqb k k'); simpl; lia.
Qed.

Lemma preserves_relaxedDisjuncts_getitem_len tb :
  preserves (relaxedDisjuncts_getitem_len tb).
Proof.
  intros st. unfold relaxedDisjuncts_getitem_len. unfold bind at 1.
  unfold get_blockcomp at 1.
  destruct (blockcomps st !! relaxedDisjuncts tb) as [x | ] eqn:E; simpl;
    [ | apply mono_refl].
  destruct (kget _ (blockcomp_data x)); [apply mono_refl | ].
  destruct x as [self | a data]; [apply mono_refl | ].
  unfold bind, new_block, put_blockcomp, modify, ret. simpl.
  repeat split; simpl; intros j y Hy.
  - exists y. split; [apply lookup_app_Some; exact Hy | reflexivity].
  - exists y. split; [exact Hy | auto].
  - destruct (lookup_insert_Some_cases (blockcomps st) (relaxedDisjuncts tb) j
                (IndexedBlock a (kset (KInt (Z.of_nat (length data))) (length (blocks st)) data))
                y Hy) as [[-> E'] | [N E']].
    + eexists. split; [exact E' | ].
      replace y with (IndexedBlock a data) by congruence. simpl. apply kset_length.
    + exists y. split; [exact E' | lia].
  - exists y. exact Hy.
  - exists y. split; [exact Hy | split; reflexivity].
Qed.

Lemma preserves_disjContainers_add tb r : preserves (disjContainers_add tb r).
Proof.
  apply preserves_update_block. intros x. destruct (bool_decide _); reflexivity.
Qed.

Ltac pres_step ::=
  first
    [ apply preserves_ret | apply preserves_raise | apply preserves_gets
    | apply preserves_from_option
    | apply preserves_get_var | apply preserves_get_constraint
    | apply preserves_get_dict | apply preserves_get_block
    | apply preserves_get_blockcomp | apply preserves_get_disjunction
    | apply preserves_new_var | apply preserves_put_constraint
    | apply preserves_new_constraint | apply preserves_fix_var
    | apply preserves_constraint_add | apply preserves_new_dict
    | apply preserves_new_block | apply preserves_new_blockcomp
    | apply preserves_add_component | apply preserves_update_dict
    | apply preserves_get_indicator_var | apply preserves_active
    | apply preserves_is_indexed
    | apply preserves_deactivate | apply preserves_ActiveComponent_deactivate
    | apply preserves_relaxedDisjuncts_getitem_len
    | apply preserves_disjContainers_add
    | (apply preserves_update_block; reflexivity)
    | (apply preserves_bind; [ | intros ? ])
    | (apply preserves_mfor; intros ?)
    | (apply preserves_mfold; intros ? ?)
    | match goal with
      | |- preserves (match ?x with _ => _ end) => destruct x
      | |- preserves (if ?x then _ else _) => destruct x
      end ].

Lemma preserves_xform_constraint mode obj disjunct relaxationBlock infodict vsub zsub :
  preserves (xform_constraint mode obj disjunct relaxationBlock infodict vsub zsub).
Proof.
  unfold xform_constraint, xform_constraint_index, get_info. pres.
Qed.

Lemma preserves_transform_component mode disjunct relaxedBlock infodict vsub zsub obj :
  preserves (transform_component mode disjunct relaxedBlock infodict vsub zsub obj).
Proof.
  unfold transform_component.
  apply preserves_bind; [apply preserves_active | intros a].
  destruct (is_inactive a); [apply preserves_ret | ].
  destruct (handlers (type obj)) as [[ | | | | ] | ]; try solve [pres].
  - apply preserves_xform_constraint.
  - unfold warn_for_active_disjunction. pres.
  - unfold warn_for_active_disjunct. pres.
Qed.

Lemma preserves_transform_block_components mode block disjunct relaxedBlock infodict
    vsub zsub :
  preserves (transform_block_components mode block disjunct relaxedBlock infodict
               vsub zsub).
Proof.
  unfold transform_block_components.
  apply preserves_bind; [apply preserves_get_block | intros b].
  apply preserves_mfor. intros obj. apply preserves_transform_component.
Qed.

Lemma preserves_disaggregate_and_transform mode obj rb infodict rinfo varSet :
  preserves (disaggregate_and_transform mode obj rb infodict rinfo varSet).
Proof.
  unfold disaggregate_and_transform, disaggregate_var.
  repeat first [apply preserves_transform_block_components | pres_step].
Qed.

Lemma preserves_transform_disjunct mode obj tb varSet :
  preserves (transform_disjunct mode obj tb varSet).
Proof.
  unfold transform_disjunct.
  repeat first [apply preserves_disaggregate_and_transform | pres_step].
Qed.

(** *** The exclusivity constraint *)

Lemma constraint_add_emitted c k r st st' :
  constraint_add c k r st = (Ok tt, st') -> emitted st' c k = Some r.
Proof.
  unfold constraint_add, bind, get_constraint.
  destruct (constraints st !! c) as [x | ] eqn:E; simpl; [ | discriminate].
  assert (Hlt : (c < length (constraints st))%nat) by (eapply lookup_lt_Some; eauto).
  destruct x as [a e | a data].
  - destruct k; try discriminate. intros [= <-]. unfold emitted. simpl.
    rewrite list_lookup_insert_eq by exact Hlt. reflexivity.
  - intros [= <-]. unfold emitted. simpl.
    rewrite list_lookup_insert_eq by exact Hlt. simpl.
    rewrite kget_kset_eq. reflexivity.
Qed.

Lemma constraint_getitem_simple_other a e k :
  k <> KNone -> constraint_getitem (SimpleConstraint a e) k = None.
Proof. intros N. destruct e, k; try reflexivity. congruence. Qed.

Lemma constraint_add_other c' k' r st res st' c k :
  constraint_add c' k' r st = (res, st') -> k' <> k ->
  emitted st' c k = emitted st c k.
Proof.
  unfold constraint_add, bind, get_constraint.
  destruct (constraints st !! c') as [x | ] eqn:E; simpl; [ | intros [= _ <-]; reflexivity].
  assert (Hlt : (c' < length (constraints st))%nat) by (eapply lookup_lt_Some; eauto).
  intros Hrun Hk.
  destruct (decide (c = c')) as [-> | N].
  - destruct x as [a e | a data].
    + destruct k'; try (injection Hrun as _ <-; reflexivity).
      injection Hrun as _ <-. unfold emitted. simpl.
      rewrite list_lookup_insert_eq by exact Hlt. rewrite E.
      rewrite !constraint_getitem_simple_other by congruence. reflexivity.
    + injection Hrun as _ <-. unfold emitted. simpl.
      rewrite list_lookup_insert_eq by exact Hlt. rewrite E. simpl.
      rewrite kget_kset_ne by congruence. reflexivity.
  - assert (E' : constraints st' !! c = constraints st !! c).
    { destruct x as [a e | a data].
      - destruct k'; injection Hrun as _ <-; try reflexivity.
        simpl. apply list_lookup_insert_ne. congruence.
      - injection Hrun as _ <-. simpl. apply list_lookup_insert_ne. congruence. }
    unfold emitted. rewrite E'. reflexivity.
Qed.

(** Reading a disaggregated variable leaves the state as it is. *)
Lemma readonly_disaggregatedVar_of disjunct var st :
  (disaggregatedVar_of disjunct var st).2 = st.
Proof.
  unfold disaggregatedVar_of, bind, get_block, get_dict, from_option, ret, raise.
  destruct (blocks st !! disjunct) as [o | ]; simpl; [ | reflexivity].
  destruct (gdp_transformation_info o) as [ | | d]; simpl; try reflexivity.
  destruct (dicts st !! d) as [x | ]; simpl; [ | reflexivity].
  destruct (disaggregatedVars x) as [m | ]; simpl; [ | reflexivity].
  destruct (m !! var); reflexivity.
Qed.

Lemma readonly_disaggregatedExpr (l : list bid) (var : vid) (e : expr) st :
  (mfold l e (fun e disjunct =>
     disaggregatedVar <- disaggregatedVar_of disjunct var ;;
     ret (Add e (Var disaggregatedVar))) st).2 = st.
Proof.
  revert e st. induction l as [ | d l IH]; intros e st; simpl; [reflexivity | ].
  unfold bind at 1. unfold bind at 1.
  pose proof (readonly_disaggregatedVar_of d var st) as R.
  destruct (disaggregatedVar_of d var st) as [[dv | err] st1]; simpl in *; subst st1.
  - unfold ret at 1. apply IH.
  - reflexivity.
Qed.

(** The key of a disaggregation constraint is not the key of the
    disjunction. *)
Lemma consIdx_neq (x : DisjunctionComp) (k : key) (o : DisjunctionData) (i : nat) :
  kget k (disjunction_data x) = Some o ->
  consIdx k (disjunction_is_indexed x) i <> k.
Proof.
  intros Hk. unfold consIdx, disjunction_is_indexed, disjunction_data in *.
  destruct k as [ | z | s | l].
  - destruct (dc_body x); discriminate.
  - destruct (dc_body x); [simpl in Hk; discriminate | discriminate].
  - destruct (dc_body x); [simpl in Hk; discriminate | discriminate].
  - intros E. injection E as E. apply (f_equal length) in E.
    rewrite length_app in E. simpl in E. lia.
Qed.

(** The sum of the indicator variables, as the loop builds it. *)
Lemma eval_or_expr (rho : vid -> Q) (ys : list vid) (acc : expr) :
  (eval rho (fold_left (fun e y => Add e (Var y)) ys acc) ==
   eval rho acc + fold_right (fun y s => rho y + s) 0 ys)%Q.
Proof.
  revert acc. induction ys as [ | y ys IH]; intros acc; simpl.
  - ring.
  - rewrite IH. simpl. ring.
Qed.

Lemma or_loop (mode : Z) (tb : TransBlock) (varSet : list vid) (l : list bid) :
  forall (acc : expr) (st : state) (e : expr) (st' : state),
  mfold l acc (fun or_expr disjunct =>
      y <- get_indicator_var disjunct ;;
      transform_disjunct mode disjunct tb varSet ;;
      ret (Add or_expr (Var y))) st = (Ok e, st') ->
  mono st st' /\
  exists ys,
    e = fold_left (fun e y => Add e (Var y)) ys acc /\
    Forall2 (fun d y => exists bd, blocks st' !! d = Some bd /\ indicator_var bd = Some y)
      l ys.
Proof.
  induction l as [ | d l IH]; intros acc st e st' Hrun; simpl in Hrun.
  - injection Hrun as <- <-. split; [apply mono_refl | ].
    exists []. split; [reflexivity | constructor].
  - apply bind_inv in Hrun as (acc' & st1 & Hbody & Hrest).
    apply bind_inv in Hbody as (y & st0 & Hy & Hbody).
    apply bind_inv in Hbody as (u & st2 & Htd & Hret).
    injection Hret as <- <-.
    destruct (IH _ _ _ _ Hrest) as (Hm & ys & -> & Hall).
    assert (st0 = st) as ->.
    { unfold get_indicator_var, bind, get_block, from_option, ret, raise in Hy.
      destruct (blocks st !! d) as [bd | ]; simpl in Hy; [ | discriminate].
      destruct (indicator_var bd); simpl in Hy; congruence. }
    pose proof (preserves_transform_disjunct mode d tb varSet st) as Hm1.
    rewrite Htd in Hm1. simpl in Hm1.
    split; [eapply mono_trans; eauto | ].
    exists (y :: ys). split; [reflexivity | ].
    constructor; [ | exact Hall].
    unfold get_indicator_var, bind, get_block, from_option, ret, raise in Hy.
    destruct (blocks st !! d) as [bd | ] eqn:Ebd; simpl in Hy; [ | discriminate].
    destruct (indicator_var bd) as [y0 | ] eqn:Ey; simpl in Hy; [ | discriminate].
    injection Hy as ->.
    destruct (mono_trans _ _ _ Hm1 Hm) as (B & _).
    destruct (B _ _ Ebd) as (bd' & Hbd' & Ei). exists bd'. split; [exact Hbd' | congruence].
Qed.

Lemma disaggregation_loop (l : list (nat * vid)) (disjs : list bid) (dC : cid)
    (index : key) (indexed : bool) (orC : cid) (k : key) :
  (forall i, consIdx index indexed i <> k) ->
  forall st res st',
  mfor l (fun iv =>
    disaggregatedExpr <- mfold disjs (Const 0) (fun e disjunct =>
      disaggregatedVar <- disaggregatedVar_of disjunct iv.2 ;;
      ret (Add e (Var disaggregatedVar))) ;;
    constraint_add dC (consIdx index indexed iv.1) (Eq (Var iv.2) disaggregatedExpr)) st
  = (res, st') ->
  emitted st' orC k = emitted st orC k /\ mono st st'.
Proof.
  intros Hk. induction l as [ | iv l IH]; intros st res st' Hrun; simpl in Hrun.
  - injection Hrun as _ <-. split; [reflexivity | apply mono_refl].
  - unfold bind at 1 in Hrun. unfold bind at 1 in Hrun.
    pose proof (readonly_disaggregatedExpr disjs iv.2 (Const 0) st) as R.
    destruct (mfold disjs (Const 0) _ st) as [[e | err] st1] eqn:E1; simpl in R; subst st1.
    + destruct (constraint_add dC (consIdx index indexed iv.1) (Eq (Var iv.2) e) st)
        as [[u | err] st2] eqn:E2.
      * destruct (IH _ _ _ Hrun) as (He & Hm).
        pose proof (preserves_constraint_add dC (consIdx index indexed iv.1)
                      (Eq (Var iv.2) e) st) as Hm2.
        rewrite E2 in Hm2. simpl in Hm2.
        split; [ | eapply mono_trans; eauto].
        rewrite He. eapply constraint_add_other; [exact E2 | apply Hk].
      * injection Hrun as _ <-.
        pose proof (preserves_constraint_add dC (consIdx index indexed iv.1)
                      (Eq (Var iv.2) e) st) as Hm2.
        rewrite E2 in Hm2. simpl in Hm2. split; [ | exact Hm2].
        eapply constraint_add_other; [exact E2 | apply Hk].
    + injection Hrun as _ <-. split; [reflexivity | apply mono_refl].
Qed.

(** *** The loop over the variables to disaggregate *)

Ltac unfold_all :=
  cbv beta iota delta [bind ret raise gets modify from_option
    get_var new_var get_constraint put_constraint new_constraint constraint_add
    get_dict new_dict update_dict get_block update_block new_block add_component
    get_indicator_var set_vars set_constraints set_blocks set_dicts];
  cbn [vars constraints disjunctions blockcomps blocks dicts].

Ltac lookup_step :=
  first
    [ rewrite list_lookup_insert_eq
        by (rewrite ?length_insert, ?length_app; simpl;
            first [lia | eauto using lookup_lt_Some
                  | (eapply Nat.lt_le_trans; [eapply lookup_lt_Some; eassumption | lia])])
    | rewrite list_lookup_insert_ne by congruence
    | rewrite list_lookup_middle by reflexivity
    | rewrite lookup_app_l
        by (rewrite ?length_insert, ?length_app; simpl;
            first [lia | eauto using lookup_lt_Some])
    | match goal with
      | E : ?a = Some _ |- context [?a] => rewrite E
      | E : ?a = true |- context [?a] => rewrite E
      | E : ?a = false |- context [?a] => rewrite E
      end ].

Ltac run :=
  repeat (cbn [vars constraints disjunctions blockcomps blocks dicts
               with_relaxed with_chull with_disaggregatedVars with_bigmConstraints
               with_relaxedConstraints with_disjunction_or_constraint
               with_disjunction_disaggregation_constraints with_srcVars
               with_boundConstraintToSrcVar with_srcConstraints
               with_active with_decls with_info with_disjContainers
               relaxed chull disaggregatedVars bigmConstraints relaxedConstraints
               disjunction_or_constraint disjunction_disaggregation_constraints
               src srcVars boundConstraintToSrcVar srcConstraints
               blk_active blk_parent_component blk_decls indicator_var
               gdp_transformation_info disjContainers];
          try lookup_step).

Lemma disaggregate_var_bounded obj rb infodict rinfo y var l u st :
  loop_inv obj rb infodict rinfo y st ->
  bounded st var l u ->
  exists st',
    disaggregate_var obj rb infodict rinfo var st = (Ok tt, st') /\
    loop_inv obj rb infodict rinfo y st' /\
    vars st' = vars st ++ [mkVar None None false None] /\
    constraints st' =
      constraints st ++
        [IndexedConstraint true
           [(lb, mkCon true (bigm_lb y l (length (vars st))));
            (ub, mkCon true (bigm_ub y u (length (vars st))))]].
Proof.
  intros ((o & Ho & Hy) & (r & Hr) & Hne & (d1 & m1 & m2 & Hd1 & Hm1 & Hm2) &
          (d2 & m3 & m4 & Hd2 & Hm3 & Hm4) & Hned) (v & Hv & Hl & Hu).
  unfold disaggregate_var. unfold_all.
  run.
  eexists. split; [reflexivity | ]. cbn. split; [ | split; [reflexivity | ]].
  - unfold loop_inv. cbn. repeat split; try assumption.
    + exists o. run. split; reflexivity.
    + eexists. run. reflexivity.
    + do 3 eexists. run. repeat split; reflexivity.
    + do 3 eexists. run. repeat split; reflexivity.
  - rewrite list_insert_insert_eq.
    rewrite insert_app_r_alt by lia. rewrite Nat.sub_diag. reflexivity.
Qed.

Lemma disaggregate_var_unbounded obj rb infodict rinfo y var st :
  loop_inv obj rb infodict rinfo y st ->
  unbounded st var ->
  exists st',
    disaggregate_var obj rb infodict rinfo var st
    = (Err (UnboundedDisaggregationVariable var), st').
Proof.
  intros ((o & Ho & Hy) & (r & Hr) & Hne & (d1 & m1 & m2 & Hd1 & Hm1 & Hm2) &
          (d2 & m3 & m4 & Hd2 & Hm3 & Hm4) & Hned) (v & Hv & Hb).
  unfold disaggregate_var. unfold_all.
  run.
  destruct Hb as [Hb | Hb]; rewrite Hb.
  - eexists. reflexivity.
  - destruct (var_lb v); eexists; reflexivity.
Qed.

Lemma bounded_stable st st' var l u new :
  vars st' = vars st ++ new -> bounded st var l u -> bounded st' var l u.
Proof.
  intros E (v & Hv & Hl & Hu). exists v. rewrite E.
  split; [ | split; assumption].
  rewrite lookup_app_l; [exact Hv | eapply lookup_lt_Some; eauto].
Qed.


(** When every variable has both bounds, each gets its two bound
    constraints. *)
Lemma disaggregation_succeeds obj rb infodict rinfo y (varSet : list vid) :
  forall st,
  loop_inv obj rb infodict rinfo y st ->
  Forall (fun w => exists l u, bounded st w l u) varSet ->
  exists st' cs,
    mfor varSet (disaggregate_var obj rb infodict rinfo) st = (Ok tt, st') /\
    loop_inv obj rb infodict rinfo y st' /\
    constraints st' = constraints st ++ cs /\
    forall i var l u,
      varSet !! i = Some var -> bounded st var l u ->
      cs !! i = Some (IndexedConstraint true
                        [(lb, mkCon true (bigm_lb y l (length (vars st) + i)));
                         (ub, mkCon true (bigm_ub y u (length (vars st) + i)))]).
Proof.
  induction varSet as [ | w varSet IH]; intros st Hinv Hall; simpl.
  - exists st, []. split; [reflexivity | ]. split; [exact Hinv | ].
    split; [rewrite app_nil_r; reflexivity | ]. intros i var l u Hi. discriminate.
  - inversion Hall as [ | ? ? (l & u & Hw) Hall']; subst.
    destruct (disaggregate_var_bounded _ _ _ _ _ _ _ _ _ Hinv Hw)
      as (st1 & E & Hinv1 & Hvars & Hcons).
    rewrite (bind_ok _ _ _ _ _ E).
    destruct (IH st1 Hinv1) as (st' & cs & Erest & Hinv' & Hcons' & Hcs).
    { eapply Forall_impl; [exact Hall' | ].
      intros z (l' & u' & Hz). exists l', u'. eapply bounded_stable; eauto. }
    exists st'. eexists. split; [exact Erest | ]. split; [exact Hinv' | ].
    split.
    + rewrite Hcons', Hcons. rewrite <- app_assoc. reflexivity.
    + intros i var l0 u0 Hi Hb. destruct i as [ | i]; simpl in *.
      * injection Hi as ->.
        destruct Hw as (v1 & Hv1 & Hl1 & Hu1), Hb as (v2 & Hv2 & Hl2 & Hu2).
        assert (v1 = v2) by congruence. subst v2.
        assert (l0 = l) by congruence. assert (u0 = u) by congruence. subst.
        rewrite Nat.add_0_r. reflexivity.
      * rewrite (Hcs i var l0 u0 Hi (bounded_stable _ _ _ _ _ _ Hvars Hb)).
        rewrite Hvars, length_app. simpl.
        replace (length (vars st) + 1 + i)%nat with (length (vars st) + S i)%nat by lia.
        reflexivity.
Qed.

(** *** Reaching the loop over the variables *)

Ltac unfold_more :=
  cbv beta iota delta [bind ret raise gets modify from_option
    get_var new_var get_constraint put_constraint new_constraint constraint_add
    get_dict new_dict update_dict get_block update_block new_block add_component
    get_indicator_var set_vars set_constraints set_blocks set_dicts
    relaxedDisjuncts_getitem_len get_blockcomp put_blockcomp new_blockcomp
    set_blockcomps disjContainers_add is_indexed blockcomp_data];
  cbn [vars constraints disjunctions blockcomps blocks dicts].

Ltac lookup_step ::=
  first
    [ rewrite list_lookup_insert_eq
        by (rewrite ?length_insert, ?length_app; simpl;
            first [lia | eauto using lookup_lt_Some
                  | (eapply Nat.lt_le_trans; [eapply lookup_lt_Some; eassumption | lia])])
    | rewrite list_lookup_insert_ne by (first [congruence | lia])
    | rewrite list_lookup_middle by (rewrite ?length_app; simpl; lia)
    | rewrite lookup_app_l
        by (rewrite ?length_insert, ?length_app; simpl;
            first [lia | eauto using lookup_lt_Some])
    | match goal with
      | E : ?a = Some _ |- context [?a] => rewrite E
      | E : ?a = None |- context [?a] => rewrite E
      | E : ?a = true |- context [?a] => rewrite E
      | E : ?a = false |- context [?a] => rewrite E
      | E : ?a = NoAttr |- context [?a] => rewrite E
      | E : ?a = IsDict _ |- context [?a] => rewrite E
      | E : ?a = RDisjunct _ |- context [?a] => rewrite E
      | E : ?a = IndexedBlock _ _ |- context [?a] => rewrite E
      end ].

Ltac run ::=
  repeat (cbn [vars constraints disjunctions blockcomps blocks dicts
               with_relaxed with_chull with_disaggregatedVars with_bigmConstraints
               with_relaxedConstraints with_disjunction_or_constraint
               with_disjunction_disaggregation_constraints with_srcVars
               with_boundConstraintToSrcVar with_srcConstraints
               with_active with_decls with_info with_disjContainers
               relaxed chull disaggregatedVars bigmConstraints relaxedConstraints
               disjunction_or_constraint disjunction_disaggregation_constraints
               src srcVars boundConstraintToSrcVar srcConstraints
               blk_active blk_parent_component blk_decls indicator_var
               gdp_transformation_info disjContainers
               negb andb orb default empty_dict];
          try first
            [ lookup_step
            | rewrite bool_decide_eq_false_2 by (intros [? ?]; discriminate) ]).

(** A disjunct that is neither user-deactivated nor already relaxed by
    this transformation gets a relaxation block, and the loop over the
    variables starts. *)
Lemma transform_disjunct_reaches_loop mode obj tb varSet st o y c pc a data t :
  blocks st !! obj = Some o ->
  indicator_var o = Some y ->
  (gdp_transformation_info o = NoAttr /\ blk_active o = true \/
   exists d dd, gdp_transformation_info o = IsDict d /\ dicts st !! d = Some dd /\
                chull dd = None /\ (blk_active o = true \/ relaxed dd = Some true)) ->
  blk_parent_component o = RDisjunct c ->
  blockcomps st !! c = Some pc ->
  c <> relaxedDisjuncts tb ->
  blockcomps st !! relaxedDisjuncts tb = Some (IndexedBlock a data) ->
  kget (KInt (Z.of_nat (length data))) data = None ->
  blocks st !! tb_block tb = Some t ->
  tb_block tb <> obj ->
  exists infodict rinfo st1,
    loop_inv obj (length (blocks st)) infodict rinfo y st1 /\
    vars st1 = vars st /\
    constraints st1 = constraints st /\
    blockcomps st1 !! relaxedDisjuncts tb
      = Some (IndexedBlock a (kset (KInt (Z.of_nat (length data)))
                                (length (blocks st)) data)) /\
    length (blocks st1) = S (length (blocks st)) /\
    transform_disjunct mode obj tb varSet st =
    disaggregate_and_transform mode obj (length (blocks st)) infodict rinfo varSet st1.
Proof.
  intros Ho Hy Hinfo Hpc Hc Hcne Hrd Hk Ht Htne.
  assert (Hlt : (obj < length (blocks st))%nat) by (eapply lookup_lt_Some; eauto).
  assert (Hlt' : (tb_block tb < length (blocks st))%nat) by (eapply lookup_lt_Some; eauto).
  assert (Hlo : obj <> length (blocks st)) by lia.
  assert (Hlo' : length (blocks st) <> obj) by lia.
  assert (Hlt2 : tb_block tb <> length (blocks st)) by lia.
  assert (Hlt3 : length (blocks st) <> tb_block tb) by lia.
  assert (Hltc : (relaxedDisjuncts tb < length (blockcomps st))%nat)
    by (eapply lookup_lt_Some; eauto).
  destruct Hinfo as [(Hi & Hact) | (d & dd & Hi & Hd & Hch & Hact)].
  - exists (length (dicts st)), (S (length (dicts st))).
    unfold transform_disjunct. unfold_more. run.
    rewrite !length_app. cbn [length]. rewrite !Nat.add_1_r.
    destruct pc as [self | pa pdata]; run;
      try destruct (bool_decide (RDisjunct c ∈ disjContainers t)); run;
      (eexists; refine (conj _ (conj _ (conj _ (conj _ (conj _ eq_refl)))));
       cbn [vars constraints disjunctions blockcomps blocks dicts];
       [ unfold loop_inv; cbn [vars constraints disjunctions blockcomps blocks dicts];
         repeat split; try lia;
         [ exists o; run; split; reflexivity
         | eexists; run; reflexivity
         | do 3 eexists; run; repeat split; reflexivity
         | do 3 eexists; run; repeat split; reflexivity ]
       | reflexivity
       | reflexivity
       | run; reflexivity
       | rewrite ?length_insert, length_app; simpl; lia ]).
  - assert (Hltd : (d < length (dicts st))%nat) by (eapply lookup_lt_Some; eauto).
    exists d, (length (dicts st)).
    unfold transform_disjunct. unfold_more. run.
    assert (Hcond : negb (blk_active o) && negb (default false (relaxed dd)) = false).
    { destruct Hact as [E | E]; rewrite E; simpl; [reflexivity | apply andb_false_r]. }
    rewrite Hcond. run.
    destruct pc as [self | pa pdata]; run;
      try destruct (bool_decide (RDisjunct c ∈ disjContainers t)); run;
      (eexists; refine (conj _ (conj _ (conj _ (conj _ (conj _ eq_refl)))));
       cbn [vars constraints disjunctions blockcomps blocks dicts];
       [ unfold loop_inv; cbn [vars constraints disjunctions blockcomps blocks dicts];
         repeat split; try lia;
         [ exists o; run; split; reflexivity
         | eexists; run; reflexivity
         | do 3 eexists; run; repeat split; reflexivity
         | do 3 eexists; run; repeat split; reflexivity ]
       | reflexivity
       | reflexivity
       | run; reflexivity
       | rewrite ?length_insert, length_app; simpl; lia ]).
Qed.

(** *** What a constraint component holds is kept *)

Lemma emitted_except_refl n st : emitted_except n st st.
Proof. intros c k r _ E. exact E. Qed.

Lemma emitted_except_trans n st1 st2 st3 :
  emitted_except n st1 st2 -> emitted_except n st2 st3 -> emitted_except n st1 st3.
Proof. intros A B c k r N E. apply (B c k r N). apply (A c k r N). exact E. Qed.

Lemma emitted_except_same n st st' :
  constraints st' = constraints st -> emitted_except n st st'.
Proof. intros E c k r _. unfold emitted. rewrite E. trivial. Qed.

Lemma emitted_except_weaken n st st' :
  emitted_except None st st' -> emitted_except n st st'.
Proof. intros A c k r _. apply A. discriminate. Qed.

Lemma emitted_bind n {A B} (m : M A) (f : A -> M B) :
  (forall st, emitted_except n st (m st).2) ->
  (forall a st, emitted_except n st (f a st).2) ->
  forall st, emitted_except n st (bind m f st).2.
Proof.
  intros Hm Hf st. unfold bind. specialize (Hm st).
  destruct (m st) as [[a | e] st1]; simpl in *.
  - eapply emitted_except_trans; [exact Hm | apply Hf].
  - exact Hm.
Qed.

Lemma emitted_mfor n {A} (l : list A) (body : A -> M unit) :
  (forall x st, emitted_except n st (body x st).2) ->
  forall st, emitted_except n st (mfor l body st).2.
Proof.
  intros Hb. induction l as [ | x l IH]; simpl; intros st.
  - apply emitted_except_refl.
  - apply emitted_bind; [apply Hb | intros _; exact IH].
Qed.

Lemma emitted_mfold n {A B} (l : list A) (acc : B) (body : B -> A -> M B) :
  (forall acc x st, emitted_except n st (body acc x st).2) ->
  forall st, emitted_except n st (mfold l acc body st).2.
Proof.
  intros Hb. revert acc. induction l as [ | x l IH]; simpl; intros acc st.
  - apply emitted_except_refl.
  - apply emitted_bind; [apply Hb | intros acc'; apply IH].
Qed.

(** Steps that do not write to the arena of constraints. *)
Ltac untouched :=
  intros;
  cbv beta iota delta [bind ret raise gets modify from_option
    get_var new_var fix_var get_constraint
    get_dict new_dict update_dict get_block update_block new_block add_component
    get_indicator_var get_info set_vars set_blocks set_dicts
    relaxedDisjuncts_getitem_len get_blockcomp put_blockcomp new_blockcomp
    set_blockcomps disjContainers_add is_indexed active
    get_disjunction put_disjunction set_disjunctions];
  repeat (cbn [vars constraints disjunctions blockcomps blocks dicts fst snd];
          match goal with
          | |- context [match ?l !! ?i with _ => _ end] => destruct (l !! i)
          | |- context [match indicator_var ?x with _ => _ end] =>
              destruct (indicator_var x)
          | |- context [match gdp_transformation_info ?x with _ => _ end] =>
              destruct (gdp_transformation_info x)
          | |- context [match dc_body ?x with _ => _ end] => destruct (dc_body x)
          | |- context [match ?x with _ => _ end] => is_var x; destruct x
          end);
  cbn [vars constraints disjunctions blockcomps blocks dicts fst snd];
  reflexivity.

Lemma untouched_get_dict d st : constraints (get_dict d st).2 = constraints st.
Proof. untouched. Qed.

Lemma untouched_update_dict d f st : constraints (update_dict d f st).2 = constraints st.
Proof. untouched. Qed.

Lemma untouched_update_block b f st : constraints (update_block b f st).2 = constraints st.
Proof. untouched. Qed.

Lemma untouched_add_component b r st :
  constraints (add_component b r st).2 = constraints st.
Proof. untouched. Qed.

Lemma untouched_get_constraint c st : constraints (get_constraint c st).2 = constraints st.
Proof. untouched. Qed.

Lemma untouched_get_block b st : constraints (get_block b st).2 = constraints st.
Proof. untouched. Qed.

Lemma untouched_get_blockcomp c st : constraints (get_blockcomp c st).2 = constraints st.
Proof. untouched. Qed.

Lemma untouched_get_disjunction c st :
  constraints (get_disjunction c st).2 = constraints st.
Proof. untouched. Qed.

Lemma untouched_get_info b st : constraints (get_info b st).2 = constraints st.
Proof. untouched. Qed.

Lemma untouched_get_indicator_var b st :
  constraints (get_indicator_var b st).2 = constraints st.
Proof. untouched. Qed.

Lemma untouched_active r st : constraints (active r st).2 = constraints st.
Proof. untouched. Qed.

Lemma untouched_mfor {A} (l : list A) (body : A -> M unit) :
  (forall x st, constraints (body x st).2 = constraints st) ->
  forall st, constraints (mfor l body st).2 = constraints st.
Proof.
  intros Hb. induction l as [ | x l IH]; intros st; simpl; [reflexivity | ].
  unfold bind. specialize (Hb x st).
  destruct (body x st) as [[u | e] st1]; simpl in *; [ | exact Hb].
  rewrite IH. exact Hb.
Qed.

Lemma untouched_deactivate_block c st :
  constraints (deactivate (RDisjunct c) st).2 = constraints st.
Proof.
  simpl. unfold bind at 1. unfold get_blockcomp at 1.
  destruct (blockcomps st !! c) as [[self | a data] | ]; simpl; try reflexivity.
  - apply untouched_update_block.
  - unfold bind. simpl.
    rewrite (untouched_mfor data (fun kb => update_block kb.2 (with_active false)));
      [reflexivity | ].
    intros x st0. apply untouched_update_block.
Qed.

Lemma untouched_deactivate_disjunction c st :
  constraints (deactivate (RDisjunction c) st).2 = constraints st.
Proof. simpl. untouched. Qed.

Lemma emitted_put_deactivated obj x i st :
  constraints st !! obj = Some x ->
  emitted_except None st (put_constraint obj (constraint_deactivate_data x i) st).2.
Proof.
  intros Hx c k r _. unfold emitted. simpl.
  destruct (decide (c = obj)) as [-> | N].
  - rewrite list_lookup_insert_eq by (eapply lookup_lt_Some; eauto). rewrite Hx.
    destruct x as [a e | a data]; simpl.
    + destruct e as [e | ]; simpl; [ | trivial]. destruct k; trivial.
    + destruct (kget i data) as [d | ] eqn:Ei; simpl; [ | trivial].
      destruct (key_eqb k i) eqn:Ek.
      * apply key_eqb_eq in Ek as ->. rewrite kget_kset_eq, Ei. trivial.
      * assert (Nk : k <> i) by (intros ->; rewrite key_eqb_refl in Ek; discriminate).
        rewrite kget_kset_ne by exact Nk. trivial.
  - rewrite list_lookup_insert_ne by congruence. trivial.
Qed.

Lemma emitted_constraint_add c k r st :
  emitted_except (Some c) st (constraint_add c k r st).2.
Proof.
  intros c' k' r' N. assert (N' : c' <> c) by congruence.
  unfold constraint_add, bind, get_constraint.
  destruct (constraints st !! c) as [x | ] eqn:E; simpl; [ | trivial].
  destruct x as [a e | a data].
  - destruct k; simpl; trivial.
    unfold emitted. simpl. rewrite list_lookup_insert_ne by congruence. trivial.
  - unfold emitted. simpl. rewrite list_lookup_insert_ne by congruence. trivial.
Qed.

Ltac em_step :=
  first
    [ apply emitted_except_refl
    | apply emitted_constraint_add
    | (apply emitted_except_same;
       first [ apply untouched_get_indicator_var | apply untouched_get_dict
             | apply untouched_get_constraint | apply untouched_get_block
             | apply untouched_get_blockcomp | apply untouched_get_disjunction
             | apply untouched_update_dict | apply untouched_update_block
             | apply untouched_add_component | apply untouched_get_info
             | apply untouched_active | apply untouched_deactivate_block
             | apply untouched_deactivate_disjunction ])
    | (apply emitted_bind; [intros ? | intros ? ?])
    | match goal with
      | |- emitted_except _ _ (snd ((match ?x with _ => _ end) _)) => destruct x
      | |- emitted_except _ _ (snd ((if ?x then _ else _) _)) => destruct x
      | |- emitted_except _ _ (snd (from_option _ ?o _)) => destruct o
      end ].

Lemma emitted_xform_constraint_index mode obj indexed newConstraint disjunct vsub zsub i st :
  emitted_except (Some newConstraint) st
    (xform_constraint_index mode obj indexed newConstraint disjunct vsub zsub i st).2.
Proof.
  unfold xform_constraint_index. unfold bind at 1. unfold get_constraint at 1.
  destruct (constraints st !! obj) as [x | ] eqn:Hx; simpl;
    [ | apply emitted_except_refl].
  unfold bind at 1. destruct (constraint_getitem x i) as [c | ]; simpl;
    [ | apply emitted_except_refl].
  destruct (con_active c); simpl; [ | apply emitted_except_refl].
  unfold bind at 1. simpl.
  eapply emitted_except_trans;
    [apply emitted_except_weaken; exact (emitted_put_deactivated obj x i st Hx) | ].
  repeat em_step.
Qed.

Lemma emitted_new_constraint n x st :
  emitted_except n st (new_constraint x st).2.
Proof.
  intros c k r _. unfold emitted. simpl.
  destruct (constraints st !! c) eqn:E; [ | discriminate].
  rewrite (lookup_app_Some _ _ _ _ E). trivial.
Qed.

Lemma emitted_xform_constraint mode obj disjunct rb infodict vsub zsub st :
  emitted_except None st
    (xform_constraint mode obj disjunct rb infodict vsub zsub st).2.
Proof.
  enough (A : emitted_except (Some (length (constraints st))) st
                (xform_constraint mode obj disjunct rb infodict vsub zsub st).2).
  { intros c k r _ E. apply A; [ | exact E].
    unfold emitted in E. destruct (constraints st !! c) eqn:Ec; [ | discriminate].
    apply lookup_lt_Some in Ec. intros [= ->]. lia. }
  unfold xform_constraint.
  destruct obj as [obj | | | | | ]; try apply emitted_except_refl.
  unfold bind at 1. unfold get_dict at 1.
  destruct (dicts st !! infodict) as [d | ]; simpl; [ | apply emitted_except_refl].
  unfold bind at 1. destruct (disaggregatedVars d); simpl; [ | apply emitted_except_refl].
  unfold bind at 1. unfold get_constraint at 1.
  destruct (constraints st !! obj) as [x | ]; simpl; [ | apply emitted_except_refl].
  unfold bind at 1. simpl.
  eapply emitted_except_trans; [apply (emitted_new_constraint _ (IndexedConstraint true [])) | ].
  simpl.
  repeat first [ apply emitted_mfor; intros ? ?; apply emitted_xform_constraint_index
               | em_step ].
Qed.

Lemma emitted_transform_block_components mode block disjunct rb infodict vsub zsub st :
  emitted_except None st
    (transform_block_components mode block disjunct rb infodict vsub zsub st).2.
Proof.
  unfold transform_block_components.
  apply emitted_bind; [intros st0; em_step | ].
  intros b st0. apply emitted_mfor. intros obj st1.
  unfold transform_component.
  apply emitted_bind; [intros st2; em_step | ].
  intros a st2. destruct (is_inactive a); [apply emitted_except_refl | ].
  destruct (handlers (type obj)) as [[ | | | | ] | ]; try apply emitted_except_refl.
  - apply emitted_xform_constraint.
  - unfold warn_for_active_disjunction.
    destruct obj; try apply emitted_except_refl.
    apply emitted_bind; [intros st3; em_step | ].
    intros x st3. destruct (negb (disjunction_active x)); [apply emitted_except_refl | ].
    destruct (dc_body x); [apply emitted_except_refl | ].
    destruct (find _ _); [apply emitted_except_refl | ].
    apply emitted_except_same. apply untouched_deactivate_disjunction.
  - unfold warn_for_active_disjunct.
    destruct obj as [ | | c | | | ]; try apply emitted_except_refl.
    apply emitted_bind; [intros st3; em_step | ].
    intros a0 st3. destruct (negb (default true a0)); [apply emitted_except_refl | ].
    apply emitted_bind; [intros st4; em_step | ].
    intros x st4. destruct x as [self | a1 data]; [apply emitted_except_refl | ].
    apply emitted_bind.
    + apply emitted_mfold. intros found i0 st5. repeat em_step.
    + intros found st5. destruct found; [apply emitted_except_refl | ].
      apply emitted_except_same. apply untouched_deactivate_block.
Qed.

(** From the loop over the variables on, [_transform_disjunct] keeps what
    the existing constraint components hold. *)
Lemma emitted_after_loop mode obj rb infodict st :
  emitted_except None st
    ((d <- get_dict infodict ;;
      m <- from_option KeyError (disaggregatedVars d) ;;
      transform_block_components mode obj obj rb infodict
        (Var <$> m) ((fun _ => Const 0) <$> m) ;;
      update_block obj (with_active false) ;;
      update_dict infodict (with_relaxed (Some true)) ;;
      update_block obj (with_info (IsDict infodict))) st).2.
Proof.
  repeat first [ apply emitted_transform_block_components | em_step ].
Qed.


(** *** A disjunct relaxed by another transformation *)

Lemma kset_length_new {A} (k : key) (x : A) (d : kdict A) :
  kget k d = None -> length (kset k x d) = S (length d).
Proof.
  induction d as [ | [k' y] d IH]; simpl; [reflexivity | ].
  destruct (key_eqb k k'); [discriminate | ]. intros E. simpl. rewrite IH by exact E.
  reflexivity.
Qed.

Lemma arena_grows {A B} (l : list A) (l' : list B) :
  (forall i x, l !! i = Some x -> exists x', l' !! i = Some x') ->
  (length l <= length l')%nat.
Proof.
  intros Hl. destruct (decide (length l = 0%nat)) as [E | N]; [lia | ].
  destruct (lookup_lt_is_Some_2 l (pred (length l))) as (x & Hx); [lia | ].
  destruct (Hl _ _ Hx) as (x' & Hx'). apply lookup_lt_Some in Hx'. lia.
Qed.

Lemma mono_blocks_length st st' : mono st st' -> (length (blocks st) <= length (blocks st'))%nat.
Proof.
  intros (B & _). apply arena_grows. intros i x Hx.
  destruct (B _ _ Hx) as (x' & Hx' & _). eauto.
Qed.

Lemma mono_vars_length st st' : mono st st' -> (length (vars st) <= length (vars st'))%nat.
Proof.
  intros (_ & _ & _ & _ & V). apply arena_grows. intros i x Hx.
  destruct (V _ _ Hx) as (x' & Hx' & _). eauto.
Qed.

(** C4 (as amended). A disjunct that another transformation has relaxed
    (its dict has [relaxed] set and no [chull] entry) is not skipped: it is
    transformed like any other disjunct; a relaxation block is created for
    it and a copy of the first variable to disaggregate is created,
    whatever the outcome of the rest of the transformation. *)
Theorem relaxed_elsewhere_is_transformed
    (mode : Z) (obj : bid) (tb : TransBlock) (varSet : list vid) (st : state)
    (o : BlockData) (y : vid) (d : did) (dd : InfoDict) (c : cid) (pc : BlockComp)
    (a : bool) (data : kdict bid) (t : BlockData) :
  blocks st !! obj = Some o ->
  indicator_var o = Some y ->
  gdp_transformation_info o = IsDict d ->
  dicts st !! d = Some dd ->
  relaxed dd = Some true ->
  chull dd = None ->
  blk_parent_component o = RDisjunct c ->
  blockcomps st !! c = Some pc ->
  c <> relaxedDisjuncts tb ->
  blockcomps st !! relaxedDisjuncts tb = Some (IndexedBlock a data) ->
  kget (KInt (Z.of_nat (length data))) data = None ->
  blocks st !! tb_block tb = Some t ->
  tb_block tb <> obj ->
  exists res st',
    transform_disjunct mode obj tb varSet st = (res, st') /\
    (length (blocks st) < length (blocks st'))%nat /\
    (exists x', blockcomps st' !! relaxedDisjuncts tb = Some x' /\
                (length data < length (blockcomp_data x'))%nat) /\
    (varSet <> [] -> (length (vars st) < length (vars st'))%nat).
Proof.
  intros Ho Hy Hi Hd Hrel Hch Hpc Hc Hcne Hrd Hk Ht Htne.
  destruct (transform_disjunct_reaches_loop mode obj tb varSet st
              o y c pc a data t Ho Hy
              (or_intror (ex_intro _ d (ex_intro _ dd
                 (conj Hi (conj Hd (conj Hch (or_intror Hrel)))))))
              Hpc Hc Hcne Hrd Hk Ht Htne)
    as (infodict & rinfo & st1 & Hinv & Hvars & Hcons & Hbc & Hlen & Heq).
  rewrite Heq.
  pose proof (preserves_disaggregate_and_transform mode obj (length (blocks st))
                infodict rinfo varSet st1) as Hm.
  destruct (disaggregate_and_transform mode obj (length (blocks st)) infodict rinfo
              varSet st1) as [res st'] eqn:Erun.
  simpl in Hm. exists res, st'. split; [reflexivity | ]. split; [ | split].
  - apply mono_blocks_length in Hm. lia.
  - destruct Hm as (_ & _ & C & _). destruct (C _ _ Hbc) as (x' & Hx' & Hle).
    exists x'. split; [exact Hx' | ].
    simpl in Hle. rewrite kset_length_new in Hle by exact Hk. lia.
  - intros Hne. destruct varSet as [ | var rest]; [congruence | ].
    unfold disaggregate_and_transform in Erun. simpl mfor in Erun.
    unfold disaggregate_var at 1 in Erun.
    match type of Erun with
    | bind (bind (bind new_var ?F) ?G) ?K ?s = _ =>
        assert (Hm' : preserves (bind (bind (F (length (vars s))) G) K));
        [ | change (bind (bind (F (length (vars s))) G) K
                      (set_vars (vars s ++ [mkVar None None false None]) s)
                    = (res, st')) in Erun ]
    end.
    { unfold disaggregate_var.
      repeat first [apply preserves_transform_block_components | pres_step]. }
    specialize (Hm' (set_vars (vars st1 ++ [mkVar None None false None]) st1)).
    cbv beta in Erun, Hm'. rewrite Erun in Hm'. simpl in Hm'.
    apply mono_vars_length in Hm'.
    simpl in Hm'. rewrite length_app in Hm'. simpl in Hm'. rewrite Hvars in Hm'. lia.
Qed.

(** *** The whole transformation is monotone *)

Lemma preserves_identify_variables e : preserves (identify_variables e).
Proof. unfold identify_variables. pres. Qed.

Lemma preserves_component_body cons : preserves (component_body cons).
Proof. unfold component_body. pres. Qed.

Lemma preserves_active_constraints fuel : forall b, preserves (active_constraints fuel b).
Proof.
  induction fuel as [ | fuel IH]; intros b; simpl; [apply preserves_raise | ].
  repeat first [apply IH | pres_step].
Qed.

Lemma preserves_collect_varSet fuel disjs : preserves (collect_varSet fuel disjs).
Proof.
  unfold collect_varSet.
  repeat first [ apply preserves_active_constraints | apply preserves_component_body
               | apply preserves_identify_variables | pres_step ].
Qed.

Lemma preserves_getDisjunctionConstraints c : preserves (getDisjunctionConstraints c).
Proof. unfold getDisjunctionConstraints. pres. Qed.

Lemma preserves_transformDisjunctionData fuel mode obj tb index :
  preserves (transformDisjunctionData fuel mode obj tb index).
Proof.
  unfold transformDisjunctionData, relax_disjuncts, disaggregatedVar_of.
  repeat first [ apply preserves_collect_varSet | apply preserves_transform_disjunct
               | apply preserves_getDisjunctionConstraints | pres_step ].
Qed.

Lemma preserves_transformDisjunction fuel mode obj tb :
  preserves (transformDisjunction fuel mode obj tb).
Proof.
  unfold transformDisjunction.
  repeat first [ apply preserves_transformDisjunctionData | pres_step ].
Qed.

Lemma preserves_transformBlockData fuel mode tb :
  forall obj, preserves (transformBlockData fuel mode obj tb).
Proof.
  induction fuel as [ | fuel IH]; intros obj; simpl; [apply preserves_raise | ].
  repeat first [ apply IH | apply preserves_transformDisjunction | pres_step ].
Qed.

Lemma preserves_apply_to_target fuel mode tb t :
  preserves (apply_to_target fuel mode tb t).
Proof.
  unfold apply_to_target, find_component, target_active, transform_target, transformBlock.
  apply preserves_bind; [intros st; apply mono_refl | intros o].
  repeat first [ apply preserves_transformBlockData | apply preserves_transformDisjunction
               | apply preserves_transformDisjunctionData | pres_step ].
Qed.

Lemma preserves_deactivate_container obj : preserves (deactivate_container obj).
Proof. unfold deactivate_container. pres. Qed.

Lemma preserves_make_transBlock instance : preserves (make_transBlock instance).
Proof. unfold make_transBlock. pres. Qed.

(** *** Running the transformation again *)

(** What [_apply_to] adds to the model before it looks at the targets. *)
Lemma make_transBlock_adds instance st i :
  blocks st !! instance = Some i ->
  exists st',
    make_transBlock instance st
      = (Ok (mkTransBlock (length (blocks st)) (S (length (blockcomps st)))), st') /\
    vars st' = vars st /\
    constraints st' = constraints st /\
    disjunctions st' = disjunctions st /\
    dicts st' = dicts st /\
    blockcomps st' =
      blockcomps st ++ [SimpleBlock (length (blocks st)); IndexedBlock true []] /\
    length (blocks st') = S (length (blocks st)) /\
    (forall b x, blocks st !! b = Some x ->
       exists x', blocks st' !! b = Some x' /\ blk_active x' = blk_active x) /\
    (exists t, blocks st' !! length (blocks st) = Some t /\ disjContainers t = []).
Proof.
  intros Hi.
  assert (Hlt : (instance < length (blocks st))%nat) by (eapply lookup_lt_Some; eauto).
  assert (Hne : instance <> length (blocks st)) by lia.
  assert (Hne' : length (blocks st) <> instance) by lia.
  unfold make_transBlock. unfold_more. run.
  rewrite !length_app. cbn [length]. rewrite !Nat.add_1_r.
  eexists. split; [reflexivity | ].
  cbn [vars constraints disjunctions blockcomps blocks dicts].
  repeat split.
  - rewrite <- app_assoc. reflexivity.
  - rewrite !length_insert, length_app. simpl. lia.
  - intros b x Hb.
    assert (Hbl : (b < length (blocks st))%nat) by (eapply lookup_lt_Some; eauto).
    rewrite list_lookup_insert_ne by lia. rewrite list_lookup_insert_ne by lia.
    destruct (decide (b = instance)) as [-> | N].
    + rewrite list_lookup_insert_eq by (rewrite length_app; simpl; lia).
      eexists. split; [reflexivity | ]. simpl. congruence.
    + rewrite list_lookup_insert_ne by congruence.
      rewrite lookup_app_l by exact Hbl. exists x. split; [exact Hb | reflexivity].
  - eexists. split.
    + rewrite list_lookup_insert_eq
        by (rewrite !length_insert, length_app; simpl; lia).
      reflexivity.
    + reflexivity.
Qed.

(** A target keeps its status when the model only gets new blocks. *)
Lemma target_kept st st' more t a :
  vars st' = vars st ->
  constraints st' = constraints st ->
  disjunctions st' = disjunctions st ->
  blockcomps st' = blockcomps st ++ more ->
  (forall b x, blocks st !! b = Some x ->
     exists x', blocks st' !! b = Some x' /\ blk_active x' = blk_active x) ->
  resolves st t = true ->
  target_active t st = (Ok a, st) ->
  resolves st' t = true /\ target_active t st' = (Ok a, st').
Proof.
  intros Ev Ec Ed Eb Hbl Hr Ha.
  destruct t as [[c | c | c | c | v | ty oa] | c i | b | c i]; simpl in *.
  - rewrite Ec. split; [exact Hr | ].
    unfold bind, get_constraint, from_option, ret, raise in *. rewrite Ec.
    destruct (constraints st !! c) as [[? ? | ? ?] | ]; simpl in *; congruence.
  - rewrite Ed. split; [exact Hr | ].
    unfold bind, get_disjunction, from_option, ret, raise in *. rewrite Ed.
    destruct (disjunctions st !! c) as [x | ]; simpl in *; congruence.
  - unfold bind, get_blockcomp, get_block, from_option, ret, raise in *. rewrite Eb.
    destruct (blockcomps st !! c) as [x | ] eqn:Ex; simpl in *; [ | discriminate].
    rewrite (lookup_app_l_Some _ _ _ _ Ex). split; [reflexivity | ]. simpl.
    destruct x as [self | ? ?]; simpl in *; [ | congruence].
    destruct (blocks st !! self) as [y | ] eqn:Ey; simpl in *; [ | discriminate].
    destruct (Hbl _ _ Ey) as (y' & Ey' & Eact). rewrite Ey'. simpl. congruence.
  - unfold bind, get_blockcomp, get_block, from_option, ret, raise in *. rewrite Eb.
    destruct (blockcomps st !! c) as [x | ] eqn:Ex; simpl in *; [ | discriminate].
    rewrite (lookup_app_l_Some _ _ _ _ Ex). split; [reflexivity | ]. simpl.
    destruct x as [self | ? ?]; simpl in *; [ | congruence].
    destruct (blocks st !! self) as [y | ] eqn:Ey; simpl in *; [ | discriminate].
    destruct (Hbl _ _ Ey) as (y' & Ey' & Eact). rewrite Ey'. simpl. congruence.
  - rewrite Ev. split; [exact Hr | ].
    unfold bind, get_var, from_option, ret, raise in *. rewrite Ev.
    destruct (vars st !! v); simpl in *; congruence.
  - split; [reflexivity | ].
    unfold bind, from_option, ret, raise in *. destruct oa; simpl in *; congruence.
  - rewrite Ed. split; [exact Hr | ].
    unfold bind, get_disjunction, from_option, ret, raise in *. rewrite Ed.
    destruct (disjunctions st !! c) as [x | ]; simpl in *; [ | discriminate].
    destruct (kget i (disjunction_data x)); simpl in *; congruence.
  - unfold bind, get_block, from_option, ret, raise in *.
    destruct (blocks st !! b) as [y | ] eqn:Ey; simpl in *; [ | discriminate].
    destruct (Hbl _ _ Ey) as (y' & Ey' & Eact). rewrite Ey'. simpl.
    split; [reflexivity | congruence].
  - rewrite Ec. split; [exact Hr | ].
    unfold bind, get_constraint, from_option, ret, raise in *. rewrite Ec.
    destruct (constraints st !! c) as [x | ]; simpl in *; [ | discriminate].
    destruct (constraint_getitem x i); simpl in *; congruence.
Qed.

(** A loop over targets that are all inactive changes nothing. *)
Lemma inactive_targets_skipped fuel mode tb (targets : list target) st :
  Forall (fun t => resolves st t = true /\ target_active t st = (Ok false, st)) targets ->
  mfor targets (apply_to_target fuel mode tb) st = (Ok tt, st).
Proof.
  induction 1 as [ | t targets (Hr & Ha) _ IH]; simpl; [reflexivity | ].
  assert (Hskip : apply_to_target fuel mode tb t st = (Ok tt, st)).
  { unfold apply_to_target, find_component. unfold bind at 1. rewrite Hr.
    unfold bind. rewrite Ha. reflexivity. }
  rewrite (bind_ok _ _ _ _ _ Hskip). exact IH.
Qed.

(** A run whose targets are all inactive only adds the transformation
    block. *)
Lemma apply_to_inactive_targets fuel instance targets mode st i :
  blocks st !! instance = Some i ->
  Forall (fun t => resolves st t = true /\ target_active t st = (Ok false, st)) targets ->
  exists st',
    apply_to fuel instance (Some targets) mode st = (Ok tt, st') /\
    vars st' = vars st /\
    constraints st' = constraints st /\
    disjunctions st' = disjunctions st /\
    dicts st' = dicts st /\
    blockcomps st' =
      blockcomps st ++ [SimpleBlock (length (blocks st)); IndexedBlock true []] /\
    length (blocks st') = S (length (blocks st)).
Proof.
  intros Hi Hall.
  destruct (make_transBlock_adds instance st i Hi)
    as (st' & Emk & Ev & Ec & Ed & Edi & Eb & El & Hbl & (t & Et & Hdc)).
  exists st'. split; [ | repeat split; assumption].
  unfold apply_to. rewrite (bind_ok _ _ _ _ _ Emk). simpl default.
  rewrite (bind_ok _ _ _ tt st').
  2:{ apply inactive_targets_skipped.
      eapply Forall_impl; [exact Hall | ].
      intros t0 (Hr & Ha). exact (target_kept st st' _ t0 false Ev Ec Ed Eb Hbl Hr Ha). }
  simpl tb_block. rewrite (bind_ok _ _ _ _ _ (get_block_ok _ _ _ Et)).
  rewrite Hdc. reflexivity.
Qed.

Lemma deactivate_disjunction_inactive c st st' :
  deactivate (RDisjunction c) st = (Ok tt, st') ->
  exists x', disjunctions st' !! c = Some x' /\ disjunction_active x' = false.
Proof.
  simpl. unfold bind, get_disjunction, put_disjunction, modify.
  destruct (disjunctions st !! c) as [x | ] eqn:E; simpl; [ | discriminate].
  intros [= <-]. simpl. eexists. split.
  - apply list_lookup_insert_eq. eapply lookup_lt_Some; eauto.
  - unfold disjunction_active. simpl. destruct (dc_body x); reflexivity.
Qed.

Lemma run_mono {A} (m : M A) (r : result A) st st' :
  preserves m -> m st = (r, st') -> mono st st'.
Proof. intros P E. specialize (P st). rewrite E in P. exact P. Qed.

(** A successful run on a disjunction leaves it inactive. *)
Lemma disjunction_target_done fuel instance c mode st st1 :
  apply_to fuel instance (Some [TComponent (RDisjunction c)]) mode st = (Ok tt, st1) ->
  (exists i, blocks st1 !! instance = Some i) /\
  resolves st1 (TComponent (RDisjunction c)) = true /\
  target_active (TComponent (RDisjunction c)) st1 = (Ok false, st1).
Proof.
  intros Hrun. unfold apply_to in Hrun.
  apply bind_inv in Hrun as (tb & s0 & Hmk & Hrun).
  apply bind_inv in Hrun as (u1 & s1 & Hloop & Hrun).
  apply bind_inv in Hrun as (tbd & s1' & Hget & Hrun).
  apply bind_inv in Hrun as (u2 & s2 & Hdc & Hret).
  injection Hret as <-.
  assert (s1' = s1) as ->.
  { unfold get_block, from_option, ret, raise in Hget.
    destruct (blocks s1 !! tb_block tb); simpl in Hget; congruence. }
  assert (M01 : mono s0 s1).
  { eapply run_mono; [ | exact Hloop]. apply preserves_mfor.
    intros t. apply preserves_apply_to_target. }
  assert (M12 : mono s1 s2).
  { eapply run_mono; [ | exact Hdc]. apply preserves_mfor.
    intros t. apply preserves_deactivate_container. }
  split; [ | ].
  - (* the instance *)
    assert (exists i, blocks s0 !! instance = Some i) as (i & Hi).
    { unfold make_transBlock in Hmk.
      apply bind_inv in Hmk as (n & sa & _ & Hmk).
      apply bind_inv in Hmk as (tbid & sb & _ & Hmk).
      apply bind_inv in Hmk as (cc & sc & _ & Hmk).
      apply bind_inv in Hmk as (u & sd & Hadd & Hmk).
      assert (exists i, blocks sd !! instance = Some i) as (i & Hi).
      { unfold add_component, update_block, bind, get_block, modify in Hadd.
        destruct (blocks sc !! instance) as [x | ] eqn:E; simpl in Hadd; [ | discriminate].
        injection Hadd as Hsd. subst sd. simpl. eexists.
        apply list_lookup_insert_eq. eapply lookup_lt_Some; eauto. }
      assert (Mrest : mono sd s0).
      { eapply run_mono; [ | exact Hmk]. pres. }
      destruct Mrest as (B & _). destruct (B _ _ Hi) as (i' & Hi' & _). eauto. }
    destruct (mono_trans _ _ _ M01 M12) as (B & _).
    destruct (B _ _ Hi) as (i' & Hi' & _). eauto.
  - (* the disjunction *)
    assert (exists x, disjunctions s1 !! c = Some x /\ disjunction_active x = false)
      as (x & Hx & Hin).
    { simpl in Hloop. apply bind_inv in Hloop as (u & s & Hstep & Hret).
      injection Hret as Hu Hs. subst s. unfold apply_to_target in Hstep.
      apply bind_inv in Hstep as (ot & sa & Hfind & Hstep).
      unfold find_component in Hfind. cbv beta in Hfind.
      injection Hfind as Hot Hsa. subst ot sa.
      simpl resolves in Hstep.
      destruct (disjunctions s0 !! c) as [x0 | ] eqn:Ex0.
      2:{ cbv in Hstep. discriminate. }
      rewrite bool_decide_eq_true_2 in Hstep by eauto.
      apply bind_inv in Hstep as (a & sb & Hact & Hstep).
      simpl in Hact. unfold bind, get_disjunction, from_option, ret, raise in Hact.
      rewrite Ex0 in Hact. simpl in Hact.
      injection Hact as Ha Hsb. subst a sb.
      destruct (disjunction_active x0) eqn:Eact; simpl in Hstep.
      - unfold transformDisjunction in Hstep.
        apply bind_inv in Hstep as (x1 & sc & _ & Hstep).
        apply bind_inv in Hstep as (u' & sd & _ & Hde).
        destruct u. exact (deactivate_disjunction_inactive _ _ _ Hde).
      - injection Hstep as Hs. subst s1. exists x0. split; [exact Ex0 | exact Eact]. }
    destruct M12 as (_ & D & _). destruct (D _ _ Hx) as (x' & Hx' & Hin').
    simpl. rewrite Hx'. split; [reflexivity | ].
    unfold bind, get_disjunction, from_option, ret. rewrite Hx'. simpl.
    rewrite (Hin' Hin). reflexivity.
Qed.

(** C8 (as amended). When the transformation of a disjunction has
    returned, running it again on the same target creates no variable, no
    constraint and no relaxation block of a disjunct; it does create a
    new, empty transformation block on the instance (three objects: the
    block, its component and the component [relaxedDisjuncts]). *)
Theorem second_run_adds_only_a_scope
    (fuel : nat) (instance : bid) (c : cid) (mode mode' : Z) (st st1 : state) :
  apply_to fuel instance (Some [TComponent (RDisjunction c)]) mode st = (Ok tt, st1) ->
  exists st2,
    apply_to fuel instance (Some [TComponent (RDisjunction c)]) mode' st1 = (Ok tt, st2) /\
    vars st2 = vars st1 /\
    constraints st2 = constraints st1 /\
    disjunctions st2 = disjunctions st1 /\
    dicts st2 = dicts st1 /\
    blockcomps st2 =
      blockcomps st1 ++ [SimpleBlock (length (blocks st1)); IndexedBlock true []] /\
    length (blocks st2) = S (length (blocks st1)) /\
    object_count st2 = (object_count st1 + 3)%nat.
Proof.
  intros Hrun.
  destruct (disjunction_target_done _ _ _ _ _ _ Hrun) as ((i & Hi) & Hr & Ha).
  destruct (apply_to_inactive_targets fuel instance [TComponent (RDisjunction c)]
              mode' st1 i Hi) as (st2 & E & Ev & Ec & Ed & Edi & Eb & El).
  { constructor; [split; assumption | constructor]. }
  exists st2. repeat split; try assumption.
  unfold object_count. rewrite Ev, Ec, Ed, Eb, El, length_app. simpl. lia.
Qed.

(** *** Relations that every step keeps *)

Section Keeps.

Context (R : state -> state -> Prop) `{!PreOrder R}.

Lemma keeps_ret {A} (a : A) : keeps R (ret a).
Proof. intros st. reflexivity. Qed.

Lemma keeps_raise {A} (e : error) : keeps R (raise (A := A) e).
Proof. intros st. reflexivity. Qed.

Lemma keeps_gets {A} (f : state -> A) : keeps R (gets f).
Proof. intros st. reflexivity. Qed.

Lemma keeps_from_option {A} e (o : option A) : keeps R (from_option e o).
Proof. destruct o; [apply keeps_ret | apply keeps_raise]. Qed.

(** A computation that only reads. *)
Lemma keeps_readonly {A} (m : M A) : (forall st, (m st).2 = st) -> keeps R m.
Proof. intros E st. rewrite E. reflexivity. Qed.

Lemma keeps_bind {A B} (m : M A) (f : A -> M B) :
  keeps R m -> (forall a, keeps R (f a)) -> keeps R (bind m f).
Proof.
  intros Hm Hf st. unfold bind. specialize (Hm st).
  destruct (m st) as [[a | e] st1]; simpl in *.
  - etransitivity; [exact Hm | apply Hf].
  - exact Hm.
Qed.

(** The continuation may rely on what the first step returned. *)
Lemma keeps_bind_at {A B} (m : M A) (f : A -> M B) st :
  R st (m st).2 ->
  (forall a st1, m st = (Ok a, st1) -> R st1 (f a st1).2) ->
  R st (bind m f st).2.
Proof.
  intros Hm Hf. unfold bind.
  destruct (m st) as [[a | e] st1] eqn:E; simpl in *.
  - etransitivity; [exact Hm | apply Hf; reflexivity].
  - exact Hm.
Qed.

Lemma keeps_mfor {A} (l : list A) (body : A -> M unit) :
  (forall x, keeps R (body x)) -> keeps R (mfor l body).
Proof.
  intros Hb. induction l as [ | x l IH]; simpl.
  - apply keeps_ret.
  - apply keeps_bind; [apply Hb | intros _; exact IH].
Qed.

Lemma keeps_mfold {A B} (l : list A) (acc : B) (body : B -> A -> M B) :
  (forall acc x, keeps R (body acc x)) -> keeps R (mfold l acc body).
Proof.
  intros Hb. revert acc. induction l as [ | x l IH]; simpl; intros acc.
  - apply keeps_ret.
  - apply keeps_bind; [apply Hb | intros acc'; apply IH].
Qed.

End Keeps.

(** *** Steps that only read *)

Ltac readonly :=
  intros;
  cbv beta iota delta [bind ret raise gets from_option
    get_var get_constraint get_dict get_block get_blockcomp get_disjunction
    get_indicator_var get_info is_indexed active];
  repeat (cbn [fst snd];
          match goal with
          | |- context [match ?l !! ?i with _ => _ end] => destruct (l !! i)
          | |- context [match indicator_var ?x with _ => _ end] =>
              destruct (indicator_var x)
          | |- context [match gdp_transformation_info ?x with _ => _ end] =>
              destruct (gdp_transformation_info x)
          | |- context [match ?x with _ => _ end] => is_var x; destruct x
          end);
  cbn [fst snd]; reflexivity.

Lemma readonly_get_var v st : (get_var v st).2 = st.
Proof. readonly. Qed.

Lemma readonly_get_constraint c st : (get_constraint c st).2 = st.
Proof. readonly. Qed.

Lemma readonly_get_dict d st : (get_dict d st).2 = st.
Proof. readonly. Qed.

Lemma readonly_get_block b st : (get_block b st).2 = st.
Proof. readonly. Qed.

Lemma readonly_get_blockcomp c st : (get_blockcomp c st).2 = st.
Proof. readonly. Qed.

Lemma readonly_get_disjunction c st : (get_disjunction c st).2 = st.
Proof. readonly. Qed.

Lemma readonly_get_indicator_var b st : (get_indicator_var b st).2 = st.
Proof. readonly. Qed.

Lemma readonly_get_info b st : (get_info b st).2 = st.
Proof. readonly. Qed.

Lemma readonly_active r st : (active r st).2 = st.
Proof. readonly. Qed.

Lemma readonly_is_indexed r st : (is_indexed r st).2 = st.
Proof. readonly. Qed.

(** *** What a run never removes *)

Lemma arena_kept_refl {A} (P : A -> A -> Prop) (l : list A) :
  (forall x, P x x) -> arena_kept P l l.
Proof. intros HP i x Hx. exists x. split; [exact Hx | apply HP]. Qed.

Lemma arena_kept_trans {A} (P : A -> A -> Prop) (l1 l2 l3 : list A) :
  (forall x y z, P x y -> P y z -> P x z) ->
  arena_kept P l1 l2 -> arena_kept P l2 l3 -> arena_kept P l1 l3.
Proof.
  intros HP A1 A2 i x Hx. destruct (A1 _ _ Hx) as (y & Hy & Pxy).
  destruct (A2 _ _ Hy) as (z & Hz & Pyz). exists z. split; [exact Hz | eauto].
Qed.

Lemma arena_kept_app {A} (P : A -> A -> Prop) (l new : list A) :
  (forall x, P x x) -> arena_kept P l (l ++ new).
Proof.
  intros HP i x Hx. exists x. split; [ | apply HP].
  apply lookup_app_l_Some. exact Hx.
Qed.

Lemma arena_kept_insert {A} (P : A -> A -> Prop) (l : list A) i x y :
  (forall x, P x x) -> l !! i = Some x -> P x y -> arena_kept P l (<[i := y]> l).
Proof.
  intros HP Hi Pxy j z Hz.
  destruct (lookup_insert_Some_cases l i j y z Hz) as [[-> E] | [N E]].
  - exists y. split; [exact E | ]. replace z with x by congruence. exact Pxy.
  - exists z. split; [exact E | apply HP].
Qed.

Lemma var_kept_refl x : var_kept x x.
Proof. repeat split; auto. Qed.

Lemma constraint_kept_refl x : constraint_kept x x.
Proof. split; [reflexivity | eauto]. Qed.

Lemma disjunction_kept_refl x : disjunction_kept x x.
Proof. repeat split; auto. intros k d Hd. exists d. auto. Qed.

Lemma blockcomp_kept_refl x : blockcomp_kept x x.
Proof. split; [destruct x; auto | auto]. Qed.

Lemma block_kept_refl x : block_kept x x.
Proof. repeat split; auto. exists []. rewrite app_nil_r. reflexivity. Qed.

Lemma dict_kept_refl x : dict_kept x x.
Proof. intros E. exact E. Qed.

Lemma stable_refl st : stable st st.
Proof.
  repeat split; apply arena_kept_refl;
    auto using var_kept_refl, constraint_kept_refl, disjunction_kept_refl,
      blockcomp_kept_refl, block_kept_refl, dict_kept_refl.
Qed.

Lemma stable_trans st1 st2 st3 : stable st1 st2 -> stable st2 st3 -> stable st1 st3.
Proof.
  intros (A1 & A2 & A3 & A4 & A5 & A6) (B1 & B2 & B3 & B4 & B5 & B6).
  repeat split.
  - eapply arena_kept_trans; [ | exact A1 | exact B1].
    intros x y z (E1 & E2 & E3) (F1 & F2 & F3). repeat split; try congruence. auto.
  - eapply arena_kept_trans; [ | exact A2 | exact B2].
    intros x y z (E1 & E2) (F1 & F2). split; [congruence | ].
    intros k d Hd. destruct (E2 _ _ Hd) as (d' & Hd'). eauto.
  - eapply arena_kept_trans; [ | exact A3 | exact B3].
    intros x y z (E1 & E2 & E3 & E4 & E5) (F1 & F2 & F3 & F4 & F5).
    repeat split; try congruence; auto.
    intros k d Hd. destruct (E5 _ _ Hd) as (d' & Hd' & X1 & X2 & X3).
    destruct (F5 _ _ Hd') as (d'' & Hd'' & Y1 & Y2 & Y3).
    exists d''. repeat split; try congruence; auto.
  - eapply arena_kept_trans; [ | exact A4 | exact B4].
    intros x y z (E1 & E2) (F1 & F2). split; [ | auto].
    destruct x, y, z; simpl in *; auto; contradiction.
  - eapply arena_kept_trans; [ | exact A5 | exact B5].
    intros x y z (E1 & E2 & E3 & m1 & E4) (F1 & F2 & F3 & m2 & F4).
    repeat split; try congruence; auto.
    exists (m1 ++ m2). rewrite F4, E4, app_assoc. reflexivity.
  - eapply arena_kept_trans; [ | exact A6 | exact B6].
    intros x y z E F. unfold dict_kept in *. auto.
Qed.

#[local] Instance stable_preorder : PreOrder stable.
Proof. split; [exact stable_refl | exact stable_trans]. Qed.

Lemma stable_set_vars st l :
  arena_kept var_kept (vars st) l -> stable st (set_vars l st).
Proof.
  intros E. destruct (stable_refl st) as (_ & A2 & A3 & A4 & A5 & A6).
  repeat split; assumption.
Qed.

Lemma stable_set_constraints st l :
  arena_kept constraint_kept (constraints st) l -> stable st (set_constraints l st).
Proof.
  intros E. destruct (stable_refl st) as (A1 & _ & A3 & A4 & A5 & A6).
  repeat split; assumption.
Qed.

Lemma stable_set_disjunctions st l :
  arena_kept disjunction_kept (disjunctions st) l -> stable st (set_disjunctions l st).
Proof.
  intros E. destruct (stable_refl st) as (A1 & A2 & _ & A4 & A5 & A6).
  repeat split; assumption.
Qed.

Lemma stable_set_blockcomps st l :
  arena_kept blockcomp_kept (blockcomps st) l -> stable st (set_blockcomps l st).
Proof.
  intros E. destruct (stable_refl st) as (A1 & A2 & A3 & _ & A5 & A6).
  repeat split; assumption.
Qed.

Lemma stable_set_blocks st l :
  arena_kept block_kept (blocks st) l -> stable st (set_blocks l st).
Proof.
  intros E. destruct (stable_refl st) as (A1 & A2 & A3 & A4 & _ & A6).
  repeat split; assumption.
Qed.

Lemma stable_set_dicts st l :
  arena_kept dict_kept (dicts st) l -> stable st (set_dicts l st).
Proof.
  intros E. destruct (stable_refl st) as (A1 & A2 & A3 & A4 & A5 & _).
  repeat split; assumption.
Qed.

Lemma stable_new_var : keeps stable new_var.
Proof.
  intros st. apply stable_set_vars, arena_kept_app, var_kept_refl.
Qed.

Lemma stable_fix_var v q : keeps stable (fix_var v q).
Proof.
  intros st. unfold fix_var, bind, get_var.
  destruct (vars st !! v) as [d | ] eqn:E; simpl; [ | apply stable_refl].
  apply stable_set_vars. eapply arena_kept_insert; [apply var_kept_refl | exact E | ].
  repeat split; auto.
Qed.

Lemma stable_new_constraint x : keeps stable (new_constraint x).
Proof.
  intros st. apply stable_set_constraints, arena_kept_app, constraint_kept_refl.
Qed.

Lemma stable_new_dict x : keeps stable (new_dict x).
Proof. intros st. apply stable_set_dicts, arena_kept_app, dict_kept_refl. Qed.

Lemma stable_new_block x : keeps stable (new_block x).
Proof. intros st. apply stable_set_blocks, arena_kept_app, block_kept_refl. Qed.

Lemma stable_new_blockcomp x : keeps stable (new_blockcomp x).
Proof.
  intros st. apply stable_set_blockcomps, arena_kept_app, blockcomp_kept_refl.
Qed.

Lemma kget_kset_Some {A} (k i : key) (x : A) (d : kdict A) (y : A) :
  kget k d = Some y -> exists y', kget k (kset i x d) = Some y'.
Proof.
  intros E. destruct (key_eqb k i) eqn:Ek.
  - apply key_eqb_eq in Ek as ->. rewrite kget_kset_eq. eauto.
  - rewrite kget_kset_ne; [eauto | ]. intros ->. rewrite key_eqb_refl in Ek. discriminate.
Qed.

Lemma stable_constraint_add c k r : keeps stable (constraint_add c k r).
Proof.
  intros st. unfold constraint_add, bind, get_constraint.
  destruct (constraints st !! c) as [x | ] eqn:E; simpl; [ | apply stable_refl].
  destruct x as [a e | a data].
  - destruct k; try apply stable_refl.
    apply stable_set_constraints.
    eapply arena_kept_insert; [apply constraint_kept_refl | exact E | ].
    split; [reflexivity | ]. intros k d Hd.
    destruct e as [e | ]; simpl in *; [ | discriminate].
    destruct k; try discriminate. eauto.
  - apply stable_set_constraints.
    eapply arena_kept_insert; [apply constraint_kept_refl | exact E | ].
    split; [reflexivity | ]. intros k' d Hd. simpl in *.
    eapply kget_kset_Some. exact Hd.
Qed.

(** Deactivating a member of a constraint. *)
Lemma stable_put_deactivated obj x i st :
  constraints st !! obj = Some x ->
  stable st (put_constraint obj (constraint_deactivate_data x i) st).2.
Proof.
  intros E. apply stable_set_constraints.
  eapply arena_kept_insert; [apply constraint_kept_refl | exact E | ].
  destruct x as [a e | a data]; simpl.
  - split; [reflexivity | ]. intros k d Hd.
    destruct e as [e | ]; simpl in *; [ | discriminate].
    destruct k; try discriminate. eauto.
  - destruct (kget i data) as [d0 | ] eqn:Ei; [ | apply constraint_kept_refl].
    split; [reflexivity | ]. intros k d Hd. simpl in *.
    eapply kget_kset_Some. exact Hd.
Qed.

Lemma stable_update_block b (f : BlockData -> BlockData) :
  (forall x, block_kept x (f x)) -> keeps stable (update_block b f).
Proof.
  intros Hf st. unfold update_block, bind, get_block.
  destruct (blocks st !! b) as [x | ] eqn:E; simpl; [ | apply stable_refl].
  apply stable_set_blocks.
  eapply arena_kept_insert; [apply block_kept_refl | exact E | apply Hf].
Qed.

Lemma stable_add_component b r : keeps stable (add_component b r).
Proof.
  apply stable_update_block. intros x. repeat split; auto. exists [r]. reflexivity.
Qed.

Lemma stable_deactivate_block b : keeps stable (update_block b (with_active false)).
Proof.
  apply stable_update_block. intros x. repeat split; auto.
  exists []. simpl. rewrite app_nil_r. reflexivity.
Qed.

Lemma stable_set_info b a : keeps stable (update_block b (with_info a)).
Proof.
  apply stable_update_block. intros x. repeat split; auto.
  exists []. simpl. rewrite app_nil_r. reflexivity.
Qed.

Lemma stable_disjContainers_add tb r : keeps stable (disjContainers_add tb r).
Proof.
  apply stable_update_block. intros x.
  destruct (bool_decide _); [apply block_kept_refl | ].
  repeat split; auto. exists []. simpl. rewrite app_nil_r. reflexivity.
Qed.

Lemma stable_update_dict d (f : InfoDict -> InfoDict) :
  (forall x, dict_kept x (f x)) -> keeps stable (update_dict d f).
Proof.
  intros Hf st. unfold update_dict, bind, get_dict.
  destruct (dicts st !! d) as [x | ] eqn:E; simpl; [ | apply stable_refl].
  apply stable_set_dicts.
  eapply arena_kept_insert; [apply dict_kept_refl | exact E | apply Hf].
Qed.

Lemma kget_map {A B} (f : A -> B) (k : key) (d : kdict A) :
  kget k (map (fun kd => (kd.1, f kd.2)) d) = f <$> kget k d.
Proof.
  induction d as [ | [k' x] d IH]; simpl; [reflexivity | ].
  destruct (key_eqb k k'); [reflexivity | exact IH].
Qed.

Lemma kkeys_map {A B} (f : A -> B) (d : kdict A) :
  kkeys (map (fun kd => (kd.1, f kd.2)) d) = kkeys d.
Proof.
  unfold kkeys. rewrite map_map. reflexivity.
Qed.

Lemma stable_deactivate_disjunction c (all : bool) :
  keeps stable
    (x <- get_disjunction c ;;
     put_disjunction c
       (mkDisjunctionComp (dc_parent_block x)
          match dc_body x with
          | SimpleDisjunction d => SimpleDisjunction (deactivated d)
          | IndexedDisjunction _ data =>
              IndexedDisjunction false
                (if all then map (fun kd => (kd.1, deactivated kd.2)) data else data)
          end)).
Proof.
  intros st. unfold bind, get_disjunction.
  destruct (disjunctions st !! c) as [x | ] eqn:E; simpl; [ | apply stable_refl].
  apply stable_set_disjunctions.
  eapply arena_kept_insert; [apply disjunction_kept_refl | exact E | ].
  destruct x as [p [d | a data]]; unfold disjunction_kept, disjunction_is_indexed,
    disjunction_active, disjunction_data; simpl.
  - repeat split; auto. intros k d0. destruct (key_eqb k KNone); [ | discriminate].
    intros [= <-]. eexists. split; [reflexivity | ]. repeat split; auto.
  - destruct all.
    + repeat split; auto; [apply kkeys_map | ].
      intros k d Hd. rewrite kget_map, Hd. simpl.
      eexists. split; [reflexivity | ]. repeat split; auto.
    + repeat split; auto. intros k d Hd. exists d. repeat split; auto.
Qed.

Lemma stable_put_blockcomp_flag c data st a :
  blockcomps st !! c = Some (IndexedBlock a data) ->
  stable st (put_blockcomp c (IndexedBlock false data) st).2.
Proof.
  intros E. apply stable_set_blockcomps.
  eapply arena_kept_insert; [apply blockcomp_kept_refl | exact E | ].
  split; simpl; auto.
Qed.

Lemma stable_deactivate r : keeps stable (deactivate r).
Proof.
  destruct r as [c | c | c | c | v | t a]; simpl;
    try (intros st; apply stable_refl).
  - intros st. unfold bind, get_constraint.
    destruct (constraints st !! c) as [x | ] eqn:E; simpl; [ | apply stable_refl].
    apply stable_set_constraints.
    eapply arena_kept_insert; [apply constraint_kept_refl | exact E | ].
    destruct x as [a e | a data]; simpl.
    + split; [reflexivity | ]. intros k d Hd.
      destruct e as [e | ]; simpl in *; [ | discriminate].
      destruct k; try discriminate. eauto.
    + split; [reflexivity | ]. intros k d Hd. simpl in *.
      rewrite (kget_map (fun x => mkCon false (con_expr x))), Hd. simpl. eauto.
  - exact (stable_deactivate_disjunction c true).
  - intros st. unfold bind at 1. unfold get_blockcomp at 1.
    destruct (blockcomps st !! c) as [[self | a data] | ] eqn:E; simpl;
      [ | | apply stable_refl].
    + apply stable_deactivate_block.
    + unfold bind. simpl. etransitivity.
      * exact (stable_put_blockcomp_flag c data st a E).
      * apply (keeps_mfor stable). intros kb. apply stable_deactivate_block.
  - intros st. unfold bind at 1. unfold get_blockcomp at 1.
    destruct (blockcomps st !! c) as [[self | a data] | ] eqn:E; simpl;
      [ | | apply stable_refl].
    + apply stable_deactivate_block.
    + unfold bind. simpl. etransitivity.
      * exact (stable_put_blockcomp_flag c data st a E).
      * apply (keeps_mfor stable). intros kb. apply stable_deactivate_block.
Qed.

Lemma stable_ActiveComponent_deactivate r : keeps stable (ActiveComponent_deactivate r).
Proof.
  destruct r as [c | c | c | c | v | t a]; simpl;
    try (intros st; apply stable_refl).
  - intros st. unfold bind, get_constraint.
    destruct (constraints st !! c) as [x | ] eqn:E; simpl; [ | apply stable_refl].
    apply stable_set_constraints.
    eapply arena_kept_insert; [apply constraint_kept_refl | exact E | ].
    destruct x as [a e | a data]; simpl.
    + split; [reflexivity | ]. intros k d Hd.
      destruct e as [e | ]; simpl in *; [ | discriminate].
      destruct k; try discriminate. eauto.
    + split; [reflexivity | ]. eauto.
  - exact (stable_deactivate_disjunction c false).
  - intros st. unfold bind at 1. unfold get_blockcomp at 1.
    destruct (blockcomps st !! c) as [[self | a data] | ] eqn:E; simpl;
      [ | | apply stable_refl].
    + apply stable_deactivate_block.
    + exact (stable_put_blockcomp_flag c data st a E).
  - intros st. unfold bind at 1. unfold get_blockcomp at 1.
    destruct (blockcomps st !! c) as [[self | a data] | ] eqn:E; simpl;
      [ | | apply stable_refl].
    + apply stable_deactivate_block.
    + exact (stable_put_blockcomp_flag c data st a E).
Qed.

Lemma stable_relaxedDisjuncts_getitem_len tb :
  keeps stable (relaxedDisjuncts_getitem_len tb).
Proof.
  intros st. unfold relaxedDisjuncts_getitem_len. unfold bind at 1.
  unfold get_blockcomp at 1.
  destruct (blockcomps st !! relaxedDisjuncts tb) as [x | ] eqn:E; simpl;
    [ | apply stable_refl].
  destruct (kget _ (blockcomp_data x)) eqn:Ek; [apply stable_refl | ].
  destruct x as [self | a data]; [apply stable_refl | ].
  unfold bind. simpl. etransitivity.
  - apply (stable_new_block (mkBlock true (RBlock (relaxedDisjuncts tb)) [] None NoAttr [])).
  - simpl. unfold ret. simpl.
    apply (stable_set_blockcomps
             (set_blocks (blocks st ++ [mkBlock true (RBlock (relaxedDisjuncts tb))
                                          [] None NoAttr []]) st)).
    simpl. eapply arena_kept_insert; [apply blockcomp_kept_refl | exact E | ].
    split; simpl; [auto | ]. intros k b Hb.
    rewrite kget_kset_ne; [exact Hb | ]. simpl in Ek. congruence.
Qed.

(** One step of a proof that a computation keeps [R]; [prim] proves it
    for the steps that write. *)
Ltac keeps_step R prim :=
  first
    [ apply (keeps_ret R) | apply (keeps_raise R) | apply (keeps_gets R)
    | apply (keeps_from_option R)
    | (apply (keeps_readonly R);
       first [ apply readonly_get_var | apply readonly_get_constraint
             | apply readonly_get_dict | apply readonly_get_block
             | apply readonly_get_blockcomp | apply readonly_get_disjunction
             | apply readonly_get_indicator_var | apply readonly_get_info
             | apply readonly_active | apply readonly_is_indexed ])
    | prim
    | (apply (keeps_bind R); [ | intros ? ])
    | (apply (keeps_mfor R); intros ?)
    | (apply (keeps_mfold R); intros ? ?)
    | match goal with
      | |- keeps _ (match ?x with _ => _ end) => destruct x
      | |- keeps _ (if ?x then _ else _) => destruct x
      end ].

Ltac stab_prim :=
  first
    [ apply stable_new_var | apply stable_fix_var
    | apply stable_new_constraint | apply stable_constraint_add
    | apply stable_new_dict | apply stable_new_block | apply stable_new_blockcomp
    | apply stable_add_component | apply stable_deactivate_block
    | apply stable_set_info | apply stable_disjContainers_add
    | apply stable_deactivate | apply stable_ActiveComponent_deactivate
    | apply stable_relaxedDisjuncts_getitem_len
    | (apply stable_update_dict; intros ? E; first [exact E | reflexivity]) ].

Ltac stab_step := keeps_step stable stab_prim.

Ltac stab := repeat stab_step.

Lemma get_constraint_inv c st x st1 :
  get_constraint c st = (Ok x, st1) -> st1 = st /\ constraints st !! c = Some x.
Proof.
  unfold get_constraint. destruct (constraints st !! c); simpl; [ | discriminate].
  intros [= -> ->]. split; reflexivity.
Qed.

Lemma from_option_inv {A} e (o : option A) st a st1 :
  from_option e o st = (Ok a, st1) -> st1 = st /\ o = Some a.
Proof. destruct o; simpl; [ | discriminate]. intros [= -> ->]. split; reflexivity. Qed.

Lemma stable_xform_constraint_index mode obj indexed newConstraint disjunct vsub zsub i :
  keeps stable
    (xform_constraint_index mode obj indexed newConstraint disjunct vsub zsub i).
Proof.
  intros st. unfold xform_constraint_index.
  apply (keeps_bind_at stable); [rewrite readonly_get_constraint; reflexivity | ].
  intros x st1 E. apply get_constraint_inv in E as [-> Hx].
  apply (keeps_bind_at stable); [apply (keeps_from_option stable) | ].
  intros c st1 E. apply from_option_inv in E as [-> Hc].
  destruct (negb (con_active c)); [reflexivity | ].
  apply (keeps_bind_at stable); [exact (stable_put_deactivated obj x i st Hx) | ].
  intros _ st1 _.
  match goal with |- stable ?s (snd (?m ?s)) => enough (K : keeps stable m) by apply K end.
  stab.
Qed.

Lemma stable_xform_constraint mode obj disjunct rb infodict vsub zsub :
  keeps stable (xform_constraint mode obj disjunct rb infodict vsub zsub).
Proof.
  unfold xform_constraint.
  repeat first [apply stable_xform_constraint_index | stab_step].
Qed.

Lemma stable_transform_component mode disjunct rb infodict vsub zsub obj :
  keeps stable (transform_component mode disjunct rb infodict vsub zsub obj).
Proof.
  unfold transform_component.
  apply (keeps_bind stable); [stab_step | intros a].
  destruct (is_inactive a); [apply (keeps_ret stable) | ].
  destruct (handlers (type obj)) as [[ | | | | ] | ];
    first [ apply stable_xform_constraint
          | unfold warn_for_active_disjunction, warn_for_active_disjunct,
              transform_block_on_disjunct; solve [stab] ].
Qed.

Lemma stable_transform_block_components mode block disjunct rb infodict vsub zsub :
  keeps stable (transform_block_components mode block disjunct rb infodict vsub zsub).
Proof.
  unfold transform_block_components.
  apply (keeps_bind stable); [stab_step | intros b].
  apply (keeps_mfor stable). intros obj. apply stable_transform_component.
Qed.

Lemma stable_transform_disjunct mode obj tb varSet :
  keeps stable (transform_disjunct mode obj tb varSet).
Proof.
  unfold transform_disjunct, disaggregate_and_transform, disaggregate_var.
  repeat first [apply stable_transform_block_components | stab_step].
Qed.

Lemma stable_getDisjunctionConstraints c : keeps stable (getDisjunctionConstraints c).
Proof. unfold getDisjunctionConstraints. stab. Qed.

Lemma stable_identify_variables e : keeps stable (identify_variables e).
Proof. unfold identify_variables. stab. Qed.

Lemma stable_active_constraints fuel :
  forall b, keeps stable (active_constraints fuel b).
Proof.
  induction fuel as [ | fuel IH]; intros b; simpl; [apply (keeps_raise stable) | ].
  repeat first [apply IH | stab_step].
Qed.

Lemma stable_collect_varSet fuel disjs : keeps stable (collect_varSet fuel disjs).
Proof.
  unfold collect_varSet, component_body.
  repeat first [ apply stable_active_constraints | apply stable_identify_variables
               | stab_step ].
Qed.

Lemma stable_transformDisjunctionData fuel mode obj tb index :
  keeps stable (transformDisjunctionData fuel mode obj tb index).
Proof.
  unfold transformDisjunctionData, relax_disjuncts, disaggregatedVar_of.
  repeat first [ apply stable_collect_varSet | apply stable_transform_disjunct
               | apply stable_getDisjunctionConstraints | stab_step ].
Qed.

Lemma stable_transformDisjunction fuel mode obj tb :
  keeps stable (transformDisjunction fuel mode obj tb).
Proof.
  unfold transformDisjunction.
  repeat first [ apply stable_transformDisjunctionData | stab_step ].
Qed.

Lemma stable_transformBlockData fuel mode tb :
  forall obj, keeps stable (transformBlockData fuel mode obj tb).
Proof.
  induction fuel as [ | fuel IH]; intros obj; simpl; [apply (keeps_raise stable) | ].
  repeat first [ apply IH | apply stable_transformDisjunction | stab_step ].
Qed.

Lemma stable_apply_to_target fuel mode tb t :
  keeps stable (apply_to_target fuel mode tb t).
Proof.
  unfold apply_to_target, find_component, target_active, transform_target, transformBlock.
  apply (keeps_bind stable); [intros st; apply stable_refl | intros o].
  repeat first [ apply stable_transformBlockData | apply stable_transformDisjunction
               | apply stable_transformDisjunctionData | stab_step ].
Qed.

Lemma stable_deactivate_container obj : keeps stable (deactivate_container obj).
Proof. unfold deactivate_container. stab. Qed.

Lemma stable_make_transBlock instance : keeps stable (make_transBlock instance).
Proof. unfold make_transBlock. stab. Qed.

(** X1. Whatever its outcome, a run on given targets removes no object
    of the model: every variable keeps its bounds and stays fixed once it
    is; every block keeps its indicator variable, its parent and its
    components in their order (new ones are appended) and stays inactive
    once it is; every disjunction keeps its parent block and its keys,
    each member its [xor] flag and its disjuncts, and the disjunction and
    its members stay inactive once they are; every constraint component
    stays scalar or indexed and loses no member.  Nothing is said of the
    [active] flag of a constraint: [add] writes an active member, also
    over a member that was deactivated. *)
Theorem run_removes_nothing
    (fuel : nat) (instance : bid) (targets : list target) (nl_mode : Z) (st : state) :
  stable st (apply_to fuel instance (Some targets) nl_mode st).2.
Proof.
  revert st.
  change (keeps stable (apply_to fuel instance (Some targets) nl_mode)).
  unfold apply_to.
  repeat first [ apply stable_make_transBlock | apply stable_apply_to_target
               | apply stable_deactivate_container | stab_step ].
Qed.

(** *** What the rewritten constraints say *)

Lemma eval_ext (rho1 rho2 : vid -> Q) (e : expr) :
  (forall v, rho1 v == rho2 v)%Q -> (eval rho1 e == eval rho2 e)%Q.
Proof.
  intros E. induction e as [q | v | a IHa b IHb | a IHa b IHb | a IHa b IHb
                            | a IHa b IHb | a IHa n]; simpl.
  - reflexivity.
  - apply E.
  - rewrite IHa, IHb. reflexivity.
  - rewrite IHa, IHb. reflexivity.
  - rewrite IHa, IHb. reflexivity.
  - rewrite IHa, IHb. reflexivity.
  - rewrite IHa. reflexivity.
Qed.

(** The value of a clone is the value of the original under the
    valuation that evaluates what was substituted. *)
Lemma eval_clone (rho : vid -> Q) (e : expr) (f : vid -> expr) (m : gmap vid vid) :
  (eval rho (clone_expression e (f <$> m)) ==
   eval (fun v => match m !! v with
                  | Some dv => eval rho (f dv)
                  | None => rho v
                  end) e)%Q.
Proof.
  induction e as [q | v | a IHa b IHb | a IHa b IHb | a IHa b IHb
                  | a IHa b IHb | a IHa n]; simpl.
  - reflexivity.
  - rewrite lookup_fmap. destruct (m !! v); reflexivity.
  - rewrite IHa, IHb. reflexivity.
  - rewrite IHa, IHb. reflexivity.
  - rewrite IHa, IHb. reflexivity.
  - rewrite IHa, IHb. reflexivity.
  - rewrite IHa. reflexivity.
Qed.

Lemma eval_clone_copies (rho : vid -> Q) (e : expr) (m : gmap vid vid) :
  (eval rho (clone_expression e (Var <$> m)) == eval (at_copies rho m) e)%Q.
Proof. rewrite eval_clone. reflexivity. Qed.

Lemma eval_clone_zero (rho : vid -> Q) (e : expr) (m : gmap vid vid) :
  (eval rho (clone_expression e ((fun _ => Const 0) <$> m)) == eval (at_zero rho m) e)%Q.
Proof. rewrite (eval_clone rho e (fun _ => Const 0)). reflexivity. Qed.

(** When every copy is at 0 the two valuations agree. *)
Lemma at_copies_zero (rho : vid -> Q) (m : gmap vid vid) (e : expr) :
  (forall v dv, m !! v = Some dv -> rho dv == 0)%Q ->
  (eval (at_copies rho m) e == eval (at_zero rho m) e)%Q.
Proof.
  intros E. apply eval_ext. intros v. unfold at_copies, at_zero.
  destruct (m !! v) as [dv | ] eqn:Ev; [exact (E v dv Ev) | reflexivity].
Qed.

(** The rewrite of a member: the original is deactivated, then the sides
    are added to the new constraint. *)
Ltac xform_emits Hx Hc Ha HNL Hne Hnew Hbd Hy tac :=
  match goal with
  | |- exists st',
         xform_constraint_index _ ?obj ?indexed ?nc _ _ _ ?i ?st = _ /\
         _ = match lower (con_expr ?c) with Some L => Some (@?flo L) | None => _ end /\
         _ = match upper (con_expr ?c) with Some U => Some (@?fup U) | None => _ end =>
      let st1 := fresh "st1" in
      let Hnew1 := fresh "Hnew1" in
      let st' := fresh "st'" in
      let Hrun := fresh "Hrun" in
      let Hlo := fresh "Hlo" in
      let Hup := fresh "Hup" in
      let Hframe := fresh "Hframe" in
      match type of Hx with
      | _ = Some ?x =>
          set (st1 := set_constraints
                        (<[obj := constraint_deactivate_data x i]> (constraints st)) st)
      end;
      match type of Hnew with
      | _ = Some (IndexedConstraint ?a ?data) =>
          assert (Hnew1 : constraints st1 !! nc = Some (IndexedConstraint a data))
            by (unfold st1; simpl; rewrite list_lookup_insert_ne by congruence; exact Hnew);
          destruct (add_sides st1 nc a data (side_key indexed i lb) (side_key indexed i ub)
                      (flo <$> lower (con_expr c)) (fup <$> upper (con_expr c))
                      Hnew1 (side_key_lb_ub indexed i)) as (st' & Hrun & Hlo & Hup)
      end;
      assert (Hframe : forall k, emitted st1 nc k = emitted st nc k)
        by (intros k; unfold st1; apply emitted_set_ne; exact Hne);
      exists st'; split; [ | split];
      [ rewrite <- Hrun; clear Hrun Hlo Hup;
        xform_start Hx Hc Ha Hbd Hy; rewrite HNL; simpl; tac;
        unfold st1, set_constraints;
        destruct (lower (con_expr c)), (upper (con_expr c)); simpl;
        rewrite ?constraint_add_side; reflexivity
      | rewrite Hlo; destruct (lower (con_expr c)); simpl; [reflexivity | apply Hframe]
      | rewrite Hup; destruct (upper (con_expr c)); simpl; [reflexivity | apply Hframe] ]
  end.

Lemma xform_emits_linear
    (mode : Z) (obj newConstraint : cid) (indexed : bool) (disjunct : bid)
    (vsub zsub : gmap vid expr) (i : key) (st : state)
    (x : ConstraintComp) (c : ConstraintData) (a : bool) (data : kdict ConstraintData)
    (bd : BlockData) (y : vid) :
  constraints st !! obj = Some x ->
  constraint_getitem x i = Some c ->
  con_active c = true ->
  not_in_0_1 (polynomial_degree (vars st) (body (con_expr c))) = false ->
  newConstraint <> obj ->
  constraints st !! newConstraint = Some (IndexedConstraint a data) ->
  blocks st !! disjunct = Some bd ->
  indicator_var bd = Some y ->
  exists st',
    xform_constraint_index mode obj indexed newConstraint disjunct vsub zsub i st
      = (Ok tt, st') /\
    emitted st' newConstraint (side_key indexed i lb) =
      match lower (con_expr c) with
      | Some L =>
          Some (Ge (Sub (clone_expression (body (con_expr c)) vsub)
                        (Mul (Sub (Const 1) (Var y))
                             (clone_expression (body (con_expr c)) zsub)))
                   (Mul (Const L) (Var y)))
      | None => emitted st newConstraint (side_key indexed i lb)
      end /\
    emitted st' newConstraint (side_key indexed i ub) =
      match upper (con_expr c) with
      | Some U =>
          Some (Le (Sub (clone_expression (body (con_expr c)) vsub)
                        (Mul (Sub (Const 1) (Var y))
                             (clone_expression (body (con_expr c)) zsub)))
                   (Mul (Const U) (Var y)))
      | None => emitted st newConstraint (side_key indexed i ub)
      end.
Proof.
  intros Hx Hc Ha HNL Hne Hnew Hbd Hy.
  xform_emits Hx Hc Ha HNL Hne Hnew Hbd Hy idtac.
Qed.

Lemma xform_emits_nonlinear
    (mode : Z) (obj newConstraint : cid) (indexed : bool) (disjunct : bid)
    (m : gmap vid vid) (zsub : gmap vid expr) (i : key) (st : state)
    (x : ConstraintComp) (c : ConstraintData) (a : bool) (data : kdict ConstraintData)
    (bd : BlockData) (y : vid) (scale : expr) (tail : expr -> expr) :
  constraints st !! obj = Some x ->
  constraint_getitem x i = Some c ->
  con_active c = true ->
  not_in_0_1 (polynomial_degree (vars st) (body (con_expr c))) = true ->
  newConstraint <> obj ->
  constraints st !! newConstraint = Some (IndexedConstraint a data) ->
  blocks st !! disjunct = Some bd ->
  indicator_var bd = Some y ->
  (mode = NL_Mode_LeeGrossmann /\ scale = Var y /\
   tail = (fun e => Mul e (Var y)) \/
   mode = NL_Mode_GrossmannLee /\ scale = Add (Var y) (Const EPS) /\
   tail = (fun e => Mul (Add (Var y) (Const EPS)) e) \/
   mode = NL_Mode_FurmanSawayaGrossmann /\
   scale = Add (Mul (Const (1 - EPS)) (Var y)) (Const EPS) /\
   tail = (fun e =>
     Sub (Mul (Add (Mul (Const (1 - EPS)) (Var y)) (Const EPS)) e)
         (Mul (Mul (Const EPS) (clone_expression (body (con_expr c)) zsub))
              (Sub (Const 1) (Var y))))) ->
  exists st',
    xform_constraint_index mode obj indexed newConstraint disjunct (Var <$> m) zsub i st
      = (Ok tt, st') /\
    emitted st' newConstraint (side_key indexed i lb) =
      match lower (con_expr c) with
      | Some L =>
          Some (Ge (tail (clone_expression (body (con_expr c))
                            ((fun dv => Div (Var dv) scale) <$> m)))
                   (Mul (Const L) (Var y)))
      | None => emitted st newConstraint (side_key indexed i lb)
      end /\
    emitted st' newConstraint (side_key indexed i ub) =
      match upper (con_expr c) with
      | Some U =>
          Some (Le (tail (clone_expression (body (con_expr c))
                            ((fun dv => Div (Var dv) scale) <$> m)))
                   (Mul (Const U) (Var y)))
      | None => emitted st newConstraint (side_key indexed i ub)
      end.
Proof.
  intros Hx Hc Ha HNL Hne Hnew Hbd Hy
    [(-> & -> & ->) | [(-> & -> & ->) | (-> & -> & ->)]];
    xform_emits Hx Hc Ha HNL Hne Hnew Hbd Hy
      ltac:(rewrite <- map_fmap_compose; unfold compose).
Qed.

(** X2. A member of a constraint whose body has degree 0 or 1, rewritten
    for a disjunct with indicator [y]: when [y] is 1 the new constraint
    holds exactly when the original bound holds for the body read at the
    copies of the variables; when [y] is 0 and every copy is 0 it holds. *)
Theorem linear_rewrite_semantics
    (mode : Z) (obj newConstraint : cid) (indexed : bool) (disjunct : bid)
    (m : gmap vid vid) (i : key) (st : state)
    (x : ConstraintComp) (c : ConstraintData) (a : bool) (data : kdict ConstraintData)
    (bd : BlockData) (y : vid) :
  constraints st !! obj = Some x ->
  constraint_getitem x i = Some c ->
  con_active c = true ->
  not_in_0_1 (polynomial_degree (vars st) (body (con_expr c))) = false ->
  newConstraint <> obj ->
  constraints st !! newConstraint = Some (IndexedConstraint a data) ->
  blocks st !! disjunct = Some bd ->
  indicator_var bd = Some y ->
  exists st',
    xform_constraint_index mode obj indexed newConstraint disjunct
      (Var <$> m) ((fun _ => Const 0) <$> m) i st = (Ok tt, st') /\
    (forall L, lower (con_expr c) = Some L ->
       exists r, emitted st' newConstraint (side_key indexed i lb) = Some r /\
         forall rho : vid -> Q,
           (rho y == 1 ->
            (holds rho r <-> L <= eval (at_copies rho m) (body (con_expr c))))%Q /\
           (rho y == 0 -> (forall v dv, m !! v = Some dv -> rho dv == 0) ->
            holds rho r)%Q) /\
    (forall U, upper (con_expr c) = Some U ->
       exists r, emitted st' newConstraint (side_key indexed i ub) = Some r /\
         forall rho : vid -> Q,
           (rho y == 1 ->
            (holds rho r <-> eval (at_copies rho m) (body (con_expr c)) <= U))%Q /\
           (rho y == 0 -> (forall v dv, m !! v = Some dv -> rho dv == 0) ->
            holds rho r)%Q).
Proof.
  intros Hx Hc Ha HNL Hne Hnew Hbd Hy.
  destruct (xform_emits_linear mode obj newConstraint indexed disjunct
              (Var <$> m) ((fun _ => Const 0) <$> m) i st x c a data bd y
              Hx Hc Ha HNL Hne Hnew Hbd Hy) as (st' & Hrun & Hlo & Hup).
  exists st'. split; [exact Hrun | ]. split.
  - intros L HL. rewrite HL in Hlo. eexists. split; [exact Hlo | ].
    intros rho. simpl. split.
    + intros Hy1. rewrite eval_clone_copies, eval_clone_zero, Hy1.
      split; intros Hh; lra.
    + intros Hy0 Hz. rewrite eval_clone_copies, eval_clone_zero, Hy0.
      rewrite (at_copies_zero rho m _ Hz). lra.
  - intros U HU. rewrite HU in Hup. eexists. split; [exact Hup | ].
    intros rho. simpl. split.
    + intros Hy1. rewrite eval_clone_copies, eval_clone_zero, Hy1.
      split; intros Hh; lra.
    + intros Hy0 Hz. rewrite eval_clone_copies, eval_clone_zero, Hy0.
      rewrite (at_copies_zero rho m _ Hz). lra.
Qed.

(** The value of the body with each copy divided by a scale. *)
Lemma eval_clone_scaled (rho : vid -> Q) (e scale : expr) (m : gmap vid vid) :
  (eval rho scale == 1)%Q ->
  (eval rho (clone_expression e ((fun dv => Div (Var dv) scale) <$> m)) ==
   eval (at_copies rho m) e)%Q.
Proof.
  intros E. rewrite (eval_clone rho e (fun dv => Div (Var dv) scale)).
  apply eval_ext. intros v. unfold at_copies.
  destruct (m !! v); simpl; [ | reflexivity]. rewrite E. field.
Qed.

Lemma eval_clone_scaled_zero (rho : vid -> Q) (e scale : expr) (m : gmap vid vid) :
  (forall v dv, m !! v = Some dv -> rho dv == 0)%Q ->
  (eval rho (clone_expression e ((fun dv => Div (Var dv) scale) <$> m)) ==
   eval (at_zero rho m) e)%Q.
Proof.
  intros E. rewrite (eval_clone rho e (fun dv => Div (Var dv) scale)).
  apply eval_ext. intros v. unfold at_zero.
  destruct (m !! v) as [dv | ] eqn:Ev; simpl; [ | reflexivity].
  rewrite (E v dv Ev). unfold Qdiv. ring.
Qed.

(** Whether an expression can be evaluated depends on the values of the
    variables only. *)
Lemma defined_ext (rho1 rho2 : vid -> Q) (e : expr) :
  (forall v, rho1 v == rho2 v)%Q -> (defined rho1 e <-> defined rho2 e).
Proof.
  intros E. induction e as [q | v | a IHa b IHb | a IHa b IHb | a IHa b IHb
                            | a IHa b IHb | a IHa n]; simpl;
    try rewrite IHa; try rewrite IHb; try reflexivity.
  rewrite (eval_ext rho1 rho2 b E). reflexivity.
Qed.

(** A clone can be evaluated where the original can, under the valuation
    that evaluates what was substituted. *)
Lemma defined_clone (rho : vid -> Q) (e : expr) (f : vid -> expr) (m : gmap vid vid) :
  (forall dv, defined rho (f dv)) ->
  (defined rho (clone_expression e (f <$> m)) <->
   defined (fun v => match m !! v with
                     | Some dv => eval rho (f dv)
                     | None => rho v
                     end) e).
Proof.
  intros Hf. induction e as [q | v | a IHa b IHb | a IHa b IHb | a IHa b IHb
                             | a IHa b IHb | a IHa n]; simpl;
    try rewrite IHa; try rewrite IHb; try reflexivity.
  - rewrite lookup_fmap. destruct (m !! v); simpl; [ | reflexivity].
    split; [auto | intros _; apply Hf].
  - rewrite (eval_clone rho b f m). reflexivity.
Qed.

Lemma defined_clone_zero (rho : vid -> Q) (e : expr) (m : gmap vid vid) :
  defined rho (clone_expression e ((fun _ => Const 0) <$> m)) <-> defined (at_zero rho m) e.
Proof. rewrite (defined_clone rho e (fun _ => Const 0) m); [reflexivity | intros; exact I]. Qed.

Lemma defined_clone_scaled (rho : vid -> Q) (e scale : expr) (m : gmap vid vid) :
  defined rho scale -> (eval rho scale == 1)%Q ->
  (defined rho (clone_expression e ((fun dv => Div (Var dv) scale) <$> m)) <->
   defined (at_copies rho m) e).
Proof.
  intros Hs E. rewrite (defined_clone rho e (fun dv => Div (Var dv) scale) m).
  - apply defined_ext. intros v. unfold at_copies.
    destruct (m !! v); simpl; [ | reflexivity]. rewrite E. field.
  - intros dv. simpl. split; [exact I | ]. split; [exact Hs | ]. rewrite E. discriminate.
Qed.

Lemma defined_clone_scaled_zero (rho : vid -> Q) (e scale : expr) (m : gmap vid vid) :
  defined rho scale -> ~ (eval rho scale == 0)%Q ->
  (forall v dv, m !! v = Some dv -> rho dv == 0)%Q ->
  (defined rho (clone_expression e ((fun dv => Div (Var dv) scale) <$> m)) <->
   defined (at_zero rho m) e).
Proof.
  intros Hs Hn E. rewrite (defined_clone rho e (fun dv => Div (Var dv) scale) m).
  - apply defined_ext. intros v. unfold at_zero.
    destruct (m !! v) as [dv | ] eqn:Ev; simpl; [ | reflexivity].
    rewrite (E v dv Ev). unfold Qdiv. ring.
  - intros dv. simpl. split; [exact I | ]. split; [exact Hs | exact Hn].
Qed.

(** X3. A member of a constraint with a nonlinear body, rewritten under
    the numerically robust formulation (the default).  The new constraint
    contains the body at the origin, so it can be evaluated only where the
    body has no division by zero at the origin.  Where the body can be
    evaluated at the origin and at the copies and the indicator is 1, the
    new constraint can be evaluated and holds exactly when the original
    bound holds for the body read at the copies; where the body can be
    evaluated at the origin, the indicator is 0 and every copy is 0, it
    can be evaluated and holds. *)
Theorem robust_rewrite_semantics
    (obj newConstraint : cid) (indexed : bool) (disjunct : bid)
    (m : gmap vid vid) (i : key) (st : state)
    (x : ConstraintComp) (c : ConstraintData) (a : bool) (data : kdict ConstraintData)
    (bd : BlockData) (y : vid) :
  constraints st !! obj = Some x ->
  constraint_getitem x i = Some c ->
  con_active c = true ->
  not_in_0_1 (polynomial_degree (vars st) (body (con_expr c))) = true ->
  newConstraint <> obj ->
  constraints st !! newConstraint = Some (IndexedConstraint a data) ->
  blocks st !! disjunct = Some bd ->
  indicator_var bd = Some y ->
  exists st',
    xform_constraint_index NL_Mode_FurmanSawayaGrossmann obj indexed newConstraint
      disjunct (Var <$> m) ((fun _ => Const 0) <$> m) i st = (Ok tt, st') /\
    (forall L, lower (con_expr c) = Some L ->
       exists r, emitted st' newConstraint (side_key indexed i lb) = Some r /\
         forall rho : vid -> Q,
           (defined_relation rho r -> defined (at_zero rho m) (body (con_expr c))) /\
           (rho y == 1 ->
            defined (at_copies rho m) (body (con_expr c)) ->
            defined (at_zero rho m) (body (con_expr c)) ->
            defined_relation rho r /\
            (holds rho r <-> L <= eval (at_copies rho m) (body (con_expr c))))%Q /\
           (rho y == 0 -> (forall v dv, m !! v = Some dv -> rho dv == 0) ->
            defined (at_zero rho m) (body (con_expr c)) ->
            defined_relation rho r /\ holds rho r)%Q) /\
    (forall U, upper (con_expr c) = Some U ->
       exists r, emitted st' newConstraint (side_key indexed i ub) = Some r /\
         forall rho : vid -> Q,
           (defined_relation rho r -> defined (at_zero rho m) (body (con_expr c))) /\
           (rho y == 1 ->
            defined (at_copies rho m) (body (con_expr c)) ->
            defined (at_zero rho m) (body (con_expr c)) ->
            defined_relation rho r /\
            (holds rho r <-> eval (at_copies rho m) (body (con_expr c)) <= U))%Q /\
           (rho y == 0 -> (forall v dv, m !! v = Some dv -> rho dv == 0) ->
            defined (at_zero rho m) (body (con_expr c)) ->
            defined_relation rho r /\ holds rho r)%Q).
Proof.
  intros Hx Hc Ha HNL Hne Hnew Hbd Hy.
  destruct (xform_emits_nonlinear NL_Mode_FurmanSawayaGrossmann obj newConstraint indexed
              disjunct m ((fun _ => Const 0) <$> m) i st x c a data bd y _ _
              Hx Hc Ha HNL Hne Hnew Hbd Hy
              (or_intror (or_intror (conj eq_refl (conj eq_refl eq_refl)))))
    as (st' & Hrun & Hlo & Hup).
  set (scale := Add (Mul (Const (1 - EPS)) (Var y)) (Const EPS)) in *.
  assert (Sd : forall rho : vid -> Q, defined rho scale).
  { intros rho. simpl. auto. }
  assert (S1 : forall rho : vid -> Q, (rho y == 1)%Q -> (eval rho scale == 1)%Q).
  { intros rho E. simpl. rewrite E. unfold EPS. reflexivity. }
  assert (S0 : forall rho : vid -> Q, (rho y == 0)%Q -> ~ (eval rho scale == 0)%Q).
  { intros rho E. simpl. rewrite E. unfold EPS. discriminate. }
  exists st'. split; [exact Hrun | ]. split.
  - intros L HL. rewrite HL in Hlo. eexists. split; [exact Hlo | ].
    intros rho. split; [ | split].
    + simpl. rewrite defined_clone_zero. tauto.
    + intros Hy1 Dc Dz. split.
      * simpl. fold scale.
        rewrite (defined_clone_scaled rho _ scale m (Sd rho) (S1 rho Hy1)).
        rewrite defined_clone_zero. tauto.
      * simpl holds. simpl eval at 1 2. fold scale.
        rewrite (eval_clone_scaled rho _ _ m (S1 rho Hy1)).
        cbn [eval]. rewrite Hy1. split; intros Hh; unfold EPS in *; lra.
    + intros Hy0 Hz Dz. split.
      * simpl. fold scale.
        rewrite (defined_clone_scaled_zero rho _ scale m (Sd rho) (S0 rho Hy0) Hz).
        rewrite defined_clone_zero. tauto.
      * simpl holds. simpl eval at 1 2. fold scale.
        rewrite (eval_clone_scaled_zero rho _ _ m Hz), eval_clone_zero.
        cbn [eval]. rewrite Hy0. unfold EPS. lra.
  - intros U HU. rewrite HU in Hup. eexists. split; [exact Hup | ].
    intros rho. split; [ | split].
    + simpl. rewrite defined_clone_zero. tauto.
    + intros Hy1 Dc Dz. split.
      * simpl. fold scale.
        rewrite (defined_clone_scaled rho _ scale m (Sd rho) (S1 rho Hy1)).
        rewrite defined_clone_zero. tauto.
      * simpl holds. simpl eval at 1 2. fold scale.
        rewrite (eval_clone_scaled rho _ _ m (S1 rho Hy1)).
        cbn [eval]. rewrite Hy1. split; intros Hh; unfold EPS in *; lra.
    + intros Hy0 Hz Dz. split.
      * simpl. fold scale.
        rewrite (defined_clone_scaled_zero rho _ scale m (Sd rho) (S0 rho Hy0) Hz).
        rewrite defined_clone_zero. tauto.
      * simpl holds. simpl eval at 1 2. fold scale.
        rewrite (eval_clone_scaled_zero rho _ _ m Hz), eval_clone_zero.
        cbn [eval]. rewrite Hy0. unfold EPS. lra.
Qed.

(** X4. Under the formulation of Lee and Grossmann an active constraint
    with a nonlinear body is rewritten into [expr >= L*y] and
    [expr <= U*y] with [expr = body[v := disagg(v)/y] * y]; when the
    indicator is 1, [expr] has the value of the body at the copies. *)
Theorem lee_grossmann_rewrite
    (obj newConstraint : cid) (indexed : bool) (disjunct : bid)
    (m : gmap vid vid) (i : key) (st : state)
    (x : ConstraintComp) (c : ConstraintData) (a : bool) (data : kdict ConstraintData)
    (bd : BlockData) (y : vid) :
  constraints st !! obj = Some x ->
  constraint_getitem x i = Some c ->
  con_active c = true ->
  not_in_0_1 (polynomial_degree (vars st) (body (con_expr c))) = true ->
  newConstraint <> obj ->
  constraints st !! newConstraint = Some (IndexedConstraint a data) ->
  blocks st !! disjunct = Some bd ->
  indicator_var bd = Some y ->
  let expr :=
    Mul (clone_expression (body (con_expr c)) ((fun dv => Div (Var dv) (Var y)) <$> m))
        (Var y) in
  exists st',
    xform_constraint_index NL_Mode_LeeGrossmann obj indexed newConstraint
      disjunct (Var <$> m) ((fun _ => Const 0) <$> m) i st = (Ok tt, st') /\
    emitted st' newConstraint (side_key indexed i lb) =
      match lower (con_expr c) with
      | Some L => Some (Ge expr (Mul (Const L) (Var y)))
      | None => emitted st newConstraint (side_key indexed i lb)
      end /\
    emitted st' newConstraint (side_key indexed i ub) =
      match upper (con_expr c) with
      | Some U => Some (Le expr (Mul (Const U) (Var y)))
      | None => emitted st newConstraint (side_key indexed i ub)
      end /\
    forall rho : vid -> Q,
      (rho y == 1 -> eval rho expr == eval (at_copies rho m) (body (con_expr c)))%Q.
Proof.
  intros Hx Hc Ha HNL Hne Hnew Hbd Hy expr.
  destruct (xform_emits_nonlinear NL_Mode_LeeGrossmann obj newConstraint indexed
              disjunct m ((fun _ => Const 0) <$> m) i st x c a data bd y _ _
              Hx Hc Ha HNL Hne Hnew Hbd Hy
              (or_introl (conj eq_refl (conj eq_refl eq_refl))))
    as (st' & Hrun & Hlo & Hup).
  exists st'. split; [exact Hrun | ]. split; [exact Hlo | ]. split; [exact Hup | ].
  intros rho Hy1. unfold expr. cbn [eval].
  rewrite (eval_clone_scaled rho _ (Var y) m Hy1), Hy1. ring.
Qed.

(** X5. Under the formulation of Grossmann and Lee an active constraint
    with a nonlinear body is rewritten into [expr >= L*y] and
    [expr <= U*y] with [expr = (y+EPS) * body[v := disagg(v)/(y+EPS)]];
    when the indicator and every copy are 0, [expr] is [EPS] times the
    body at the origin, which the rewritten bound [<= 0] need not
    admit. *)
Theorem grossmann_lee_rewrite
    (obj newConstraint : cid) (indexed : bool) (disjunct : bid)
    (m : gmap vid vid) (i : key) (st : state)
    (x : ConstraintComp) (c : ConstraintData) (a : bool) (data : kdict ConstraintData)
    (bd : BlockData) (y : vid) :
  constraints st !! obj = Some x ->
  constraint_getitem x i = Some c ->
  con_active c = true ->
  not_in_0_1 (polynomial_degree (vars st) (body (con_expr c))) = true ->
  newConstraint <> obj ->
  constraints st !! newConstraint = Some (IndexedConstraint a data) ->
  blocks st !! disjunct = Some bd ->
  indicator_var bd = Some y ->
  let scale := Add (Var y) (Const EPS) in
  let expr :=
    Mul scale
        (clone_expression (body (con_expr c)) ((fun dv => Div (Var dv) scale) <$> m)) in
  exists st',
    xform_constraint_index NL_Mode_GrossmannLee obj indexed newConstraint
      disjunct (Var <$> m) ((fun _ => Const 0) <$> m) i st = (Ok tt, st') /\
    emitted st' newConstraint (side_key indexed i lb) =
      match lower (con_expr c) with
      | Some L => Some (Ge expr (Mul (Const L) (Var y)))
      | None => emitted st newConstraint (side_key indexed i lb)
      end /\
    emitted st' newConstraint (side_key indexed i ub) =
      match upper (con_expr c) with
      | Some U => Some (Le expr (Mul (Const U) (Var y)))
      | None => emitted st newConstraint (side_key indexed i ub)
      end /\
    forall rho : vid -> Q,
      (rho y == 0 -> (forall v dv, m !! v = Some dv -> rho dv == 0) ->
       eval rho expr == EPS * eval (at_zero rho m) (body (con_expr c)))%Q.
Proof.
  intros Hx Hc Ha HNL Hne Hnew Hbd Hy scale expr.
  destruct (xform_emits_nonlinear NL_Mode_GrossmannLee obj newConstraint indexed
              disjunct m ((fun _ => Const 0) <$> m) i st x c a data bd y _ _
              Hx Hc Ha HNL Hne Hnew Hbd Hy
              (or_intror (or_introl (conj eq_refl (conj eq_refl eq_refl)))))
    as (st' & Hrun & Hlo & Hup).
  exists st'. split; [exact Hrun | ]. split; [exact Hlo | ]. split; [exact Hup | ].
  intros rho Hy0 Hz. unfold expr. cbn [eval].
  rewrite (eval_clone_scaled_zero rho _ scale m Hz). unfold scale. cbn [eval].
  rewrite Hy0. ring.
Qed.

(** *** [h_0] is bound when it is read *)

Lemma raises_bind {A B} (m : M A) (f : A -> M B) st e :
  (bind m f st).1 = Err e ->
  (m st).1 = Err e \/ exists a st1, m st = (Ok a, st1) /\ (f a st1).1 = Err e.
Proof.
  unfold bind. destruct (m st) as [[a | e'] st1]; simpl.
  - intros E. right. exists a, st1. split; [reflexivity | exact E].
  - intros E. left. injection E as ->. reflexivity.
Qed.

Lemma raises_constraint_add c k r st e :
  (constraint_add c k r st).1 = Err e -> e = DanglingReference \/ e = ValueError.
Proof.
  unfold constraint_add, bind, get_constraint.
  destruct (constraints st !! c) as [[a e0 | a data] | ]; simpl.
  - destruct k; simpl; intros [= <-] || discriminate; auto.
  - discriminate.
  - intros [= <-]. auto.
Qed.

Lemma raises_add_side (indexed : bool) c i side r st e :
  ((if indexed then constraint_add c (KTuple [i; side]) r
    else constraint_add c side r) st).1 = Err e ->
  e = DanglingReference \/ e = ValueError.
Proof. destruct indexed; apply raises_constraint_add. Qed.

(** X6. The rewrite of a member of a constraint never raises
    [UnboundLocalError]: [h_0], which is bound only when the body is
    linear or the formulation is the numerically robust one, is read only
    in these two cases. *)
Theorem h_0_is_bound_when_read
    (mode : Z) (obj newConstraint : cid) (indexed : bool) (disjunct : bid)
    (vsub zsub : gmap vid expr) (i : key) (st : state) (name : string) :
  (xform_constraint_index mode obj indexed newConstraint disjunct vsub zsub i st).1
  <> Err (UnboundLocalError name).
Proof.
  unfold xform_constraint_index. intros E.
  apply raises_bind in E as [E | (x & st1 & E1 & E)].
  { unfold get_constraint in E. destruct (constraints st !! obj); discriminate. }
  apply raises_bind in E as [E | (c & st2 & E2 & E)].
  { destruct (constraint_getitem x i); discriminate. }
  destruct (negb (con_active c)); [discriminate | ].
  apply raises_bind in E as [E | (u & st3 & E3 & E)]; [discriminate | ].
  apply raises_bind in E as [E | (vs & st4 & E4 & E)]; [discriminate | ].
  apply raises_bind in E as [E | (y & st5 & E5 & E)].
  { unfold get_indicator_var, bind, get_block in E.
    destruct (blocks st4 !! disjunct) as [b | ]; simpl in E; [ | discriminate].
    destruct (indicator_var b); discriminate. }
  destruct (not_in_0_1 (polynomial_degree vs (body (con_expr c)))) eqn:NL; simpl in E.
  - (* nonlinear: [h_0] is read by the robust formulation only *)
    apply raises_bind in E as [E | (e0 & st6 & E6 & E)].
    { destruct (mode =? NL_Mode_LeeGrossmann)%Z; [discriminate | ].
      destruct (mode =? NL_Mode_GrossmannLee)%Z; [discriminate | ].
      destruct (mode =? NL_Mode_FurmanSawayaGrossmann)%Z; discriminate. }
    apply raises_bind in E as [E | (u1 & st7 & E7 & E)].
    + destruct (lower (con_expr c)); [ | discriminate].
      apply raises_bind in E as [E | (r & st8 & E8 & E)]; [discriminate | ].
      apply raises_add_side in E as [E | E]; discriminate.
    + destruct (upper (con_expr c)); [ | discriminate].
      apply raises_bind in E as [E | (r & st8 & E8 & E)]; [discriminate | ].
      apply raises_add_side in E as [E | E]; discriminate.
  - (* linear: [h_0] is bound *)
    apply raises_bind in E as [E | (e0 & st6 & E6 & E)]; [discriminate | ].
    apply raises_bind in E as [E | (u1 & st7 & E7 & E)].
    + destruct (lower (con_expr c)); [ | discriminate].
      apply raises_bind in E as [E | (r & st8 & E8 & E)]; [discriminate | ].
      apply raises_add_side in E as [E | E]; discriminate.
    + destruct (upper (con_expr c)); [ | discriminate].
      apply raises_bind in E as [E | (r & st8 & E8 & E)]; [discriminate | ].
      apply raises_add_side in E as [E | E]; discriminate.
Qed.

(** *** The original constraint after its rewrite *)

Lemma keeps_run {A} (R : state -> state -> Prop) (m : M A) st r st' :
  keeps R m -> m st = (r, st') -> R st st'.
Proof. intros K E. specialize (K st). rewrite E in K. exact K. Qed.

#[local] Instance constraints_only_preorder : PreOrder constraints_only.
Proof.
  split.
  - intros st. repeat split.
  - intros st1 st2 st3 (A1 & A2 & A3 & A4 & A5) (B1 & B2 & B3 & B4 & B5).
    repeat split; congruence.
Qed.

Lemma constraints_only_put c x : keeps constraints_only (put_constraint c x).
Proof. intros st. repeat split. Qed.

Lemma constraints_only_new x : keeps constraints_only (new_constraint x).
Proof. intros st. repeat split. Qed.

Lemma constraints_only_add c k r : keeps constraints_only (constraint_add c k r).
Proof.
  intros st. unfold constraint_add, bind, get_constraint.
  destruct (constraints st !! c) as [[a e | a data] | ]; simpl; try (repeat split; fail).
  destruct k; repeat split.
Qed.

Ltac conly_prim :=
  first [ apply constraints_only_put | apply constraints_only_new
        | apply constraints_only_add ].

Lemma constraints_only_xform_constraint_index mode obj indexed nc disjunct vsub zsub i :
  keeps constraints_only
    (xform_constraint_index mode obj indexed nc disjunct vsub zsub i).
Proof.
  unfold xform_constraint_index. repeat keeps_step constraints_only conly_prim.
Qed.

Lemma constraint_add_frame c k r st res st' c' :
  constraint_add c k r st = (res, st') -> c' <> c ->
  constraints st' !! c' = constraints st !! c'.
Proof.
  unfold constraint_add, bind, get_constraint.
  destruct (constraints st !! c) as [[a e | a data] | ]; simpl.
  - destruct k; intros [= _ <-] N; simpl; try reflexivity.
    apply list_lookup_insert_ne. congruence.
  - intros [= _ <-] N. simpl. apply list_lookup_insert_ne. congruence.
  - intros [= _ <-] N. reflexivity.
Qed.

(** The rewrite of a member writes to the new constraint and to the
    member. *)
Lemma xform_constraint_index_obj mode obj indexed nc disjunct vsub zsub i st st' x :
  nc <> obj ->
  constraints st !! obj = Some x ->
  xform_constraint_index mode obj indexed nc disjunct vsub zsub i st = (Ok tt, st') ->
  exists c, constraint_getitem x i = Some c /\
    constraints st' !! obj =
      Some (if con_active c then constraint_deactivate_data x i else x).
Proof.
  intros Hne Hx Hrun. unfold xform_constraint_index in Hrun.
  rewrite (bind_ok _ _ _ _ _ (get_constraint_ok _ _ _ Hx)) in Hrun.
  destruct (constraint_getitem x i) as [c | ] eqn:Hc; [ | discriminate].
  exists c. split; [reflexivity | ].
  cbn [from_option] in Hrun. unfold bind at 1 in Hrun. unfold ret at 1 in Hrun.
  destruct (con_active c); cbn [negb] in Hrun.
  2:{ injection Hrun as <-. exact Hx. }
  apply bind_inv in Hrun as (u & st1 & Hput & Hrun).
  injection Hput as _ <-.
  apply bind_inv in Hrun as (vs & st2 & Hvs & Hrun). injection Hvs as _ <-.
  apply bind_inv in Hrun as (y & st3 & Hy & Hrun).
  pose proof (readonly_get_indicator_var disjunct
                (set_constraints (<[obj := constraint_deactivate_data x i]> (constraints st))
                   st)) as R.
  rewrite Hy in R. simpl in R. subst st3.
  apply bind_inv in Hrun as (e & st4 & He & Hrun).
  assert (st4 = set_constraints (<[obj := constraint_deactivate_data x i]> (constraints st))
                  st) as ->.
  { revert He. generalize (set_constraints
                             (<[obj := constraint_deactivate_data x i]> (constraints st)) st).
    intros s He.
    destruct (not_in_0_1 _); [ | injection He as _ <-; reflexivity].
    destruct (mode =? NL_Mode_LeeGrossmann)%Z; [injection He as _ <-; reflexivity | ].
    destruct (mode =? NL_Mode_GrossmannLee)%Z; [injection He as _ <-; reflexivity | ].
    destruct (mode =? NL_Mode_FurmanSawayaGrossmann)%Z; [ | discriminate].
    apply bind_inv in He as (h & s1 & Hh & He).
    apply from_option_inv in Hh as [-> _]. injection He as _ <-. reflexivity. }
  apply bind_inv in Hrun as (u1 & st5 & Hlo & Hup).
  assert (F1 : constraints st5 !! obj
               = Some (constraint_deactivate_data x i)).
  { destruct (lower (con_expr c)).
    - apply bind_inv in Hlo as (r & st6 & Hr & Hlo).
      assert (st6 = set_constraints
                      (<[obj := constraint_deactivate_data x i]> (constraints st)) st) as ->.
      { destruct (not_in_0_1 _); [injection Hr as _ <-; reflexivity | ].
        apply bind_inv in Hr as (h & s1 & Hh & Hr).
        apply from_option_inv in Hh as [-> _]. injection Hr as _ <-. reflexivity. }
      assert (E : constraints st5 !! obj = constraints
                    (set_constraints (<[obj := constraint_deactivate_data x i]>
                                        (constraints st)) st) !! obj).
      { destruct indexed; eapply constraint_add_frame; eauto. }
      rewrite E. simpl. apply list_lookup_insert_eq. eapply lookup_lt_Some; eauto.
    - injection Hlo as _ <-. simpl.
      apply list_lookup_insert_eq. eapply lookup_lt_Some; eauto. }
  destruct (upper (con_expr c)).
  - apply bind_inv in Hup as (r & st6 & Hr & Hup).
    assert (st6 = st5) as ->.
    { destruct (not_in_0_1 _); [injection Hr as _ <-; reflexivity | ].
      apply bind_inv in Hr as (h & s1 & Hh & Hr).
      apply from_option_inv in Hh as [-> _]. injection Hr as _ <-. reflexivity. }
    assert (E : constraints st' !! obj = constraints st5 !! obj).
    { destruct indexed; eapply constraint_add_frame; eauto. }
    rewrite E. exact F1.
  - injection Hup as <-. exact F1.
Qed.

(** A member after the deactivation of a member. *)
Lemma deactivate_data_getitem x i k d :
  constraint_getitem x k = Some d ->
  exists d', constraint_getitem (constraint_deactivate_data x i) k = Some d' /\
    con_expr d' = con_expr d /\
    (con_active d = false -> con_active d' = false) /\
    (k = i -> con_active d' = false).
Proof.
  destruct x as [a e | a data]; simpl.
  - destruct e as [e | ]; [ | discriminate]. destruct k; try discriminate.
    intros [= <-]. eexists. split; [reflexivity | ]. simpl. auto.
  - intros Hd. destruct (kget i data) as [c | ] eqn:Hi; simpl.
    + destruct (key_eqb k i) eqn:Ek.
      * apply key_eqb_eq in Ek as ->. rewrite kget_kset_eq.
        eexists. split; [reflexivity | ]. simpl.
        replace d with c by congruence. auto.
      * rewrite kget_kset_ne
          by (intros ->; rewrite key_eqb_refl in Ek; discriminate).
        exists d. split; [exact Hd | ]. split; [reflexivity | ]. split; [auto | ].
        intros ->. rewrite key_eqb_refl in Ek. discriminate.
    + exists d. split; [exact Hd | ]. split; [reflexivity | ]. split; [auto | ].
      intros ->. congruence.
Qed.

Lemma deactivate_data_indexed x i :
  constraint_is_indexed (constraint_deactivate_data x i) = constraint_is_indexed x.
Proof. destruct x as [a e | a data]; simpl; [reflexivity | ]. destruct (kget i data); reflexivity. Qed.

Lemma xform_loop_obj mode obj indexed nc disjunct vsub zsub (keys : list key) :
  nc <> obj ->
  forall st st' x,
  constraints st !! obj = Some x ->
  mfor keys (xform_constraint_index mode obj indexed nc disjunct vsub zsub) st
    = (Ok tt, st') ->
  exists x', constraints st' !! obj = Some x' /\
    constraint_is_indexed x' = constraint_is_indexed x /\
    forall k d, constraint_getitem x k = Some d ->
      exists d', constraint_getitem x' k = Some d' /\
        con_expr d' = con_expr d /\
        (con_active d = false \/ In k keys -> con_active d' = false).
Proof.
  intros Hne. induction keys as [ | i keys IH]; intros st st' x Hx Hrun; simpl in Hrun.
  - injection Hrun as <-. exists x. split; [exact Hx | ]. split; [reflexivity | ].
    intros k d Hd. exists d. split; [exact Hd | ]. split; [reflexivity | ].
    intros [E | []]. exact E.
  - apply bind_inv in Hrun as (u & st1 & Hstep & Hrest). destruct u.
    destruct (xform_constraint_index_obj _ _ _ _ _ _ _ _ _ _ _ Hne Hx Hstep)
      as (c & Hc & Hx1).
    destruct (IH _ _ _ Hx1 Hrest) as (x' & Hx' & Hidx & Hall).
    exists x'. split; [exact Hx' | ]. split.
    { rewrite Hidx. destruct (con_active c); [apply deactivate_data_indexed | reflexivity]. }
    intros k d Hd.
    assert (exists d1,
               constraint_getitem
                 (if con_active c then constraint_deactivate_data x i else x) k = Some d1 /\
               con_expr d1 = con_expr d /\
               (con_active d = false -> con_active d1 = false) /\
               (k = i -> con_active d1 = false)) as (d1 & Hd1 & E1 & A1 & A2).
    { destruct (con_active c) eqn:Hact.
      - apply deactivate_data_getitem. exact Hd.
      - exists d. split; [exact Hd | ]. split; [reflexivity | ]. split; [auto | ].
        intros ->. congruence. }
    destruct (Hall _ _ Hd1) as (d' & Hd' & E' & A').
    exists d'. split; [exact Hd' | ]. split; [congruence | ].
    intros [E | [E | E]]; apply A'; auto.
Qed.

Lemma In_insert_sorted k a l : In k (insert_sorted a l) <-> k = a \/ In k l.
Proof.
  induction l as [ | x l IH]; simpl.
  - split; intros [E | []]; auto.
  - destruct (key_leb a x); simpl; [split; intros [E | E]; auto | ].
    rewrite IH. split; intros [E | [E | E]]; auto.
Qed.

Lemma In_sorted k l : In k (sorted l) <-> In k l.
Proof.
  induction l as [ | x l IH]; simpl; [reflexivity | ].
  rewrite In_insert_sorted, IH. split; intros [E | E]; auto.
Qed.

Lemma kget_In {A} (k : key) (d : kdict A) (x : A) :
  kget k d = Some x -> In k (kkeys d).
Proof.
  induction d as [ | [k' y] d IH]; simpl; [discriminate | ].
  destruct (key_eqb k k') eqn:E.
  - intros _. left. symmetry. apply key_eqb_eq. exact E.
  - intros Hk. right. apply IH. exact Hk.
Qed.

Lemma getitem_In x k d :
  constraint_getitem x k = Some d -> In k (sorted (constraint_keys x)).
Proof.
  intros Hd. apply In_sorted.
  destruct x as [a e | a data]; simpl in *.
  - destruct e; [ | discriminate]. destruct k; try discriminate. left. reflexivity.
  - eapply kget_In. exact Hd.
Qed.

(** What a step that returned has read or written. *)
Lemma get_dict_inv d st x st1 :
  get_dict d st = (Ok x, st1) -> st1 = st /\ dicts st !! d = Some x.
Proof.
  unfold get_dict. destruct (dicts st !! d); simpl; [ | discriminate].
  intros [= -> ->]. split; reflexivity.
Qed.

Lemma get_block_inv b st x st1 :
  get_block b st = (Ok x, st1) -> st1 = st /\ blocks st !! b = Some x.
Proof.
  unfold get_block. destruct (blocks st !! b); simpl; [ | discriminate].
  intros [= -> ->]. split; reflexivity.
Qed.

Lemma get_blockcomp_inv c st x st1 :
  get_blockcomp c st = (Ok x, st1) -> st1 = st /\ blockcomps st !! c = Some x.
Proof.
  unfold get_blockcomp. destruct (blockcomps st !! c); simpl; [ | discriminate].
  intros [= -> ->]. split; reflexivity.
Qed.

Lemma get_disjunction_inv c st x st1 :
  get_disjunction c st = (Ok x, st1) -> st1 = st /\ disjunctions st !! c = Some x.
Proof.
  unfold get_disjunction. destruct (disjunctions st !! c); simpl; [ | discriminate].
  intros [= -> ->]. split; reflexivity.
Qed.

Lemma get_var_inv v st x st1 :
  get_var v st = (Ok x, st1) -> st1 = st /\ vars st !! v = Some x.
Proof.
  unfold get_var. destruct (vars st !! v); simpl; [ | discriminate].
  intros [= -> ->]. split; reflexivity.
Qed.

Lemma get_indicator_var_inv b st y st1 :
  get_indicator_var b st = (Ok y, st1) ->
  st1 = st /\ exists x, blocks st !! b = Some x /\ indicator_var x = Some y.
Proof.
  unfold get_indicator_var, bind, get_block.
  destruct (blocks st !! b) as [x | ]; simpl; [ | discriminate].
  destruct (indicator_var x) as [y' | ] eqn:E; simpl; [ | discriminate].
  intros [= -> ->]. split; [reflexivity | ]. exists x. split; [reflexivity | exact E].
Qed.

Lemma get_info_inv b st d st1 :
  get_info b st = (Ok d, st1) ->
  st1 = st /\ exists x, blocks st !! b = Some x /\ gdp_transformation_info x = IsDict d.
Proof.
  unfold get_info, bind, get_block.
  destruct (blocks st !! b) as [x | ]; simpl; [ | discriminate].
  destruct (gdp_transformation_info x) as [ | | d'] eqn:E; simpl; try discriminate.
  intros [= -> ->]. split; [reflexivity | ]. exists x. split; [reflexivity | exact E].
Qed.

Lemma update_block_inv b f st u st1 :
  update_block b f st = (Ok u, st1) ->
  exists x, blocks st !! b = Some x /\
            st1 = set_blocks (<[b := f x]> (blocks st)) st.
Proof.
  unfold update_block, bind, get_block.
  destruct (blocks st !! b) as [x | ]; simpl; [ | discriminate].
  intros [= _ <-]. exists x. split; reflexivity.
Qed.

Lemma update_dict_inv d f st u st1 :
  update_dict d f st = (Ok u, st1) ->
  exists x, dicts st !! d = Some x /\
            st1 = set_dicts (<[d := f x]> (dicts st)) st.
Proof.
  unfold update_dict, bind, get_dict.
  destruct (dicts st !! d) as [x | ]; simpl; [ | discriminate].
  intros [= _ <-]. exists x. split; reflexivity.
Qed.

(** What [_xform_constraint] does before its loop. *)
Lemma xform_constraint_prefix mode obj disjunct rb infodict vsub zsub st st' x :
  constraints st !! obj = Some x ->
  xform_constraint mode (RConstraint obj) disjunct rb infodict vsub zsub st
    = (Ok tt, st') ->
  exists st1 r ri,
    constraints st1 = constraints st ++ [IndexedConstraint true []] /\
    (exists dd mc, dicts st1 !! infodict = Some dd /\
       relaxedConstraints dd = Some mc /\ mc !! obj = Some (length (constraints st))) /\
    blocks st1 !! rb = Some r /\
    In (RConstraint (length (constraints st))) (blk_decls r) /\
    gdp_transformation_info r = IsDict ri /\
    (exists rr ms, dicts st1 !! ri = Some rr /\
       srcConstraints rr = Some ms /\ ms !! length (constraints st) = Some obj) /\
    mfor (sorted (constraint_keys x))
      (xform_constraint_index mode obj (constraint_is_indexed x)
         (length (constraints st)) disjunct vsub zsub) st1 = (Ok tt, st').
Proof.
  intros Hx Hrun. unfold xform_constraint in Hrun.
  assert (Hlt : (obj < length (constraints st))%nat) by (eapply lookup_lt_Some; eauto).
  apply bind_inv in Hrun as (d & s & Hd & Hrun). apply get_dict_inv in Hd as [-> Hd].
  apply bind_inv in Hrun as (vm & s & Hvm & Hrun). apply from_option_inv in Hvm as [-> Hvm].
  apply bind_inv in Hrun as (x0 & s & Hx0 & Hrun).
  apply get_constraint_inv in Hx0 as [-> Hx0].
  assert (x0 = x) as -> by congruence.
  apply bind_inv in Hrun as (nc & s1 & Hnc & Hrun).
  injection Hnc as <- <-.
  apply bind_inv in Hrun as (u & s2 & Hadd & Hrun).
  apply update_block_inv in Hadd as (r & Hr & ->).
  apply bind_inv in Hrun as (u2 & s3 & Hud & Hrun).
  apply update_dict_inv in Hud as (d' & Hd' & ->).
  simpl in Hr, Hd'. assert (d' = d) as -> by congruence.
  apply bind_inv in Hrun as (ri & s4 & Hri & Hrun).
  apply get_info_inv in Hri as [-> (r' & Hr' & Hri)].
  simpl in Hr'.
  rewrite list_lookup_insert_eq in Hr' by (eapply lookup_lt_Some; eauto).
  injection Hr' as <-. simpl in Hri.
  apply bind_inv in Hrun as (u3 & s5 & Hud2 & Hrun).
  apply update_dict_inv in Hud2 as (rr & Hrr & ->).
  simpl in Hrr.
  apply bind_inv in Hrun as (x1 & s6 & Hx1 & Hloop).
  apply get_constraint_inv in Hx1 as [-> Hx1]. simpl in Hx1.
  rewrite lookup_app_l in Hx1 by exact Hlt.
  assert (x1 = x) as -> by congruence.
  assert (Hltd : (infodict < length (dicts st))%nat) by (eapply lookup_lt_Some; eauto).
  assert (Hltri : (ri < length (<[infodict :=
            with_relaxedConstraints
              (Some (<[obj := length (constraints st)]> (default ∅ (relaxedConstraints d))))
              d]> (dicts st)))%nat) by (eapply lookup_lt_Some; eauto).
  eexists. exists (with_decls (blk_decls r ++ [RConstraint (length (constraints st))]) r), ri.
  refine (conj _ (conj _ (conj _ (conj _ (conj _ (conj _ Hloop)))))).
  - reflexivity.
  - simpl. destruct (decide (ri = infodict)) as [-> | N].
    + rewrite list_lookup_insert_eq by exact Hltri.
      rewrite list_lookup_insert_eq in Hrr by exact Hltd. injection Hrr as <-.
      do 2 eexists. split; [reflexivity | ]. simpl. split; [reflexivity | ].
      apply lookup_insert_eq.
    + rewrite list_lookup_insert_ne by congruence.
      rewrite list_lookup_insert_eq by exact Hltd.
      do 2 eexists. split; [reflexivity | ]. simpl. split; [reflexivity | ].
      apply lookup_insert_eq.
  - simpl. apply list_lookup_insert_eq. eapply lookup_lt_Some; eauto.
  - simpl. apply in_or_app. right. left. reflexivity.
  - exact Hri.
  - simpl. rewrite list_lookup_insert_eq by exact Hltri.
    do 2 eexists. split; [reflexivity | ]. simpl. split; [reflexivity | ].
    apply lookup_insert_eq.
Qed.

(** X7. When the rewrite of a constraint returns, every member of the
    original constraint is inactive and has the expression it had: the
    rewrite deactivates the members it rewrites, skips the inactive ones
    and changes no expression of the original. *)
Theorem original_members_deactivated
    (mode : Z) (obj : cid) (disjunct relaxationBlock : bid) (infodict : did)
    (vsub zsub : gmap vid expr) (st st' : state) (x : ConstraintComp) :
  constraints st !! obj = Some x ->
  xform_constraint mode (RConstraint obj) disjunct relaxationBlock infodict vsub zsub st
    = (Ok tt, st') ->
  exists x',
    constraints st' !! obj = Some x' /\
    constraint_is_indexed x' = constraint_is_indexed x /\
    forall k d, constraint_getitem x k = Some d ->
      constraint_getitem x' k = Some (mkCon false (con_expr d)).
Proof.
  intros Hx Hrun.
  destruct (xform_constraint_prefix _ _ _ _ _ _ _ _ _ _ Hx Hrun)
    as (st1 & r & ri & Hc1 & _ & _ & _ & _ & _ & Hloop).
  assert (Hlt : (obj < length (constraints st))%nat) by (eapply lookup_lt_Some; eauto).
  assert (Hx1 : constraints st1 !! obj = Some x).
  { rewrite Hc1. rewrite lookup_app_l by exact Hlt. exact Hx. }
  destruct (xform_loop_obj mode obj _ (length (constraints st)) disjunct vsub zsub _
              ltac:(lia) st1 st' x Hx1 Hloop) as (x' & Hx' & Hidx & Hall).
  exists x'. split; [exact Hx' | ]. split; [exact Hidx | ].
  intros k d Hd. destruct (Hall _ _ Hd) as (d' & Hd' & E & A).
  rewrite Hd'. f_equal. destruct d' as [a' e']. simpl in *. subst e'.
  rewrite A; [reflexivity | ]. right. eapply getitem_In. exact Hd.
Qed.

(** X8. When the rewrite of a constraint returns, the new constraint is
    a component of the relaxation block, the dict of the disjunct maps
    the original to it under [relaxedConstraints], and the dict of the
    relaxation block maps it back to the original under
    [srcConstraints]. *)
Theorem rewritten_constraint_recorded
    (mode : Z) (obj : cid) (disjunct relaxationBlock : bid) (infodict : did)
    (vsub zsub : gmap vid expr) (st st' : state) :
  xform_constraint mode (RConstraint obj) disjunct relaxationBlock infodict vsub zsub st
    = (Ok tt, st') ->
  let newConstraint := length (constraints st) in
  exists dd mc r ri rr ms,
    dicts st' !! infodict = Some dd /\
    relaxedConstraints dd = Some mc /\ mc !! obj = Some newConstraint /\
    blocks st' !! relaxationBlock = Some r /\
    In (RConstraint newConstraint) (blk_decls r) /\
    gdp_transformation_info r = IsDict ri /\
    dicts st' !! ri = Some rr /\
    srcConstraints rr = Some ms /\ ms !! newConstraint = Some obj /\
    is_Some (constraints st' !! newConstraint).
Proof.
  intros Hrun newConstraint.
  assert (exists x, constraints st !! obj = Some x) as (x & Hx).
  { unfold xform_constraint in Hrun.
    apply bind_inv in Hrun as (d & s1 & Hd & Hrun).
    pose proof (readonly_get_dict infodict st) as R. rewrite Hd in R. simpl in R. subst s1.
    apply bind_inv in Hrun as (vm & s1 & Hvm & Hrun).
    apply from_option_inv in Hvm as [-> _].
    apply bind_inv in Hrun as (x & s1 & Hx & _).
    apply get_constraint_inv in Hx as [_ Hx]. eauto. }
  destruct (xform_constraint_prefix _ _ _ _ _ _ _ _ _ _ Hx Hrun)
    as (st1 & r & ri & Hc1 & (dd & mc & Hdd & Hmc & Hobj) & Hr & Hin & Hri &
        (rr & ms & Hrr & Hms & Hnew) & Hloop).
  assert (K : constraints_only st1 st').
  { eapply keeps_run; [ | exact Hloop]. apply (keeps_mfor constraints_only).
    intros i. apply constraints_only_xform_constraint_index. }
  destruct K as (_ & _ & _ & Kb & Kd).
  assert (S : stable st1 st').
  { eapply keeps_run; [ | exact Hloop]. apply (keeps_mfor stable).
    intros i. apply stable_xform_constraint_index. }
  exists dd, mc, r, ri, rr, ms. rewrite Kb, Kd.
  repeat split; try assumption.
  destruct S as (_ & C & _).
  destruct (C (length (constraints st)) (IndexedConstraint true [])) as (x' & Hx' & _).
  { rewrite Hc1. apply list_lookup_middle. reflexivity. }
  exists x'. exact Hx'.
Qed.

(** *** Disjuncts that are not relaxed *)

(** X9. A disjunct that the user deactivated (inactive, and no dict that
    says [relaxed]) is not relaxed: its indicator variable is fixed at 0,
    and no constraint, disjunction or block of the model is changed or
    created. *)
Theorem user_deactivated_disjunct_fixed
    (mode : Z) (obj : bid) (tb : TransBlock) (varSet : list vid) (st : state)
    (o : BlockData) (y : vid) (v : VarData) :
  blocks st !! obj = Some o ->
  blk_active o = false ->
  indicator_var o = Some y ->
  vars st !! y = Some v ->
  (gdp_transformation_info o = NoAttr \/
   exists d dd, gdp_transformation_info o = IsDict d /\ dicts st !! d = Some dd /\
                relaxed dd <> Some true) ->
  exists st',
    transform_disjunct mode obj tb varSet st = (Ok tt, st') /\
    vars st' = <[y := mkVar (var_lb v) (var_ub v) true (Some 0%Q)]> (vars st) /\
    constraints st' = constraints st /\
    disjunctions st' = disjunctions st /\
    blockcomps st' = blockcomps st /\
    blocks st' = blocks st.
Proof.
  intros Ho Hact Hy Hv [Hi | (d & dd & Hi & Hd & Hrel)].
  - unfold transform_disjunct.
    rewrite (bind_ok _ _ _ _ _ (get_block_ok _ _ _ Ho)). rewrite Hi.
    unfold bind at 1. unfold new_dict at 1.
    unfold bind at 1. unfold get_dict at 1. cbn [dicts set_dicts].
    rewrite list_lookup_middle by reflexivity. cbn [from_option ret].
    rewrite Hact. cbn [negb andb default relaxed empty_dict].
    rewrite (bind_ok _ _ _ y (set_dicts (dicts st ++ [empty_dict]) st))
      by (eapply get_indicator_var_ok; eauto).
    unfold fix_var, bind, get_var. cbn [vars set_dicts]. rewrite Hv.
    eexists. split; [reflexivity | ]. repeat split.
  - unfold transform_disjunct.
    rewrite (bind_ok _ _ _ _ _ (get_block_ok _ _ _ Ho)). rewrite Hi.
    unfold bind at 1. unfold ret at 1.
    rewrite (bind_ok _ _ _ _ _ (get_dict_ok _ _ _ Hd)).
    rewrite Hact.
    assert (E : default false (relaxed dd) = false).
    { destruct (relaxed dd) as [[ | ] | ]; try reflexivity. congruence. }
    rewrite E. cbn [negb andb].
    rewrite (bind_ok _ _ _ y st) by (eapply get_indicator_var_ok; eauto).
    unfold fix_var, bind, get_var. rewrite Hv.
    eexists. split; [reflexivity | ]. repeat split.
Qed.

(** X10. An attribute [_gdp_transformation_info] that is not a dict is
    rejected with [ConflictingMetadataAttribute] before anything is
    changed: on the disjunct by the disjunct transformer, on the parent
    block of the disjunction when its constraints are asked for. *)
Theorem conflicting_metadata_rejected
    (mode : Z) (tb : TransBlock) (varSet : list vid) (st : state) :
  (forall obj o,
      blocks st !! obj = Some o ->
      gdp_transformation_info o = NotADict ->
      transform_disjunct mode obj tb varSet st
      = (Err ConflictingMetadataAttribute, st)) /\
  (forall c x p,
      disjunctions st !! c = Some x ->
      blocks st !! dc_parent_block x = Some p ->
      gdp_transformation_info p = NotADict ->
      getDisjunctionConstraints c st = (Err ConflictingMetadataAttribute, st)).
Proof.
  split.
  - intros obj o Ho Hi. unfold transform_disjunct.
    rewrite (bind_ok _ _ _ _ _ (get_block_ok _ _ _ Ho)). rewrite Hi. reflexivity.
  - intros c x p Hx Hp Hi. unfold getDisjunctionConstraints.
    rewrite (bind_ok _ _ _ x st) by (unfold get_disjunction; rewrite Hx; reflexivity).
    rewrite (bind_ok _ _ _ _ _ (get_block_ok _ _ _ Hp)). rewrite Hi. reflexivity.
Qed.

(** *** What the bounds of a copy say *)

(** When every variable has both bounds, each gets its two bound
    constraints, which the model holds when [_transform_disjunct] is
    over. *)
Lemma bound_constraints_emitted
    (mode : Z) (obj : bid) (tb : TransBlock) (st : state)
    (o : BlockData) (y : vid) (c : cid) (pc : BlockComp)
    (a : bool) (data : kdict bid) (t : BlockData) (varSet : list vid) :
  blocks st !! obj = Some o ->
  indicator_var o = Some y ->
  (gdp_transformation_info o = NoAttr /\ blk_active o = true \/
   exists d dd, gdp_transformation_info o = IsDict d /\ dicts st !! d = Some dd /\
                chull dd = None /\ (blk_active o = true \/ relaxed dd = Some true)) ->
  blk_parent_component o = RDisjunct c ->
  blockcomps st !! c = Some pc ->
  c <> relaxedDisjuncts tb ->
  blockcomps st !! relaxedDisjuncts tb = Some (IndexedBlock a data) ->
  kget (KInt (Z.of_nat (length data))) data = None ->
  blocks st !! tb_block tb = Some t ->
  tb_block tb <> obj ->
  Forall (fun w => exists l u, bounded st w l u) varSet ->
  exists res st',
    transform_disjunct mode obj tb varSet st = (res, st') /\
    forall i var l u,
      varSet !! i = Some var -> bounded st var l u ->
      emitted st' (length (constraints st) + i) lb
        = Some (bigm_lb y l (length (vars st) + i)) /\
      emitted st' (length (constraints st) + i) ub
        = Some (bigm_ub y u (length (vars st) + i)).
Proof.
  intros Ho Hy Hinfo Hpc Hc Hcne Hrd Hk Ht Htne Hall.
  destruct (transform_disjunct_reaches_loop mode obj tb varSet st
              o y c pc a data t Ho Hy Hinfo Hpc Hc Hcne Hrd Hk Ht Htne)
    as (infodict & rinfo & st1 & Hinv & Hvars & Hcons & _ & _ & Heq).
  rewrite Heq. unfold disaggregate_and_transform.
  destruct (disaggregation_succeeds obj (length (blocks st)) infodict rinfo y
              varSet st1 Hinv) as (st2 & cs & E & _ & Hcs & Hi).
  { eapply Forall_impl; [exact Hall | ].
    intros w (l & u & vd & Hw). exists l, u, vd. rewrite Hvars. exact Hw. }
  rewrite (bind_ok _ _ _ _ _ E).
  pose proof (emitted_after_loop mode obj (length (blocks st)) infodict st2) as Hem.
  destruct ((d <- get_dict infodict ;;
             m <- from_option KeyError (disaggregatedVars d) ;;
             transform_block_components mode obj obj (length (blocks st)) infodict
               (Var <$> m) ((fun _ => Const 0) <$> m) ;;
             update_block obj (with_active false) ;;
             update_dict infodict (with_relaxed (Some true)) ;;
             update_block obj (with_info (IsDict infodict))) st2) as [res st'] eqn:Erest.
  exists res, st'. split; [reflexivity | ].
  intros i var l u Hvar Hb.
  assert (Hb1 : bounded st1 var l u).
  { destruct Hb as (vd & Hw). exists vd. rewrite Hvars. exact Hw. }
  specialize (Hi i var l u Hvar Hb1).
  assert (Hlook : constraints st2 !! (length (constraints st) + i)%nat
                  = Some (IndexedConstraint true
                            [(lb, mkCon true (bigm_lb y l (length (vars st) + i)));
                             (ub, mkCon true (bigm_ub y u (length (vars st) + i)))])).
  { rewrite Hcs, Hcons. rewrite lookup_app_r by lia.
    replace (length (constraints st) + i - length (constraints st))%nat with i by lia.
    rewrite Hi, Hvars. reflexivity. }
  simpl in Hem.
  split; apply Hem; try discriminate; unfold emitted; rewrite Hlook; reflexivity.
Qed.

(** X11. The two bound constraints that the transformation of a
    disjunct emits for the copy of a variable with bounds [l] and [u] say
    that the copy lies between [l*y] and [u*y]: it is 0 when the indicator
    [y] is 0, and within the bounds of the variable when [y] is 1. *)
Theorem copy_bounds_semantics
    (mode : Z) (obj : bid) (tb : TransBlock) (st : state)
    (o : BlockData) (y : vid) (c : cid) (pc : BlockComp)
    (a : bool) (data : kdict bid) (t : BlockData) (varSet : list vid) :
  blocks st !! obj = Some o ->
  indicator_var o = Some y ->
  (gdp_transformation_info o = NoAttr /\ blk_active o = true \/
   exists d dd, gdp_transformation_info o = IsDict d /\ dicts st !! d = Some dd /\
                chull dd = None /\ (blk_active o = true \/ relaxed dd = Some true)) ->
  blk_parent_component o = RDisjunct c ->
  blockcomps st !! c = Some pc ->
  c <> relaxedDisjuncts tb ->
  blockcomps st !! relaxedDisjuncts tb = Some (IndexedBlock a data) ->
  kget (KInt (Z.of_nat (length data))) data = None ->
  blocks st !! tb_block tb = Some t ->
  tb_block tb <> obj ->
  Forall (fun w => exists l u, bounded st w l u) varSet ->
  exists res st',
    transform_disjunct mode obj tb varSet st = (res, st') /\
    forall i var l u,
      varSet !! i = Some var -> bounded st var l u ->
      exists rl ru,
        emitted st' (length (constraints st) + i) lb = Some rl /\
        emitted st' (length (constraints st) + i) ub = Some ru /\
        forall rho : vid -> Q,
          holds rho rl -> holds rho ru ->
          (rho y * l <= rho (length (vars st) + i)%nat <= rho y * u)%Q /\
          (rho y == 0 -> rho (length (vars st) + i)%nat == 0)%Q /\
          (rho y == 1 -> l <= rho (length (vars st) + i)%nat <= u)%Q.
Proof.
  intros Ho Hy Hinfo Hpc Hc Hcne Hrd Hk Ht Htne Hall.
  destruct (bound_constraints_emitted mode obj tb st o y c pc a data t varSet
              Ho Hy Hinfo Hpc Hc Hcne Hrd Hk Ht Htne Hall) as (res & st' & Hrun & Hem).
  exists res, st'. split; [exact Hrun | ].
  intros i var l u Hvar Hb. destruct (Hem i var l u Hvar Hb) as (El & Eu).
  do 2 eexists. split; [exact El | ]. split; [exact Eu | ].
  intros rho Hl Hu. unfold bigm_lb, bigm_ub in Hl, Hu. simpl in Hl, Hu.
  split; [split; assumption | ]. split.
  - intros E. rewrite E in Hl, Hu. lra.
  - intros E. rewrite E in Hl, Hu. lra.
Qed.

(** *** The links between a disjunct and its relaxation block *)

Lemma keeps_weaken {A} (R R' : state -> state -> Prop) (m : M A) :
  (forall st st', R st st' -> R' st st') -> keeps R m -> keeps R' m.
Proof. intros HR K st. apply HR, K. Qed.

Lemma info_kept_refl x : info_kept x x.
Proof. split; auto. Qed.

Lemma entries_kept_refl x : entries_kept x x.
Proof. repeat split. Qed.

#[local] Instance links_kept_preorder : PreOrder links_kept.
Proof.
  split.
  - intros st. split; apply arena_kept_refl;
      auto using info_kept_refl, entries_kept_refl.
  - intros st1 st2 st3 (A1 & A2) (B1 & B2). split.
    + eapply arena_kept_trans; [ | exact A1 | exact B1].
      intros x y z (E1 & E2) (F1 & F2). split; [congruence | auto].
    + eapply arena_kept_trans; [ | exact A2 | exact B2].
      intros x y z (E1 & E2 & E3 & E4 & E5 & E6 & E7) (F1 & F2 & F3 & F4 & F5 & F6 & F7).
      repeat split; congruence.
Qed.

Lemma links_of_constraints_only st st' : constraints_only st st' -> links_kept st st'.
Proof.
  intros (_ & _ & _ & Eb & Ed). unfold links_kept. rewrite Eb, Ed.
  split; apply arena_kept_refl; auto using info_kept_refl, entries_kept_refl.
Qed.

Lemma links_same st st' :
  blocks st' = blocks st -> dicts st' = dicts st -> links_kept st st'.
Proof.
  intros Eb Ed. unfold links_kept. rewrite Eb, Ed.
  split; apply arena_kept_refl; auto using info_kept_refl, entries_kept_refl.
Qed.

Lemma links_update_block b (f : BlockData -> BlockData) :
  (forall x, info_kept x (f x)) -> keeps links_kept (update_block b f).
Proof.
  intros Hf st. unfold update_block, bind, get_block.
  destruct (blocks st !! b) as [x | ] eqn:E; simpl; [ | reflexivity].
  split; simpl.
  - eapply arena_kept_insert; [apply info_kept_refl | exact E | apply Hf].
  - apply arena_kept_refl, entries_kept_refl.
Qed.

Lemma links_update_dict d (f : InfoDict -> InfoDict) :
  (forall x, entries_kept x (f x)) -> keeps links_kept (update_dict d f).
Proof.
  intros Hf st. unfold update_dict, bind, get_dict.
  destruct (dicts st !! d) as [x | ] eqn:E; simpl; [ | reflexivity].
  split; simpl.
  - apply arena_kept_refl, info_kept_refl.
  - eapply arena_kept_insert; [apply entries_kept_refl | exact E | apply Hf].
Qed.

Lemma links_deactivate_block b : keeps links_kept (update_block b (with_active false)).
Proof. apply links_update_block. intros x. split; auto. Qed.

Lemma links_deactivate r : keeps links_kept (deactivate r).
Proof.
  destruct r as [c | c | c | c | v | t a]; simpl;
    try (intros st; reflexivity).
  - intros st. apply links_same; unfold bind, get_constraint;
      destruct (constraints st !! c); reflexivity.
  - intros st. apply links_same; unfold bind, get_disjunction;
      destruct (disjunctions st !! c); reflexivity.
  - repeat keeps_step links_kept ltac:(apply links_deactivate_block).
    intros st. apply links_same; reflexivity.
  - repeat keeps_step links_kept ltac:(apply links_deactivate_block).
    intros st. apply links_same; reflexivity.
Qed.

Ltac links_prim :=
  first
    [ (apply (keeps_weaken constraints_only links_kept);
       [exact links_of_constraints_only | conly_prim])
    | apply links_deactivate_block | apply links_deactivate
    | (apply links_update_block; intros ?; split; [reflexivity | auto])
    | (apply links_update_dict; intros ?; repeat split) ].

Lemma links_xform_constraint mode obj disjunct rb infodict vsub zsub :
  keeps links_kept (xform_constraint mode obj disjunct rb infodict vsub zsub).
Proof.
  unfold xform_constraint.
  repeat first
    [ (apply (keeps_weaken constraints_only links_kept);
       [exact links_of_constraints_only | apply constraints_only_xform_constraint_index])
    | unfold add_component; keeps_step links_kept links_prim ].
Qed.

Lemma links_transform_block_components mode block disjunct rb infodict vsub zsub :
  keeps links_kept (transform_block_components mode block disjunct rb infodict vsub zsub).
Proof.
  unfold transform_block_components.
  apply (keeps_bind links_kept); [keeps_step links_kept links_prim | intros b].
  apply (keeps_mfor links_kept). intros obj. unfold transform_component.
  apply (keeps_bind links_kept); [keeps_step links_kept links_prim | intros a].
  destruct (is_inactive a); [apply (keeps_ret links_kept) | ].
  destruct (handlers (type obj)) as [[ | | | | ] | ];
    first [ apply links_xform_constraint
          | unfold warn_for_active_disjunction, warn_for_active_disjunct,
              transform_block_on_disjunct;
            solve [repeat keeps_step links_kept links_prim] ].
Qed.

(** *** The links a transformed disjunct has *)

Lemma linked_links_kept obj rb infodict rinfo done st st' :
  links_kept st st' ->
  linked obj rb infodict rinfo done st -> linked obj rb infodict rinfo done st'.
Proof.
  intros (Hb & Hd) (r & dd & rr & m1 & m2 & m3 & m4 & Hr & Hri & Hdd & Hch & Hm1 & Hm2 &
                    Hrr & Hsrc & Hm3 & Hm4 & I1 & I2 & Hdone).
  destruct (Hb _ _ Hr) as (r' & Hr' & Ei & _).
  destruct (Hd _ _ Hdd) as (dd' & Hdd' & _ & Ec & E1 & E2 & _).
  destruct (Hd _ _ Hrr) as (rr' & Hrr' & _ & _ & _ & _ & Es & E3 & E4).
  exists r', dd', rr', m1, m2, m3, m4.
  repeat split; try assumption; try congruence; apply Hdone; assumption.
Qed.

(** One turn of the loop over the variables records the copy and the
    bound constraint of the variable, and their inverses. *)
Lemma disaggregate_var_linked obj rb infodict rinfo y var l u done st :
  loop_inv obj rb infodict rinfo y st ->
  linked obj rb infodict rinfo done st ->
  recorded_exist infodict st ->
  bounded st var l u ->
  exists st',
    disaggregate_var obj rb infodict rinfo var st = (Ok tt, st') /\
    loop_inv obj rb infodict rinfo y st' /\
    linked obj rb infodict rinfo (var :: done) st' /\
    recorded_exist infodict st'.
Proof.
  intros ((o & Ho & Hy) & (r0 & Hr0) & Hne & (d1 & m1' & m2' & Hd1 & Hm1' & Hm2') &
          (d2 & m3' & m4' & Hd2 & Hm3' & Hm4') & Hned)
         (r & dd & rr & m1 & m2 & m3 & m4 & Hr & Hri & Hdd & Hch & Hm1 & Hm2 &
          Hrr & Hsrc & Hm3 & Hm4 & I1 & I2 & Hdone)
         Hrec (v & Hv & Hl & Hu).
  assert (r0 = r) by congruence. subst r0.
  assert (d1 = dd) by congruence. subst d1.
  assert (d2 = rr) by congruence. subst d2.
  assert (m1' = m1) by congruence. subst m1'.
  assert (m2' = m2) by congruence. subst m2'.
  assert (m3' = m3) by congruence. subst m3'.
  assert (m4' = m4) by congruence. subst m4'.
  destruct (Hrec _ Hdd) as (F1 & F2).
  unfold disaggregate_var. unfold_all.
  run.
  eexists. split; [reflexivity | ]. cbn. split; [ | split].
  - unfold loop_inv. cbn. repeat split; try assumption.
    + exists o. run. split; reflexivity.
    + eexists. run. reflexivity.
    + do 3 eexists. run. repeat split; reflexivity.
    + do 3 eexists. run. repeat split; reflexivity.
  - unfold linked. cbn.
    do 7 eexists. run.
    split; [reflexivity | ]. split; [exact Hri | ].
    split; [reflexivity | ]. split; [exact Hch | ].
    split; [reflexivity | ]. split; [reflexivity | ].
    split; [reflexivity | ]. split; [exact Hsrc | ].
    split; [reflexivity | ]. split; [reflexivity | ].
    split; [ | split].
    + intros w dv E. destruct (decide (w = var)) as [-> | Hw].
      * rewrite lookup_insert_eq in E. injection E as <-. apply lookup_insert_eq.
      * rewrite lookup_insert_ne in E by congruence.
        pose proof (F1 _ _ _ Hm1 E) as Hlt.
        rewrite lookup_insert_ne by lia. exact (I1 _ _ E).
    + intros w bc E. destruct (decide (w = var)) as [-> | Hw].
      * rewrite lookup_insert_eq in E. injection E as <-. apply lookup_insert_eq.
      * rewrite lookup_insert_ne in E by congruence.
        pose proof (F2 _ _ _ Hm2 E) as Hlt.
        rewrite lookup_insert_ne by lia. exact (I2 _ _ E).
    + intros w [<- | Hw].
      * rewrite !lookup_insert_eq. split; eexists; reflexivity.
      * destruct (Hdone _ Hw) as (S1 & S2).
        destruct (decide (w = var)) as [-> | Hne'].
        -- rewrite !lookup_insert_eq. split; eexists; reflexivity.
        -- rewrite !lookup_insert_ne by congruence. split; assumption.
  - unfold recorded_exist. cbn. run. intros dd' [= <-]. cbn.
    rewrite !length_app. simpl. split.
    + intros m w dv [= <-] E. destruct (decide (w = var)) as [-> | Hw].
      * rewrite lookup_insert_eq in E. injection E as <-. lia.
      * rewrite lookup_insert_ne in E by congruence.
        pose proof (F1 _ _ _ Hm1 E). lia.
    + intros m w bc [= <-] E. destruct (decide (w = var)) as [-> | Hw].
      * rewrite lookup_insert_eq in E. injection E as <-.
        rewrite ?length_insert, ?length_app. simpl. lia.
      * rewrite lookup_insert_ne in E by congruence.
        pose proof (F2 _ _ _ Hm2 E).
        rewrite ?length_insert, ?length_app. simpl. lia.
Qed.

(** A turn of the loop that returns had a variable with both bounds. *)
Lemma disaggregate_var_ok_bounded obj rb infodict rinfo y var st st' :
  loop_inv obj rb infodict rinfo y st ->
  disaggregate_var obj rb infodict rinfo var st = (Ok tt, st') ->
  exists l u, bounded st var l u.
Proof.
  intros Hinv Hrun.
  destruct (vars st !! var) as [v | ] eqn:Hv.
  - destruct (var_lb v) as [l | ] eqn:Hl; [destruct (var_ub v) as [u | ] eqn:Hu | ].
    + exists l, u, v. repeat split; assumption.
    + destruct (disaggregate_var_unbounded obj rb infodict rinfo y var st Hinv)
        as (st2 & E); [exists v; split; [exact Hv | right; exact Hu] | ].
      rewrite E in Hrun. discriminate.
    + destruct (disaggregate_var_unbounded obj rb infodict rinfo y var st Hinv)
        as (st2 & E); [exists v; split; [exact Hv | left; exact Hl] | ].
      rewrite E in Hrun. discriminate.
  - exfalso.
    destruct Hinv as ((o & Ho & Hy) & (r0 & Hr0) & Hne & (d1 & m1 & m2 & Hd1 & Hm1 & Hm2) &
                      (d2 & m3 & m4 & Hd2 & Hm3 & Hm4) & Hned).
    revert Hrun. unfold disaggregate_var. unfold_all. run.
    destruct (decide (var = length (vars st))) as [-> | Hn].
    + rewrite list_lookup_middle by reflexivity. simpl. discriminate.
    + rewrite lookup_ge_None_2; [discriminate | ].
      apply lookup_ge_None_1 in Hv. rewrite length_app. simpl. lia.
Qed.

(** The loop over the variables to disaggregate, when it returns. *)
Lemma disaggregate_loop_linked obj rb infodict rinfo y (varSet : list vid) :
  forall done st st',
  loop_inv obj rb infodict rinfo y st ->
  linked obj rb infodict rinfo done st ->
  recorded_exist infodict st ->
  mfor varSet (disaggregate_var obj rb infodict rinfo) st = (Ok tt, st') ->
  loop_inv obj rb infodict rinfo y st' /\
  linked obj rb infodict rinfo (rev varSet ++ done) st' /\
  recorded_exist infodict st'.
Proof.
  induction varSet as [ | var varSet IH]; intros done st st' Hinv Hl Hrec Hrun;
    simpl in Hrun.
  - injection Hrun as <-. simpl. auto.
  - apply bind_inv in Hrun as (u & st1 & Hstep & Hrest). destruct u.
    destruct (disaggregate_var_ok_bounded _ _ _ _ _ _ _ _ Hinv Hstep) as (l & u & Hb).
    destruct (disaggregate_var_linked obj rb infodict rinfo y var l u done st
                Hinv Hl Hrec Hb) as (st1' & E & Hinv1 & Hl1 & Hrec1).
    rewrite Hstep in E. injection E as <-.
    destruct (IH _ _ _ Hinv1 Hl1 Hrec1 Hrest) as (Hinv' & Hl' & Hrec').
    split; [exact Hinv' | ]. split; [ | exact Hrec'].
    simpl. rewrite <- app_assoc. exact Hl'.
Qed.

(** *** A transformed disjunct is not transformed again *)

#[local] Instance chull_kept_preorder : PreOrder chull_kept.
Proof.
  split.
  - intros st. apply arena_kept_refl. reflexivity.
  - intros st1 st2 st3 A1 A2.
    eapply arena_kept_trans; [ | exact A1 | exact A2].
    intros x y z E F. congruence.
Qed.

Lemma chull_of_links st st' : links_kept st st' -> chull_kept st st'.
Proof.
  intros (_ & Hd) i x Hx. destruct (Hd _ _ Hx) as (x' & Hx' & _ & E & _).
  exists x'. split; assumption.
Qed.

Lemma chull_of_constraints_only st st' : constraints_only st st' -> chull_kept st st'.
Proof. intros C. apply chull_of_links, links_of_constraints_only, C. Qed.

Lemma chull_update_block b (f : BlockData -> BlockData) :
  keeps chull_kept (update_block b f).
Proof.
  intros st. unfold update_block, bind, get_block.
  destruct (blocks st !! b); simpl; apply arena_kept_refl; reflexivity.
Qed.

Lemma chull_update_dict d (f : InfoDict -> InfoDict) :
  (forall x, chull (f x) = chull x) -> keeps chull_kept (update_dict d f).
Proof.
  intros Hf st. unfold update_dict, bind, get_dict.
  destruct (dicts st !! d) as [x | ] eqn:E; simpl; [ | reflexivity].
  unfold chull_kept. simpl.
  eapply arena_kept_insert; [reflexivity | exact E | apply Hf].
Qed.

Lemma chull_new_var : keeps chull_kept new_var.
Proof. intros st. unfold new_var, chull_kept. simpl. apply arena_kept_refl. reflexivity. Qed.

Ltac chull_prim :=
  first
    [ (apply (keeps_weaken constraints_only chull_kept);
       [exact chull_of_constraints_only | conly_prim])
    | apply chull_new_var | apply chull_update_block
    | (apply chull_update_dict; intros ?; reflexivity) ].

Lemma new_dict_inv x st d st1 :
  new_dict x st = (Ok d, st1) ->
  d = length (dicts st) /\ st1 = set_dicts (dicts st ++ [x]) st.
Proof. unfold new_dict. intros [= <- <-]. split; reflexivity. Qed.

(** X12. An active disjunct that was transformed is not transformed
    again: a later call for the same disjunct, whatever the transformation
    block and the variables, returns at once and changes nothing. *)
Theorem transformed_disjunct_not_again
    (mode : Z) (obj : bid) (tb : TransBlock) (varSet : list vid) (st st' : state)
    (o : BlockData) :
  blocks st !! obj = Some o ->
  blk_active o = true ->
  transform_disjunct mode obj tb varSet st = (Ok tt, st') ->
  forall (mode' : Z) (tb' : TransBlock) (varSet' : list vid),
    transform_disjunct mode' obj tb' varSet' st' = (Ok tt, st').
Proof.
  intros Ho Hact Hrun mode' tb' varSet'.
  unfold transform_disjunct in Hrun.
  apply bind_inv in Hrun as (o0 & st0 & E & Hrun).
  apply get_block_inv in E as [-> Ho0].
  assert (o0 = o) by congruence. subst o0.
  apply bind_inv in Hrun as (infodict & sa & Einfo & Hrun).
  apply bind_inv in Hrun as (dd & sa' & E & Hrun).
  apply get_dict_inv in E as [-> Hdd].
  rewrite Hact in Hrun. simpl in Hrun.
  destruct (bool_decide (is_Some (chull dd))) eqn:Hch.
  - (* already relaxed by this transformation *)
    injection Hrun as <-.
    destruct (gdp_transformation_info o) as [ | | d] eqn:Hi.
    + apply new_dict_inv in Einfo as [-> ->]. simpl in Hdd.
      rewrite list_lookup_middle in Hdd by reflexivity. injection Hdd as <-.
      apply bool_decide_eq_true_1 in Hch. destruct Hch as [? Hch]. discriminate.
    + discriminate.
    + injection Einfo as <- <-.
      unfold transform_disjunct.
      rewrite (bind_ok _ _ _ _ _ (get_block_ok _ _ _ Ho)). rewrite Hi.
      unfold ret at 1. unfold bind at 1.
      rewrite (bind_ok _ _ _ _ _ (get_dict_ok _ _ _ Hdd)).
      rewrite Hact, Hch. reflexivity.
  - apply bind_inv in Hrun as (rb & s1 & Erb & Hrun).
    apply bind_inv in Hrun as (rinfo & s2 & Erinfo & Hrun).
    apply bind_inv in Hrun as (u & s3 & Eub & Hrun).
    apply bind_inv in Hrun as (u' & s4 & Eud & Hrun).
    apply update_dict_inv in Eud as (x & Hx & ->).
    assert (K : chull_kept (set_dicts (<[infodict := with_chull (Some rb) x]> (dicts s3)) s3)
                  st').
    { eapply keeps_run; [ | exact Hrun].
      unfold disaggregate_and_transform, disaggregate_var, disjContainers_add,
        add_component.
      repeat first
        [ (apply (keeps_weaken links_kept chull_kept);
           [exact chull_of_links | apply links_transform_block_components])
        | keeps_step chull_kept chull_prim ]. }
    destruct (K infodict (with_chull (Some rb) x)) as (x' & Hx' & Hchull).
    { simpl. apply list_lookup_insert_eq. eapply lookup_lt_Some; eauto. }
    apply bind_inv in Hrun as (o1 & s5 & E & Hrun).
    apply bind_inv in Hrun as (ix & s6 & E6 & Hrun).
    apply bind_inv in Hrun as (u6 & s7 & E7 & Hrun).
    apply bind_inv in Hrun as (u7 & s8 & E8 & Hrun).
    apply bind_inv in Hrun as (u8 & s9 & E9 & Hrun).
    unfold disaggregate_and_transform in Hrun.
    apply bind_inv in Hrun as (u9 & s10 & E10 & Hrun).
    apply bind_inv in Hrun as (d11 & s11 & E11 & Hrun).
    apply bind_inv in Hrun as (m12 & s12 & E12 & Hrun).
    apply bind_inv in Hrun as (u13 & s13 & E13 & Hrun).
    apply bind_inv in Hrun as (u14 & s14 & E14 & Hrun).
    apply bind_inv in Hrun as (u15 & s15 & E15 & Hrun).
    apply update_block_inv in E14 as (x1 & Hx1 & ->).
    apply update_dict_inv in E15 as (x2 & Hx2 & ->).
    apply update_block_inv in Hrun as (x3 & Hx3 & ->).
    simpl in Hx2, Hx3, Hx', Hchull.
    assert (Hlt1 : (obj < length (blocks s13))%nat) by (eapply lookup_lt_Some; eauto).
    assert (Hlt2 : (infodict < length (dicts s13))%nat) by (eapply lookup_lt_Some; eauto).
    rewrite list_lookup_insert_eq in Hx3 by exact Hlt1. injection Hx3 as <-.
    rewrite list_lookup_insert_eq in Hx' by exact Hlt2. injection Hx' as <-.
    unfold transform_disjunct.
    match goal with
    | |- bind (get_block obj) _ ?s = _ =>
        assert (Hb : get_block obj s = (Ok (with_info (IsDict infodict) (with_active false x1)), s))
          by (unfold get_block; simpl;
              rewrite list_lookup_insert_eq by (rewrite length_insert; exact Hlt1);
              reflexivity);
        rewrite (bind_ok _ _ _ _ _ Hb);
        assert (Hd : get_dict infodict s = (Ok (with_relaxed (Some true) x2), s))
          by (unfold get_dict; simpl;
              rewrite list_lookup_insert_eq by exact Hlt2; reflexivity)
    end.
    cbn [gdp_transformation_info with_info].
    unfold ret at 1. unfold bind at 1.
    rewrite (bind_ok _ _ _ _ _ Hd).
    cbn [blk_active with_info with_active relaxed with_relaxed negb default andb].
    rewrite bool_decide_eq_true_2; [reflexivity | ].
    simpl in Hchull. cbn [chull with_relaxed]. rewrite Hchull. eexists. reflexivity.
Qed.

(** *** The links of a disjunct that was relaxed *)

(** When the loop over the variables starts, the disjunct and its new
    relaxation block point at each other and nothing is recorded yet. *)
Lemma transform_disjunct_reaches_loop_linked mode obj tb varSet st o y c pc a data t :
  blocks st !! obj = Some o ->
  indicator_var o = Some y ->
  (gdp_transformation_info o = NoAttr /\ blk_active o = true \/
   exists d dd, gdp_transformation_info o = IsDict d /\ dicts st !! d = Some dd /\
                chull dd = None /\ (blk_active o = true \/ relaxed dd = Some true)) ->
  blk_parent_component o = RDisjunct c ->
  blockcomps st !! c = Some pc ->
  c <> relaxedDisjuncts tb ->
  blockcomps st !! relaxedDisjuncts tb = Some (IndexedBlock a data) ->
  kget (KInt (Z.of_nat (length data))) data = None ->
  blocks st !! tb_block tb = Some t ->
  tb_block tb <> obj ->
  exists infodict rinfo st1,
    loop_inv obj (length (blocks st)) infodict rinfo y st1 /\
    linked obj (length (blocks st)) infodict rinfo [] st1 /\
    recorded_exist infodict st1 /\
    transform_disjunct mode obj tb varSet st =
    disaggregate_and_transform mode obj (length (blocks st)) infodict rinfo varSet st1.
Proof.
  intros Ho Hy Hinfo Hpc Hc Hcne Hrd Hk Ht Htne.
  assert (Hlt : (obj < length (blocks st))%nat) by (eapply lookup_lt_Some; eauto).
  assert (Hlt' : (tb_block tb < length (blocks st))%nat) by (eapply lookup_lt_Some; eauto).
  assert (Hlo : obj <> length (blocks st)) by lia.
  assert (Hlo' : length (blocks st) <> obj) by lia.
  assert (Hlt2 : tb_block tb <> length (blocks st)) by lia.
  assert (Hlt3 : length (blocks st) <> tb_block tb) by lia.
  assert (Hltc : (relaxedDisjuncts tb < length (blockcomps st))%nat)
    by (eapply lookup_lt_Some; eauto).
  destruct Hinfo as [(Hi & Hact) | (d & dd & Hi & Hd & Hch & Hact)].
  - exists (length (dicts st)), (S (length (dicts st))).
    unfold transform_disjunct. unfold_more. run.
    rewrite !length_app. cbn [length]. rewrite !Nat.add_1_r.
    destruct pc as [self | pa pdata]; run;
      try destruct (bool_decide (RDisjunct c ∈ disjContainers t)); run;
      (eexists; refine (conj _ (conj _ (conj _ eq_refl)));
       cbn [vars constraints disjunctions blockcomps blocks dicts];
       [ unfold loop_inv; cbn [vars constraints disjunctions blockcomps blocks dicts];
         repeat split; try lia;
         [ exists o; run; split; reflexivity
         | eexists; run; reflexivity
         | do 3 eexists; run; repeat split; reflexivity
         | do 3 eexists; run; repeat split; reflexivity ]
       | unfold linked; cbn [vars constraints disjunctions blockcomps blocks dicts];
         do 7 eexists; run;
         repeat (split; [reflexivity | ]);
         split; [intros ? ? E; rewrite lookup_empty in E; discriminate | ];
         split; [intros ? ? E; rewrite lookup_empty in E; discriminate | intros ? []]
       | unfold recorded_exist; cbn [vars constraints disjunctions blockcomps blocks dicts];
         run; intros ? [= <-]; cbn;
         split; intros ? ? ? [= <-] E; rewrite lookup_empty in E; discriminate ]).
  - assert (Hltd : (d < length (dicts st))%nat) by (eapply lookup_lt_Some; eauto).
    exists d, (length (dicts st)).
    unfold transform_disjunct. unfold_more. run.
    assert (Hcond : negb (blk_active o) && negb (default false (relaxed dd)) = false).
    { destruct Hact as [E | E]; rewrite E; simpl; [reflexivity | apply andb_false_r]. }
    rewrite Hcond. run.
    destruct pc as [self | pa pdata]; run;
      try destruct (bool_decide (RDisjunct c ∈ disjContainers t)); run;
      (eexists; refine (conj _ (conj _ (conj _ eq_refl)));
       cbn [vars constraints disjunctions blockcomps blocks dicts];
       [ unfold loop_inv; cbn [vars constraints disjunctions blockcomps blocks dicts];
         repeat split; try lia;
         [ exists o; run; split; reflexivity
         | eexists; run; reflexivity
         | do 3 eexists; run; repeat split; reflexivity
         | do 3 eexists; run; repeat split; reflexivity ]
       | unfold linked; cbn [vars constraints disjunctions blockcomps blocks dicts];
         do 7 eexists; run;
         repeat (split; [reflexivity | ]);
         split; [intros ? ? E; rewrite lookup_empty in E; discriminate | ];
         split; [intros ? ? E; rewrite lookup_empty in E; discriminate | intros ? []]
       | unfold recorded_exist; cbn [vars constraints disjunctions blockcomps blocks dicts];
         run; intros ? [= <-]; cbn;
         split; intros ? ? ? [= <-] E; rewrite lookup_empty in E; discriminate ]).
Qed.

(** X13. When the transformation of a disjunct that was not yet relaxed
    returns, the disjunct is inactive and its dict says [relaxed]; the
    dict names the new relaxation block under [chull] and the dict of that
    block names the disjunct under [src]; every variable of [varSet] has a
    copy under [disaggregatedVars] and a bound constraint under
    [bigmConstraints]; and [srcVars] and [boundConstraintToSrcVar] of the
    relaxation block map each copy and each bound constraint back to its
    variable. *)
Theorem transformed_disjunct_linked
    (mode : Z) (obj : bid) (tb : TransBlock) (varSet : list vid) (st st' : state)
    (o : BlockData) (y : vid) (c : cid) (pc : BlockComp)
    (a : bool) (data : kdict bid) (t : BlockData) :
  blocks st !! obj = Some o ->
  indicator_var o = Some y ->
  (gdp_transformation_info o = NoAttr /\ blk_active o = true \/
   exists d dd, gdp_transformation_info o = IsDict d /\ dicts st !! d = Some dd /\
                chull dd = None /\ (blk_active o = true \/ relaxed dd = Some true)) ->
  blk_parent_component o = RDisjunct c ->
  blockcomps st !! c = Some pc ->
  c <> relaxedDisjuncts tb ->
  blockcomps st !! relaxedDisjuncts tb = Some (IndexedBlock a data) ->
  kget (KInt (Z.of_nat (length data))) data = None ->
  blocks st !! tb_block tb = Some t ->
  tb_block tb <> obj ->
  transform_disjunct mode obj tb varSet st = (Ok tt, st') ->
  let rb := length (blocks st) in
  exists o' infodict dd r rinfo rr m1 m2 m3 m4,
    blocks st' !! obj = Some o' /\ blk_active o' = false /\
    gdp_transformation_info o' = IsDict infodict /\
    dicts st' !! infodict = Some dd /\
    relaxed dd = Some true /\ chull dd = Some rb /\
    disaggregatedVars dd = Some m1 /\ bigmConstraints dd = Some m2 /\
    blocks st' !! rb = Some r /\ gdp_transformation_info r = IsDict rinfo /\
    dicts st' !! rinfo = Some rr /\ src rr = Some obj /\
    srcVars rr = Some m3 /\ boundConstraintToSrcVar rr = Some m4 /\
    (forall v, In v varSet -> is_Some (m1 !! v) /\ is_Some (m2 !! v)) /\
    (forall v dv, m1 !! v = Some dv -> m3 !! dv = Some v) /\
    (forall v bc, m2 !! v = Some bc -> m4 !! bc = Some v).
Proof.
  intros Ho Hy Hinfo Hpc Hc Hcne Hrd Hk Ht Htne Hrun rb.
  destruct (transform_disjunct_reaches_loop_linked mode obj tb varSet st o y c pc a data t
              Ho Hy Hinfo Hpc Hc Hcne Hrd Hk Ht Htne)
    as (infodict & rinfo & st1 & Hinv & Hl & Hrec & Heq).
  fold rb in Hinv, Hl, Heq.
  rewrite Heq in Hrun. clear Heq. unfold disaggregate_and_transform in Hrun.
  apply bind_inv in Hrun as (u1 & s1 & Hloop & Hrun). destruct u1.
  apply bind_inv in Hrun as (d2 & s2 & E2 & Hrun).
  apply get_dict_inv in E2 as [-> Hd2].
  apply bind_inv in Hrun as (m3' & s3 & E3 & Hrun).
  apply from_option_inv in E3 as [-> Hm3'].
  apply bind_inv in Hrun as (u4 & s4 & Htbc & Hrun).
  apply bind_inv in Hrun as (u5 & s5 & E5 & Hrun).
  apply bind_inv in Hrun as (u6 & s6 & E6 & Hrun).
  destruct (disaggregate_loop_linked obj rb infodict rinfo y varSet [] st1 s1
              Hinv Hl Hrec Hloop) as (Hinv1 & Hl1 & _).
  assert (Hl4 : linked obj rb infodict rinfo (rev varSet ++ []) s4).
  { eapply linked_links_kept; [ | exact Hl1].
    eapply keeps_run; [apply links_transform_block_components | exact Htbc]. }
  destruct Hinv1 as (_ & _ & Hne & _ & _ & Hned).
  destruct Hl4 as (r & dd & rr & m1 & m2 & m3 & m4 & Hr & Hri & Hdd & Hch & Hm1 & Hm2 &
                   Hrr & Hsrc & Hm3 & Hm4 & I1 & I2 & Hdone).
  apply update_block_inv in E5 as (x1 & Hx1 & ->).
  apply update_dict_inv in E6 as (x2 & Hx2 & ->).
  apply update_block_inv in Hrun as (x3 & Hx3 & ->).
  simpl in Hx2, Hx3.
  assert (Hlt1 : (obj < length (blocks s4))%nat) by (eapply lookup_lt_Some; eauto).
  assert (Hlt2 : (infodict < length (dicts s4))%nat) by (eapply lookup_lt_Some; eauto).
  rewrite list_lookup_insert_eq in Hx3 by exact Hlt1. injection Hx3 as <-.
  assert (x2 = dd) by congruence. subst x2.
  exists (with_info (IsDict infodict) (with_active false x1)), infodict,
    (with_relaxed (Some true) dd), r, rinfo, rr, m1, m2, m3, m4.
  simpl.
  split; [apply list_lookup_insert_eq; rewrite length_insert; exact Hlt1 | ].
  split; [reflexivity | ]. split; [reflexivity | ].
  split; [apply list_lookup_insert_eq; exact Hlt2 | ].
  split; [reflexivity | ]. split; [exact Hch | ].
  split; [exact Hm1 | ]. split; [exact Hm2 | ].
  split; [rewrite !list_lookup_insert_ne by congruence; exact Hr | ].
  split; [exact Hri | ].
  split; [rewrite list_lookup_insert_ne by congruence; exact Hrr | ].
  split; [exact Hsrc | ]. split; [exact Hm3 | ]. split; [exact Hm4 | ].
  split; [ | split; assumption].
  intros v Hv. apply Hdone. rewrite app_nil_r. apply in_rev in Hv. exact Hv.
Qed.

(** *** The variables to disaggregate *)

Lemma readonly_identify_variables e : keeps eq (identify_variables e).
Proof. unfold identify_variables. repeat keeps_step (@eq state) fail. Qed.

Lemma readonly_active_constraints fuel :
  forall b, keeps eq (active_constraints fuel b).
Proof.
  induction fuel as [ | fuel IH]; intros b; simpl; [apply (keeps_raise eq) | ].
  repeat first [apply IH | keeps_step (@eq state) fail].
Qed.

Lemma readonly_component_body cons : keeps eq (component_body cons).
Proof. unfold component_body. repeat keeps_step (@eq state) fail. Qed.

Lemma readonly_collect_varSet fuel disjs : keeps eq (collect_varSet fuel disjs).
Proof.
  unfold collect_varSet.
  repeat first [ apply readonly_active_constraints | apply readonly_identify_variables
               | apply readonly_component_body | keeps_step (@eq state) fail ].
Qed.

(** A loop whose body only reads keeps what holds of its local
    variable. *)
Lemma mfold_readonly_inv {A B} (P : B -> Prop) (body : B -> A -> M B) st :
  (forall acc x b st1, P acc -> body acc x st = (Ok b, st1) -> st1 = st /\ P b) ->
  forall l acc b st', P acc -> mfold l acc body st = (Ok b, st') -> st' = st /\ P b.
Proof.
  intros Hb l. induction l as [ | x l IH]; intros acc b st' HP Hrun; simpl in Hrun.
  - injection Hrun as <- <-. split; [reflexivity | exact HP].
  - apply bind_inv in Hrun as (acc' & st1 & E & Hrun).
    destruct (Hb _ _ _ _ HP E) as [-> HP']. exact (IH _ _ _ HP' Hrun).
Qed.

Lemma identify_variables_unfixed e st vs st1 :
  identify_variables e st = (Ok vs, st1) ->
  st1 = st /\
  NoDup vs /\
  Forall (fun v => exists d, vars st !! v = Some d /\ var_fixed d = false) vs.
Proof.
  unfold identify_variables.
  apply (mfold_readonly_inv
           (fun vs => NoDup vs /\
              Forall (fun v => exists d, vars st !! v = Some d /\ var_fixed d = false) vs));
    [ | split; constructor].
  intros acc x b st2 (HN & HP) E.
  apply bind_inv in E as (d & st3 & Ed & E). apply get_var_inv in Ed as [-> Hd].
  destruct (var_fixed d) eqn:Hf; simpl in E.
  - injection E as <- <-. auto.
  - destruct (bool_decide (x ∈ acc)) eqn:Hin; injection E as <- <-; [auto | ].
    apply bool_decide_eq_false_1 in Hin.
    split; [reflexivity | ]. split.
    + apply NoDup_app. split; [exact HN | ]. split; [ | apply NoDup_singleton].
      intros z Hz Hz'. apply list_elem_of_singleton in Hz'. subst z. contradiction.
    + apply Forall_app. split; [exact HP | ]. constructor; [ | constructor].
      exists d. split; assumption.
Qed.

Lemma add_new_distinct (Q : vid -> Prop) (vs : list vid) :
  forall varSet,
  NoDup varSet -> Forall Q varSet -> Forall Q vs ->
  NoDup (fold_left (fun varSet var =>
           if bool_decide (var ∈ varSet) then varSet else varSet ++ [var]) vs varSet) /\
  Forall Q (fold_left (fun varSet var =>
           if bool_decide (var ∈ varSet) then varSet else varSet ++ [var]) vs varSet).
Proof.
  induction vs as [ | v vs IH]; intros varSet HN HQ Hvs; simpl; [auto | ].
  apply Forall_cons in Hvs as [Hv Hvs].
  destruct (bool_decide (v ∈ varSet)) eqn:Hin; [apply IH; assumption | ].
  apply bool_decide_eq_false_1 in Hin.
  apply IH; [ | | exact Hvs].
  - apply NoDup_app. split; [exact HN | ]. split; [ | apply NoDup_singleton].
    intros z Hz Hz'. apply list_elem_of_singleton in Hz'. subst z. contradiction.
  - apply Forall_app. split; [exact HQ | ]. constructor; [exact Hv | constructor].
Qed.

(** X14. Collecting the variables to disaggregate only reads the model;
    no variable is listed twice, and every variable listed is a variable
    of the model that is not fixed. *)
Theorem collected_variables_distinct
    (fuel : nat) (disjuncts : list bid) (st st' : state) (varSet : list vid) :
  collect_varSet fuel disjuncts st = (Ok varSet, st') ->
  st' = st /\
  NoDup varSet /\
  Forall (fun v => exists d, vars st !! v = Some d /\ var_fixed d = false) varSet.
Proof.
  unfold collect_varSet.
  apply (mfold_readonly_inv
           (fun vs => NoDup vs /\
              Forall (fun v => exists d, vars st !! v = Some d /\ var_fixed d = false) vs));
    [ | split; constructor].
  intros acc disjunct b st1 HP E.
  apply bind_inv in E as (conss & st2 & Ec & E).
  pose proof (keeps_run eq _ _ _ _ (readonly_active_constraints fuel disjunct) Ec) as <-.
  revert E.
  apply (mfold_readonly_inv
           (fun vs => NoDup vs /\
              Forall (fun v => exists d, vars st !! v = Some d /\ var_fixed d = false) vs));
    [ | exact HP].
  clear HP. intros acc' cons b' st3 (HN & HQ) E.
  apply bind_inv in E as (e & st4 & Ee & E).
  pose proof (keeps_run eq _ _ _ _ (readonly_component_body cons) Ee) as <-.
  apply bind_inv in E as (vs & st5 & Ev & E).
  apply identify_variables_unfixed in Ev as (-> & _ & Hvs).
  injection E as <- <-. split; [reflexivity | ].
  apply add_new_distinct; assumption.
Qed.

(** *** The disaggregation constraints *)

(** The keys of the disaggregation constraints of a disjunction are
    pairwise distinct. *)
Lemma consIdx_inj (index : key) (indexed : bool) (i j : nat) :
  consIdx index indexed i = consIdx index indexed j -> i = j.
Proof.
  unfold consIdx. destruct index as [ | z | s | l]; try destruct indexed;
    intros E; injection E as E;
    try (apply app_inj_tail in E as [_ E]; injection E as E);
    lia.
Qed.

(** What [disjunct._gdp_transformation_info['disaggregatedVars'][var]]
    gives depends on the blocks and the dicts only. *)
Lemma disaggregatedVar_of_frame disjunct var st st' dv :
  blocks st' = blocks st -> dicts st' = dicts st ->
  disaggregatedVar_of disjunct var st = (Ok dv, st) ->
  disaggregatedVar_of disjunct var st' = (Ok dv, st').
Proof.
  intros Eb Ed. unfold disaggregatedVar_of, bind, get_block, get_dict, from_option, ret, raise.
  rewrite Eb. destruct (blocks st !! disjunct) as [o | ]; simpl; [ | discriminate].
  destruct (gdp_transformation_info o) as [ | | d]; simpl; try discriminate.
  rewrite Ed. destruct (dicts st !! d) as [x | ]; simpl; [ | discriminate].
  destruct (disaggregatedVars x) as [m | ]; simpl; [ | discriminate].
  destruct (m !! var); simpl; [ | discriminate]. intros [= ->]. reflexivity.
Qed.

(** The sum of the copies of a variable, as the loop builds it. *)
Lemma disaggregatedExpr_inv (disjs : list bid) (var : vid) st :
  forall acc e st',
  mfold disjs acc (fun e disjunct =>
     disaggregatedVar <- disaggregatedVar_of disjunct var ;;
     ret (Add e (Var disaggregatedVar))) st = (Ok e, st') ->
  st' = st /\
  exists dvs,
    Forall2 (fun d dv => disaggregatedVar_of d var st = (Ok dv, st)) disjs dvs /\
    e = fold_left (fun e dv => Add e (Var dv)) dvs acc.
Proof.
  induction disjs as [ | d disjs IH]; intros acc e st' Hrun; simpl in Hrun.
  - injection Hrun as <- <-. split; [reflexivity | ]. exists []. split; [constructor | reflexivity].
  - apply bind_inv in Hrun as (acc' & st1 & E & Hrun).
    apply bind_inv in E as (dv & st2 & Edv & E). injection E as <- <-.
    pose proof (readonly_disaggregatedVar_of d var st) as R.
    rewrite Edv in R. simpl in R. subst st2.
    destruct (IH _ _ _ Hrun) as (-> & dvs & Hall & ->).
    split; [reflexivity | ]. exists (dv :: dvs). split; [ | reflexivity].
    constructor; assumption.
Qed.

(** The later turns of the loop leave the constraint of an earlier
    variable as it is. *)
Lemma disaggregation_loop_later (disjs : list bid) (dC : cid) (index : key)
    (indexed : bool) (c : cid) (k : key) (varSet : list vid) :
  forall n st st',
  (forall j, consIdx index indexed (n + j) <> k) ->
  mfor (imap (fun i var => ((n + i)%nat, var)) varSet) (fun iv =>
    disaggregatedExpr <- mfold disjs (Const 0) (fun e disjunct =>
      disaggregatedVar <- disaggregatedVar_of disjunct iv.2 ;;
      ret (Add e (Var disaggregatedVar))) ;;
    constraint_add dC (consIdx index indexed iv.1) (Eq (Var iv.2) disaggregatedExpr)) st
  = (Ok tt, st') ->
  emitted st' c k = emitted st c k /\ blocks st' = blocks st /\ dicts st' = dicts st.
Proof.
  induction varSet as [ | var varSet IH]; intros n st st' Hk Hrun; simpl in Hrun.
  - injection Hrun as <-. auto.
  - apply bind_inv in Hrun as (u & st1 & Hbody & Hrun).
    apply bind_inv in Hbody as (e & st0 & He & Hadd). simpl in He, Hadd.
    apply disaggregatedExpr_inv in He as (-> & _).
    rewrite (imap_ext _ (fun i var => ((S n + i)%nat, var))) in Hrun
      by (intros i x _; simpl; f_equal; lia).
    destruct (IH (S n) st1 st') as (E1 & E2 & E3); [ | exact Hrun | ].
    { intros j. replace (S n + j)%nat with (n + S j)%nat by lia. apply Hk. }
    pose proof (keeps_run constraints_only _ _ _ _ (constraints_only_add _ _ _) Hadd)
      as (_ & _ & _ & Eb & Ed).
    split; [ | split; congruence].
    rewrite E1. eapply constraint_add_other; [exact Hadd | apply Hk].
Qed.

Lemma disaggregation_loop_emits (disjs : list bid) (dC : cid) (index : key)
    (indexed : bool) (varSet : list vid) :
  forall n st st',
  mfor (imap (fun i var => ((n + i)%nat, var)) varSet) (fun iv =>
    disaggregatedExpr <- mfold disjs (Const 0) (fun e disjunct =>
      disaggregatedVar <- disaggregatedVar_of disjunct iv.2 ;;
      ret (Add e (Var disaggregatedVar))) ;;
    constraint_add dC (consIdx index indexed iv.1) (Eq (Var iv.2) disaggregatedExpr)) st
  = (Ok tt, st') ->
  forall i var, varSet !! i = Some var ->
  exists dvs,
    Forall2 (fun d dv => disaggregatedVar_of d var st = (Ok dv, st)) disjs dvs /\
    emitted st' dC (consIdx index indexed (n + i)) =
      Some (Eq (Var var) (fold_left (fun e dv => Add e (Var dv)) dvs (Const 0))).
Proof.
  induction varSet as [ | v varSet IH]; intros n st st' Hrun i var Hi;
    [discriminate | ].
  simpl in Hrun.
  apply bind_inv in Hrun as (u & st1 & Hbody & Hrun). destruct u.
  apply bind_inv in Hbody as (e & st0 & He & Hadd). simpl in He, Hadd.
  apply disaggregatedExpr_inv in He as (-> & dvs & Hall & ->).
  rewrite (imap_ext _ (fun i var => ((S n + i)%nat, var))) in Hrun
    by (intros j x _; simpl; f_equal; lia).
  pose proof (keeps_run constraints_only _ _ _ _ (constraints_only_add _ _ _) Hadd)
    as (_ & _ & _ & Eb & Ed).
  destruct i as [ | i]; simpl in Hi.
  - injection Hi as <-. exists dvs. split; [exact Hall | ].
    destruct (disaggregation_loop_later disjs dC index indexed dC
                (consIdx index indexed (n + 0)) varSet (S n) st1 st') as (E & _);
      [ | exact Hrun | ].
    { intros j E. apply consIdx_inj in E. lia. }
    rewrite E. rewrite Nat.add_0_r in *.
    exact (constraint_add_emitted _ _ _ _ _ Hadd).
  - destruct (IH (S n) st1 st' Hrun i var Hi) as (dvs' & Hall' & E).
    exists dvs'. split.
    + eapply Forall2_impl; [exact Hall' | ].
      intros d dv Hd. simpl in Hd.
      apply (disaggregatedVar_of_frame d var st1 st dv); [congruence | congruence | exact Hd].
    + replace (n + S i)%nat with (S n + i)%nat by lia. exact E.
Qed.

(** X15. When the transformation of a disjunction at a key returns, the
    disaggregation constraint that [_getDisjunctionConstraints] gave
    holds, for the [i]-th variable to disaggregate and at the key made of
    the key of the disjunction and [i], the equation
    [var == 0 + dv1 + ... + dvn] over the copies that the dicts of the
    disjuncts record for the variable: the variable is the sum of its
    copies. *)
Theorem disaggregation_constraints
    (fuel : nat) (mode : Z) (c : cid) (k : key) (tb : TransBlock) (st st' : state)
    (x : DisjunctionComp) (o : DisjunctionData) :
  disjunctions st !! c = Some x ->
  kget k (disjunction_data x) = Some o ->
  transformDisjunctionData fuel mode (c, k) tb k st = (Ok tt, st') ->
  exists st0 st1 orC dC varSet,
    disjContainers_add tb (RDisjunction c) st = (Ok tt, st0) /\
    getDisjunctionConstraints c st0 = (Ok (orC, dC), st1) /\
    collect_varSet fuel (disjuncts o) st1 = (Ok varSet, st1) /\
    forall i var, varSet !! i = Some var ->
      exists dvs,
        Forall2 (fun d dv => disaggregatedVar_of d var st' = (Ok dv, st'))
          (disjuncts o) dvs /\
        emitted st' dC (consIdx k (disjunction_is_indexed x) i) =
          Some (Eq (Var var) (fold_left (fun e dv => Add e (Var dv)) dvs (Const 0))) /\
        forall rho,
          holds rho (Eq (Var var) (fold_left (fun e dv => Add e (Var dv)) dvs (Const 0)))
          <-> (rho var == fold_right (fun dv s => rho dv + s) 0 dvs)%Q.
Proof.
  intros Hx Ho Hrun.
  assert (Hget : get_disjunction c st = (Ok x, st)).
  { unfold get_disjunction. rewrite Hx. reflexivity. }
  unfold transformDisjunctionData in Hrun. simpl in Hrun.
  rewrite (bind_ok _ _ _ _ _ Hget) in Hrun. rewrite Ho in Hrun. simpl in Hrun.
  unfold bind at 1 in Hrun. unfold ret at 1 in Hrun.
  destruct (xor o) eqn:Hxor; [ | discriminate]. simpl in Hrun.
  apply bind_inv in Hrun as (u & st0 & Hadd & Hrun). destruct u.
  apply bind_inv in Hrun as ([orC dC] & st1 & Hcs & Hrun). simpl in Hrun.
  unfold relax_disjuncts in Hrun.
  apply bind_inv in Hrun as (varSet & st2 & Hvs & Hrun).
  pose proof (keeps_run eq _ _ _ _ (readonly_collect_varSet fuel (disjuncts o)) Hvs) as <-.
  apply bind_inv in Hrun as (or_expr & st3 & Hor & Hrun).
  apply bind_inv in Hrun as (u & st4 & Hxr & Hrun).
  exists st0, st1, orC, dC, varSet.
  split; [exact Hadd | ]. split; [exact Hcs | ]. split; [exact Hvs | ].
  intros i var Hi.
  destruct (disaggregation_loop_emits (disjuncts o) dC k (disjunction_is_indexed x)
              varSet 0 st4 st' Hrun i var Hi) as (dvs & Hall & E).
  destruct (disaggregation_loop_later (disjuncts o) dC k (disjunction_is_indexed x)
              orC k varSet 0 st4 st') as (_ & Eb & Ed);
    [intros j; apply (consIdx_neq x k o _ Ho) | exact Hrun | ].
  exists dvs. split; [ | split].
  - eapply Forall2_impl; [exact Hall | ].
    intros d dv Hd. simpl in Hd.
    exact (disaggregatedVar_of_frame d var st4 st' dv Eb Ed Hd).
  - exact E.
  - intros rho. simpl. rewrite eval_or_expr. simpl.
    split; intros E'; [rewrite E' | rewrite E']; ring.
Qed.

(** *** The constraints of a disjunction are made once *)

Lemma new_constraint_inv x st c st1 :
  new_constraint x st = (Ok c, st1) ->
  c = length (constraints st) /\ st1 = set_constraints (constraints st ++ [x]) st.
Proof. unfold new_constraint. intros [= <- <-]. split; reflexivity. Qed.

Lemma disjunction_maps_update parent infodict mo md (f : InfoDict -> InfoDict) mo' md'
    st u st1 :
  disjunction_maps parent infodict mo md st ->
  (forall dd, disjunction_or_constraint dd = Some mo ->
              disjunction_disaggregation_constraints dd = Some md ->
              disjunction_or_constraint (f dd) = Some mo' /\
              disjunction_disaggregation_constraints (f dd) = Some md') ->
  update_dict infodict f st = (Ok u, st1) ->
  disjunction_maps parent infodict mo' md' st1.
Proof.
  intros (p & dd & Hp & Hi & Hdd & Hmo & Hmd) Hf E.
  apply update_dict_inv in E as (x & Hx & ->).
  assert (x = dd) by congruence. subst x.
  destruct (Hf dd Hmo Hmd) as (Hmo' & Hmd').
  exists p, (f dd). simpl. repeat split; try assumption.
  apply list_lookup_insert_eq. eapply lookup_lt_Some; eauto.
Qed.

Lemma disjunction_maps_add_component parent infodict mo md b r st u st1 :
  disjunction_maps parent infodict mo md st ->
  add_component b r st = (Ok u, st1) ->
  disjunction_maps parent infodict mo md st1.
Proof.
  intros (p & dd & Hp & Hi & Hdd & Hmo & Hmd) E.
  apply update_block_inv in E as (x & Hx & ->).
  destruct (decide (b = parent)) as [-> | N].
  - assert (x = p) by congruence. subst x.
    exists (with_decls (blk_decls p ++ [r]) p), dd. simpl. repeat split; try assumption.
    apply list_lookup_insert_eq. eapply lookup_lt_Some; eauto.
  - exists p, dd. simpl. repeat split; try assumption.
    rewrite list_lookup_insert_ne by exact N. exact Hp.
Qed.

Lemma disjunction_maps_new_constraint parent infodict mo md x st c st1 :
  disjunction_maps parent infodict mo md st ->
  new_constraint x st = (Ok c, st1) ->
  disjunction_maps parent infodict mo md st1.
Proof. intros Hm E. apply new_constraint_inv in E as [_ ->]. exact Hm. Qed.

(** What [_getDisjunctionConstraints] returns is what the dict of the
    parent block records for the disjunction. *)
Lemma getDisjunctionConstraints_recorded c st orC dC st' x :
  disjunctions st !! c = Some x ->
  getDisjunctionConstraints c st = (Ok (orC, dC), st') ->
  exists infodict mo md,
    disjunction_maps (dc_parent_block x) infodict mo md st' /\
    mo !! c = Some orC /\ md !! c = Some dC.
Proof.
  intros Hx Hrun. unfold getDisjunctionConstraints in Hrun.
  apply bind_inv in Hrun as (x0 & s0 & E & Hrun).
  apply get_disjunction_inv in E as [-> Hx0].
  assert (x0 = x) by congruence. subst x0.
  apply bind_inv in Hrun as (p & s0 & E & Hrun). apply get_block_inv in E as [-> Hp].
  apply bind_inv in Hrun as (infodict & s1 & E1 & Hrun).
  assert (S1 : exists mo md, disjunction_maps (dc_parent_block x) infodict mo md s1).
  { destruct (gdp_transformation_info p) as [ | | d] eqn:Hi.
    - apply bind_inv in E1 as (d & sa & Ea & E1). apply new_dict_inv in Ea as [-> ->].
      apply bind_inv in E1 as (u & sb & Eb & E1).
      apply update_block_inv in Eb as (p' & Hp' & ->). simpl in Hp'.
      assert (p' = p) by congruence. subst p'.
      assert (M0 : exists dd,
                 blocks (set_blocks (<[dc_parent_block x :=
                            with_info (IsDict (length (dicts st))) p]> (blocks st))
                          (set_dicts (dicts st ++ [empty_dict]) st))
                   !! dc_parent_block x = Some (with_info (IsDict (length (dicts st))) p) /\
                 dicts (set_blocks (<[dc_parent_block x :=
                            with_info (IsDict (length (dicts st))) p]> (blocks st))
                          (set_dicts (dicts st ++ [empty_dict]) st))
                   !! length (dicts st) = Some dd).
      { exists empty_dict. simpl. split.
        - apply list_lookup_insert_eq. eapply lookup_lt_Some; eauto.
        - apply list_lookup_middle. reflexivity. }
      destruct M0 as (dd0 & B0 & D0).
      apply bind_inv in E1 as (u1 & sc & Ec & E1).
      apply update_dict_inv in Ec as (x1 & Hx1 & ->).
      apply bind_inv in E1 as (u2 & sd & Ed & E1).
      apply update_dict_inv in Ed as (x2 & Hx2 & ->).
      injection E1 as <- <-.
      simpl in Hx1, Hx2.
      assert (Hlt : (length (dicts st) < length (dicts st ++ [empty_dict]))%nat)
        by (rewrite length_app; simpl; lia).
      rewrite list_lookup_insert_eq in Hx2 by exact Hlt. injection Hx2 as <-.
      exists ∅, ∅. eexists _, _. simpl.
      split; [exact B0 | ]. split; [reflexivity | ].
      split; [apply list_lookup_insert_eq; rewrite length_insert; exact Hlt | ].
      split; reflexivity.
    - discriminate.
    - apply bind_inv in E1 as (d0 & sa & Ea & E1). apply get_dict_inv in Ea as [-> Hd0].
      apply bind_inv in E1 as (u1 & sb & Eb & E1).
      assert (Sb : exists db mo, blocks sb = blocks st /\ dicts sb !! d = Some db /\
                                 disjunction_or_constraint db = Some mo).
      { destruct (disjunction_or_constraint d0) as [mo | ] eqn:Hmo.
        - injection Eb as _ <-. exists d0, mo. auto.
        - apply update_dict_inv in Eb as (x1 & Hx1 & ->).
          exists (with_disjunction_or_constraint (Some ∅) x1), ∅. simpl.
          split; [reflexivity | ]. split; [ | reflexivity].
          apply list_lookup_insert_eq. eapply lookup_lt_Some; eauto. }
      destruct Sb as (db & mo & Bb & Db & Hmo).
      apply bind_inv in E1 as (d1 & sb' & Eb' & E1). apply get_dict_inv in Eb' as [-> Hd1].
      assert (d1 = db) by congruence. subst d1.
      apply bind_inv in E1 as (u2 & sc & Ec & E1).
      injection E1 as <- <-.
      destruct (disjunction_disaggregation_constraints db) as [md | ] eqn:Hmd.
      + injection Ec as _ <-. exists mo, md, p, db. rewrite Bb. auto.
      + apply update_dict_inv in Ec as (x2 & Hx2 & ->).
        assert (x2 = db) by congruence. subst x2.
        exists mo, ∅, p, (with_disjunction_disaggregation_constraints (Some ∅) db). simpl.
        rewrite Bb. repeat split; try assumption.
        apply list_lookup_insert_eq. eapply lookup_lt_Some; eauto. }
  destruct S1 as (mo & md & S1).
  apply bind_inv in Hrun as (d1 & s1' & E & Hrun). apply get_dict_inv in E as [-> Hd1].
  apply bind_inv in Hrun as (md1 & s1' & E & Hrun). apply from_option_inv in E as [-> Hmd1].
  assert (md1 = md).
  { destruct S1 as (p1 & dd1 & _ & _ & Hdd1 & _ & Hmd). congruence. }
  subst md1.
  apply bind_inv in Hrun as (dC' & s2 & E2 & Hrun).
  assert (S2 : exists md2, disjunction_maps (dc_parent_block x) infodict mo md2 s2 /\
                           md2 !! c = Some dC').
  { destruct (md !! c) as [c0 | ] eqn:Hc0.
    - injection E2 as <- <-. exists md. auto.
    - apply bind_inv in E2 as (cn & sa & Ea & E2).
      pose proof (disjunction_maps_new_constraint _ _ _ _ _ _ _ _ S1 Ea) as Sa.
      apply bind_inv in E2 as (u1 & sb & Eb & E2).
      apply bind_inv in E2 as (u2 & sc & Ec & E2). injection E2 as <- <-.
      exists (<[c := cn]> md). split; [ | apply lookup_insert_eq].
      eapply disjunction_maps_add_component; [ | exact Ec].
      eapply disjunction_maps_update; [exact Sa | | exact Eb].
      intros dd Ho _. split; [exact Ho | reflexivity]. }
  destruct S2 as (md2 & S2 & HdC).
  apply bind_inv in Hrun as (d2 & s2' & E & Hrun). apply get_dict_inv in E as [-> Hd2].
  apply bind_inv in Hrun as (mo1 & s2' & E & Hrun). apply from_option_inv in E as [-> Hmo1].
  assert (mo1 = mo).
  { destruct S2 as (p1 & dd1 & _ & _ & Hdd1 & Hmo & _). congruence. }
  subst mo1.
  apply bind_inv in Hrun as (orC' & s3 & E3 & Hrun). injection Hrun as <- <- <-.
  destruct (mo !! c) as [c0 | ] eqn:Hc0.
  - injection E3 as <- <-. exists infodict, mo, md2. auto.
  - apply bind_inv in E3 as (cn & sa & Ea & E3).
    pose proof (disjunction_maps_new_constraint _ _ _ _ _ _ _ _ S2 Ea) as Sa.
    apply bind_inv in E3 as (u1 & sb & Eb & E3).
    apply bind_inv in E3 as (u2 & sc & Ec & E3). injection E3 as <- <-.
    exists infodict, (<[c := cn]> mo), md2.
    split; [ | split; [apply lookup_insert_eq | exact HdC]].
    eapply disjunction_maps_update; [ | | exact Ec].
    + eapply disjunction_maps_add_component; [exact Sa | exact Eb].
    + intros dd _ Hd. split; [reflexivity | exact Hd].
Qed.

(** X16. The exclusivity constraint and the disaggregation constraint of
    a disjunction are made once: what [_getDisjunctionConstraints] returns
    is recorded in the dict of the parent block of the disjunction, and a
    second call returns the same two constraints and changes nothing. *)
Theorem disjunction_constraints_made_once
    (c : cid) (st st' : state) (orC dC : cid) (x : DisjunctionComp) :
  disjunctions st !! c = Some x ->
  getDisjunctionConstraints c st = (Ok (orC, dC), st') ->
  (exists infodict mo md,
     disjunction_maps (dc_parent_block x) infodict mo md st' /\
     mo !! c = Some orC /\ md !! c = Some dC) /\
  getDisjunctionConstraints c st' = (Ok (orC, dC), st').
Proof.
  intros Hx Hrun.
  destruct (getDisjunctionConstraints_recorded c st orC dC st' x Hx Hrun)
    as (infodict & mo & md & Hm & Ho & Hd).
  split; [exists infodict, mo, md; auto | ].
  pose proof (keeps_run stable _ _ _ _ (stable_getDisjunctionConstraints c) Hrun)
    as (_ & _ & Hdj & _).
  destruct (Hdj _ _ Hx) as (x' & Hx' & Hpar & _).
  destruct Hm as (p & dd & Hp & Hi & Hdd & Hmo & Hmd).
  rewrite <- Hpar in Hp.
  unfold getDisjunctionConstraints, bind, get_disjunction, get_block, get_dict,
    from_option, ret.
  rewrite Hx'. simpl. rewrite Hp. simpl. rewrite Hi. rewrite Hdd. simpl.
  rewrite Hmo. simpl. rewrite Hdd. simpl. rewrite Hmd. simpl.
  rewrite Hdd. simpl. rewrite Hmd. simpl. rewrite Hd. simpl.
  rewrite Hdd. simpl. rewrite Hmo. simpl. rewrite Ho. reflexivity.
Qed.

(** *** Targets of another kind *)

(** X17. An active target that is neither a block, a disjunct nor a
    disjunction makes the run fail with [UnsupportedTargetKind]; the
    targets after it are not looked at, and the transformation block that
    was added to the instance before stays in the model. *)
Theorem unsupported_target_rejected
    (fuel : nat) (instance : bid) (t : target) (rest : list target) (mode : Z)
    (st : state) (i : BlockData) :
  blocks st !! instance = Some i ->
  resolves st t = true ->
  target_active t st = (Ok true, st) ->
  other_kind t = true ->
  exists st',
    apply_to fuel instance (Some (t :: rest)) mode st = (Err UnsupportedTargetKind, st') /\
    vars st' = vars st /\
    constraints st' = constraints st /\
    disjunctions st' = disjunctions st /\
    dicts st' = dicts st /\
    blockcomps st' =
      blockcomps st ++ [SimpleBlock (length (blocks st)); IndexedBlock true []] /\
    length (blocks st') = S (length (blocks st)).
Proof.
  intros Hi Hr Ha Hk.
  destruct (make_transBlock_adds instance st i Hi)
    as (st' & Emk & Ev & Ec & Ed & Edi & Eb & El & Hbl & _).
  exists st'. split; [ | repeat split; assumption].
  destruct (target_kept st st' _ t true Ev Ec Ed Eb Hbl Hr Ha) as (Hr' & Ha').
  unfold apply_to. rewrite (bind_ok _ _ _ _ _ Emk). simpl default.
  apply bind_err. simpl mfor. apply bind_err.
  unfold apply_to_target, find_component. unfold bind at 1. rewrite Hr'.
  unfold bind at 1. rewrite Ha'. simpl.
  destruct t as [[c | c | c | c | v | ty oa] | c k | b | c k]; try discriminate;
    reflexivity.
Qed.

(** *** Disjunctions and disjuncts nested in a disjunct *)

Lemma kget_elem {A} (k : key) (d : kdict A) (x : A) :
  kget k d = Some x -> exists k', In (k', x) d.
Proof.
  induction d as [ | [k' y] d IH]; simpl; [discriminate | ].
  destruct (key_eqb k k').
  - intros [= ->]. exists k'. left. reflexivity.
  - intros E. destruct (IH E) as (k'' & Hin). exists k''. right. exact Hin.
Qed.


Lemma deactivated_inactive (data : kdict DisjunctionData) :
  Forall (fun kd => dj_active kd.2 = false) data ->
  map (fun kd => (kd.1, deactivated kd.2)) data = data.
Proof.
  induction 1 as [ | [k [a xo ds]] data Ha _ IH]; simpl; [reflexivity | ].
  simpl in Ha. subst a. change (map ?f (?a :: ?l)) with (f a :: map f l).
  f_equal. exact IH.
Qed.

(** X18. An active disjunction declared on a disjunct that is being
    relaxed stops the transformation with [OrderingViolation], and
    nothing is changed, when it is scalar or has an active member; when
    it is indexed and none of its members is active, only the flag of the
    container is cleared. *)
Theorem nested_disjunction_must_be_transformed
    (mode : Z) (disjunct rb : bid) (infodict : did) (vsub zsub : gmap vid expr)
    (c : cid) (x : DisjunctionComp) (st : state) :
  disjunctions st !! c = Some x ->
  disjunction_active x = true ->
  (forall d, dc_body x = SimpleDisjunction d ->
     transform_component mode disjunct rb infodict vsub zsub (RDisjunction c) st
     = (Err OrderingViolation, st)) /\
  (forall a data k d,
     dc_body x = IndexedDisjunction a data ->
     kget k data = Some d -> dj_active d = true ->
     transform_component mode disjunct rb infodict vsub zsub (RDisjunction c) st
     = (Err OrderingViolation, st)) /\
  (forall a data,
     dc_body x = IndexedDisjunction a data ->
     Forall (fun kd => dj_active kd.2 = false) data ->
     transform_component mode disjunct rb infodict vsub zsub (RDisjunction c) st
     = (Ok tt,
        set_disjunctions
          (<[c := mkDisjunctionComp (dc_parent_block x) (IndexedDisjunction false data)]>
             (disjunctions st)) st)).
Proof.
  intros Hx Hact.
  assert (Hstart :
    transform_component mode disjunct rb infodict vsub zsub (RDisjunction c) st =
    match dc_body x with
    | IndexedDisjunction _ data =>
        match find (fun i => match kget i data with
                             | Some d => dj_active d
                             | None => false
                             end) (sorted (kkeys data)) with
        | Some _ => raise OrderingViolation
        | None => deactivate (RDisjunction c)
        end
    | SimpleDisjunction _ => raise OrderingViolation
    end st).
  { unfold transform_component, active, warn_for_active_disjunction, bind, get_disjunction.
    rewrite Hx. simpl. rewrite Hact. simpl. rewrite Hx. simpl. rewrite Hact. reflexivity. }
  rewrite Hstart. clear Hstart. split; [ | split].
  - intros d ->. reflexivity.
  - intros a data k d -> Hk Hd.
    destruct (find _ (sorted (kkeys data))) as [k0 | ] eqn:Ef; [reflexivity | ].
    exfalso.
    pose proof (find_none _ _ Ef k) as Hn. simpl in Hn.
    rewrite Hk, Hd in Hn. specialize (Hn (proj2 (In_sorted _ _) (kget_In _ _ _ Hk))).
    discriminate.
  - intros a data Hb Hall. rewrite Hb.
    destruct (find _ (sorted (kkeys data))) as [k0 | ] eqn:Ef.
    + exfalso. apply find_some in Ef as (_ & Ef).
      destruct (kget k0 data) as [d | ] eqn:Hk; [ | discriminate].
      destruct (kget_elem _ _ _ Hk) as (k' & Hin).
      rewrite List.Forall_forall in Hall. specialize (Hall _ Hin).
      simpl in Hall. congruence.
    + unfold deactivate, bind, get_disjunction, put_disjunction, modify.
      rewrite Hx. simpl. rewrite Hb. rewrite (deactivated_inactive data Hall).
      reflexivity.
Qed.





(** *** A disjunction that was transformed *)

(** Every member that the loop of [_transformDisjunction] gets through
    is exclusive. *)
Lemma transformed_members_exclusive fuel mode c tb (x : DisjunctionComp) st0 :
  disjunctions st0 !! c = Some x ->
  forall (l : list key) st st',
  stable st0 st ->
  mfor l (fun i => transformDisjunctionData fuel mode (c, i) tb i) st = (Ok tt, st') ->
  forall k d, In k l -> kget k (disjunction_data x) = Some d -> xor d = true.
Proof.
  intros Hx l. induction l as [ | i l IH]; intros st st' Hst Hrun k d Hin Hk;
    [destruct Hin | ].
  simpl in Hrun. apply bind_inv in Hrun as (u & st1 & Hstep & Hrun).
  destruct Hin as [<- | Hin].
  - unfold transformDisjunctionData in Hstep. simpl in Hstep.
    apply bind_inv in Hstep as (xs & s & E & Hstep).
    apply get_disjunction_inv in E as [-> Hxs].
    apply bind_inv in Hstep as (o & s & E & Hstep).
    apply from_option_inv in E as [-> Ho].
    destruct (xor o) eqn:Hxor; [ | discriminate].
    destruct Hst as (_ & _ & Hdj & _).
    destruct (Hdj _ _ Hx) as (xs' & Hxs' & _ & _ & _ & _ & Hmem).
    assert (xs' = xs) by congruence. subst xs'.
    destruct (Hmem _ _ Hk) as (d' & Hd' & Ex & _).
    assert (d' = o) by congruence. subst d'. congruence.
  - eapply (IH st1 st'); [ | exact Hrun | exact Hin | exact Hk].
    eapply stable_trans; [exact Hst | ].
    eapply keeps_run; [apply stable_transformDisjunctionData | exact Hstep].
Qed.

(** X20. When the transformation of a disjunction returns, the
    disjunction and each of its members are inactive, and the disjunction
    has the keys it had; each member was exclusive, and keeps its [xor]
    flag and its disjuncts. *)
Theorem transformed_disjunction_deactivated
    (fuel : nat) (mode : Z) (c : cid) (tb : TransBlock) (st st' : state)
    (x : DisjunctionComp) :
  disjunctions st !! c = Some x ->
  transformDisjunction fuel mode c tb st = (Ok tt, st') ->
  exists x',
    disjunctions st' !! c = Some x' /\
    disjunction_active x' = false /\
    kkeys (disjunction_data x') = kkeys (disjunction_data x) /\
    forall k d, kget k (disjunction_data x) = Some d ->
      xor d = true /\
      exists d', kget k (disjunction_data x') = Some d' /\
                 dj_active d' = false /\ xor d' = true /\ disjuncts d' = disjuncts d.
Proof.
  intros Hx Hrun. unfold transformDisjunction in Hrun.
  apply bind_inv in Hrun as (x0 & s & E & Hrun).
  apply get_disjunction_inv in E as [-> Hx0].
  assert (x0 = x) by congruence. subst x0.
  apply bind_inv in Hrun as (u & s1 & Hloop & Hdeact). destruct u.
  assert (Hst : stable st s1).
  { eapply keeps_run; [ | exact Hloop].
    apply (keeps_mfor stable). intros i. apply stable_transformDisjunctionData. }
  pose proof (transformed_members_exclusive fuel mode c tb x st Hx _ st s1
                (stable_refl st) Hloop) as Hxor.
  destruct Hst as (_ & _ & Hdj & _).
  destruct (Hdj _ _ Hx) as (x1 & Hx1 & _ & _ & _ & Hkeys & Hmem).
  unfold deactivate in Hdeact.
  apply bind_inv in Hdeact as (x1' & s & E & Hdeact).
  apply get_disjunction_inv in E as [-> Hx1'].
  assert (x1' = x1) by congruence. subst x1'.
  unfold put_disjunction, modify in Hdeact. injection Hdeact as <-.
  assert (Hlt : (c < length (disjunctions s1))%nat) by (eapply lookup_lt_Some; eauto).
  eexists. split; [simpl; apply list_lookup_insert_eq; exact Hlt | ].
  unfold disjunction_active, disjunction_data in *. simpl.
  destruct (dc_body x1) as [d1 | a1 data1] eqn:Hb1.
  - split; [reflexivity | ]. split; [exact Hkeys | ].
    intros k d Hk. split.
    + apply (Hxor k d); [ | exact Hk]. apply In_sorted. exact (kget_In _ _ _ Hk).
    + destruct (Hmem _ _ Hk) as (d' & Hd' & Ex & Ed & _).
      simpl in Hd'. simpl. destruct (key_eqb k KNone); [ | discriminate].
      injection Hd' as <-. eexists. split; [reflexivity | ].
      simpl. rewrite Ex.
      split; [reflexivity | ]. split; [ | exact Ed].
      apply (Hxor k d); [ | exact Hk]. apply In_sorted. exact (kget_In _ _ _ Hk).
  - split; [reflexivity | ]. split; [rewrite kkeys_map; exact Hkeys | ].
    intros k d Hk. split.
    + apply (Hxor k d); [ | exact Hk]. apply In_sorted. exact (kget_In _ _ _ Hk).
    + destruct (Hmem _ _ Hk) as (d' & Hd' & Ex & Ed & _).
      rewrite kget_map, Hd'. simpl. eexists. split; [reflexivity | ].
      simpl. rewrite Ex.
      split; [reflexivity | ]. split; [ | exact Ed].
      apply (Hxor k d); [ | exact Hk]. apply In_sorted. exact (kget_In _ _ _ Hk).
Qed.

(** *** The exclusivity constraint of a disjunction *)

(** Registering a container changes no dict, no dict attribute and no
    constraint. *)
Lemma disjContainers_add_frame tb r st u st0 :
  disjContainers_add tb r st = (Ok u, st0) ->
  constraints st0 = constraints st /\
  disjunctions st0 = disjunctions st /\
  forall c, recorded_xor st0 c = recorded_xor st c.
Proof.
  unfold disjContainers_add. intros E.
  apply update_block_inv in E as (t & Ht & ->). simpl.
  split; [reflexivity | ]. split; [reflexivity | ].
  intros c. unfold recorded_xor. simpl.
  destruct (disjunctions st !! c) as [x | ]; simpl; [ | reflexivity].
  destruct (decide (tb_block tb = dc_parent_block x)) as [<- | N].
  - rewrite list_lookup_insert_eq by (eapply lookup_lt_Some; eauto). rewrite Ht. simpl.
    destruct (bool_decide (r ∈ disjContainers t)); reflexivity.
  - rewrite list_lookup_insert_ne by exact N. reflexivity.
Qed.

(** The exclusivity constraint that [_getDisjunctionConstraints] returns
    is the one recorded for the disjunction; when none was recorded, it
    is generated and declared on the parent block. *)
Lemma getDisjunctionConstraints_xor c st orC dC st' x :
  disjunctions st !! c = Some x ->
  getDisjunctionConstraints c st = (Ok (orC, dC), st') ->
  recorded_xor st' c = Some orC /\
  match recorded_xor st c with
  | Some c0 => orC = c0
  | None =>
      constraints st !! orC = None /\
      constraints st' !! orC =
        Some (if disjunction_is_indexed x then IndexedConstraint true []
              else SimpleConstraint true None) /\
      exists p, blocks st' !! dc_parent_block x = Some p /\
                In (RConstraint orC) (blk_decls p)
  end.
Proof.
  intros Hx Hrun. split.
  { destruct (getDisjunctionConstraints_recorded c st orC dC st' x Hx Hrun)
      as (infodict & mo & md & (p & dd & Hp & Hi & Hdd & Hmo & _) & Ho & _).
    pose proof (keeps_run stable _ _ _ _ (stable_getDisjunctionConstraints c) Hrun)
      as (_ & _ & Hdj & _).
    destruct (Hdj _ _ Hx) as (x' & Hx' & Hpar & _).
    unfold recorded_xor. rewrite Hx'. simpl. rewrite Hpar, Hp. simpl.
    rewrite Hi, Hdd. simpl. rewrite Hmo. simpl. exact Ho. }
  unfold getDisjunctionConstraints in Hrun.
  apply bind_inv in Hrun as (x0 & s0 & E & Hrun).
  apply get_disjunction_inv in E as [-> Hx0].
  assert (x0 = x) by congruence. subst x0.
  apply bind_inv in Hrun as (p & s0 & E & Hrun). apply get_block_inv in E as [-> Hp].
  apply bind_inv in Hrun as (infodict & s1 & E1 & Hrun).
  assert (S1 : exists mo md,
             disjunction_maps (dc_parent_block x) infodict mo md s1 /\
             recorded_xor st c = mo !! c /\ constraints s1 = constraints st).
  { unfold recorded_xor. rewrite Hx. simpl. rewrite Hp. simpl.
    destruct (gdp_transformation_info p) as [ | | d] eqn:Hi.
    - apply bind_inv in E1 as (d & sa & Ea & E1). apply new_dict_inv in Ea as [-> ->].
      apply bind_inv in E1 as (u & sb & Eb & E1).
      apply update_block_inv in Eb as (p' & Hp' & ->). simpl in Hp'.
      assert (p' = p) by congruence. subst p'.
      apply bind_inv in E1 as (u1 & sc & Ec & E1).
      apply update_dict_inv in Ec as (x1 & Hx1 & ->).
      apply bind_inv in E1 as (u2 & sd & Ed & E1).
      apply update_dict_inv in Ed as (x2 & Hx2 & ->).
      injection E1 as <- <-.
      simpl in Hx1, Hx2.
      assert (Hlt : (length (dicts st) < length (dicts st ++ [empty_dict]))%nat)
        by (rewrite length_app; simpl; lia).
      rewrite list_lookup_insert_eq in Hx2 by exact Hlt. injection Hx2 as <-.
      exists ∅, ∅. split; [ | split; [symmetry; apply lookup_empty | reflexivity]].
      eexists _, _. simpl.
      split; [apply list_lookup_insert_eq; eapply lookup_lt_Some; eauto | ].
      split; [reflexivity | ].
      split; [apply list_lookup_insert_eq; rewrite length_insert; exact Hlt | ].
      split; reflexivity.
    - discriminate.
    - apply bind_inv in E1 as (d0 & sa & Ea & E1). apply get_dict_inv in Ea as [-> Hd0].
      rewrite Hd0. simpl.
      apply bind_inv in E1 as (u1 & sb & Eb & E1).
      assert (Sb : exists db mo, blocks sb = blocks st /\ dicts sb !! d = Some db /\
                                 disjunction_or_constraint db = Some mo /\
                                 (disjunction_or_constraint d0 ≫= (.!! c)) = mo !! c /\
                                 constraints sb = constraints st).
      { destruct (disjunction_or_constraint d0) as [mo | ] eqn:Hmo.
        - injection Eb as _ <-. exists d0, mo. auto.
        - apply update_dict_inv in Eb as (x1 & Hx1 & ->).
          exists (with_disjunction_or_constraint (Some ∅) x1), ∅. simpl.
          split; [reflexivity | ].
          split; [apply list_lookup_insert_eq; eapply lookup_lt_Some; eauto | ].
          split; [reflexivity | ]. split; [symmetry; apply lookup_empty | reflexivity]. }
      destruct Sb as (db & mo & Bb & Db & Hmo & Hrec & Cb).
      apply bind_inv in E1 as (d1 & sb' & Eb' & E1). apply get_dict_inv in Eb' as [-> Hd1].
      assert (d1 = db) by congruence. subst d1.
      apply bind_inv in E1 as (u2 & sc & Ec & E1).
      injection E1 as <- <-.
      destruct (disjunction_disaggregation_constraints db) as [md | ] eqn:Hmd.
      + injection Ec as _ <-. exists mo, md.
        split; [exists p, db; rewrite Bb; auto | ]. split; assumption.
      + apply update_dict_inv in Ec as (x2 & Hx2 & ->).
        assert (x2 = db) by congruence. subst x2.
        exists mo, ∅. split; [ | split; assumption].
        exists p, (with_disjunction_disaggregation_constraints (Some ∅) db). simpl.
        rewrite Bb. repeat split; try assumption.
        apply list_lookup_insert_eq. eapply lookup_lt_Some; eauto. }
  destruct S1 as (mo & md & S1 & Hrec & C1).
  apply bind_inv in Hrun as (d1 & s1' & E & Hrun). apply get_dict_inv in E as [-> Hd1].
  apply bind_inv in Hrun as (md1 & s1' & E & Hrun). apply from_option_inv in E as [-> Hmd1].
  assert (md1 = md).
  { destruct S1 as (p1 & dd1 & _ & _ & Hdd1 & _ & Hmd). congruence. }
  subst md1.
  apply bind_inv in Hrun as (dC' & s2 & E2 & Hrun).
  assert (S2 : exists md2, disjunction_maps (dc_parent_block x) infodict mo md2 s2 /\
                           (length (constraints st) <= length (constraints s2))%nat).
  { destruct (md !! c) as [c0 | ] eqn:Hc0.
    - injection E2 as _ <-. exists md. split; [exact S1 | rewrite C1; lia].
    - apply bind_inv in E2 as (cn & sa & Ea & E2).
      pose proof (disjunction_maps_new_constraint _ _ _ _ _ _ _ _ S1 Ea) as Sa.
      apply bind_inv in E2 as (u1 & sb & Eb & E2).
      apply bind_inv in E2 as (u2 & sc & Ec & E2). injection E2 as _ <-.
      exists (<[c := cn]> md). split.
      + eapply disjunction_maps_add_component; [ | exact Ec].
        eapply disjunction_maps_update; [exact Sa | | exact Eb].
        intros dd Ho _. split; [exact Ho | reflexivity].
      + apply new_constraint_inv in Ea as [_ ->].
        apply update_dict_inv in Eb as (xb & _ & ->).
        apply update_block_inv in Ec as (xc & _ & ->). simpl.
        rewrite length_app, C1. lia. }
  destruct S2 as (md2 & S2 & Hlen).
  apply bind_inv in Hrun as (d2 & s2' & E & Hrun). apply get_dict_inv in E as [-> Hd2].
  apply bind_inv in Hrun as (mo1 & s2' & E & Hrun). apply from_option_inv in E as [-> Hmo1].
  assert (mo1 = mo).
  { destruct S2 as (p1 & dd1 & _ & _ & Hdd1 & Hmo & _). congruence. }
  subst mo1.
  apply bind_inv in Hrun as (orC' & s3 & E3 & Hrun). injection Hrun as <- <- <-.
  rewrite Hrec.
  destruct (mo !! c) as [c0 | ] eqn:Hc0.
  - injection E3 as <- <-. reflexivity.
  - apply bind_inv in E3 as (cn & sa & Ea & E3).
    apply bind_inv in E3 as (u1 & sb & Eb & E3).
    apply bind_inv in E3 as (u2 & sc & Ec & E3). injection E3 as <- <-.
    apply new_constraint_inv in Ea as [-> ->].
    apply update_block_inv in Eb as (pb & Hpb & ->). simpl in Hpb.
    apply update_dict_inv in Ec as (xd & _ & ->). simpl.
    split; [apply lookup_ge_None_2; exact Hlen | ].
    split; [apply list_lookup_middle; reflexivity | ].
    eexists. split; [apply list_lookup_insert_eq; eapply lookup_lt_Some; eauto | ].
    simpl. apply in_or_app. right. left. reflexivity.
Qed.

(** C7. A disjunction that is not exclusive is rejected before anything
    is changed.  When the transformation of a disjunction at a key
    returns, the exclusivity constraint is the one that the dict of the
    parent block of the disjunction records for the disjunction; when none
    was recorded before the call, it is a constraint component that the
    call generates (no constraint of the model before), indexed as the
    disjunction is, and declared on the parent block of the disjunction;
    and at that key it holds the equation [0 + y1 + ... + yn == 1] over
    the indicator variables of the disjuncts, which says that their sum
    is 1. *)
Theorem exclusivity_constraint
    (fuel : nat) (mode : Z) (c : cid) (k : key) (tb : TransBlock) (st : state)
    (x : DisjunctionComp) (o : DisjunctionData) :
  disjunctions st !! c = Some x ->
  kget k (disjunction_data x) = Some o ->
  (xor o = false ->
   transformDisjunctionData fuel mode (c, k) tb k st
   = (Err NonExclusiveDisjunctionUnsupported, st)) /\
  (forall st',
     transformDisjunctionData fuel mode (c, k) tb k st = (Ok tt, st') ->
     xor o = true /\
     exists st0 st1 orC dC ys,
       disjContainers_add tb (RDisjunction c) st = (Ok tt, st0) /\
       getDisjunctionConstraints c st0 = (Ok (orC, dC), st1) /\
       recorded_xor st1 c = Some orC /\
       match recorded_xor st c with
       | Some c0 => orC = c0
       | None =>
           constraints st !! orC = None /\
           constraints st1 !! orC =
             Some (if disjunction_is_indexed x then IndexedConstraint true []
                   else SimpleConstraint true None) /\
           exists p, blocks st' !! dc_parent_block x = Some p /\
                     In (RConstraint orC) (blk_decls p)
       end /\
       Forall2 (fun d y => exists bd, blocks st' !! d = Some bd /\
                                      indicator_var bd = Some y)
         (disjuncts o) ys /\
       emitted st' orC k =
         Some (Eq (fold_left (fun e y => Add e (Var y)) ys (Const 0)) (Const 1)) /\
       forall rho,
         holds rho (Eq (fold_left (fun e y => Add e (Var y)) ys (Const 0)) (Const 1))
         <-> (fold_right (fun y s => rho y + s) 0 ys == 1)%Q).
Proof.
  intros Hx Ho.
  assert (Hget : get_disjunction c st = (Ok x, st)).
  { unfold get_disjunction. rewrite Hx. reflexivity. }
  split.
  - intros Hxor. unfold transformDisjunctionData. simpl.
    rewrite (bind_ok _ _ _ _ _ Hget). rewrite Ho. simpl.
    unfold bind, ret. rewrite Hxor. reflexivity.
  - intros st' Hrun. unfold transformDisjunctionData in Hrun. simpl in Hrun.
    rewrite (bind_ok _ _ _ _ _ Hget) in Hrun. rewrite Ho in Hrun. simpl in Hrun.
    unfold bind at 1 in Hrun. unfold ret at 1 in Hrun.
    destruct (xor o) eqn:Hxor; [ | discriminate]. simpl in Hrun.
    split; [reflexivity | ].
    apply bind_inv in Hrun as (u & st0 & Hadd & Hrun). destruct u.
    apply bind_inv in Hrun as ([orC dC] & st1 & Hcs & Hrun). simpl in Hrun.
    destruct (disjContainers_add_frame _ _ _ _ _ Hadd) as (C0 & D0 & R0).
    assert (Hx0 : disjunctions st0 !! c = Some x) by (rewrite D0; exact Hx).
    destruct (getDisjunctionConstraints_xor c st0 orC dC st1 x Hx0 Hcs) as (Hrec & Hgen).
    rewrite R0, C0 in Hgen.
    assert (Hst : stable st1 st').
    { eapply keeps_run; [ | exact Hrun].
      unfold relax_disjuncts, disaggregatedVar_of.
      repeat first [ apply stable_collect_varSet | apply stable_transform_disjunct
                   | stab_step ]. }
    unfold relax_disjuncts in Hrun.
    apply bind_inv in Hrun as (varSet & st2 & Hvs & Hrun).
    apply bind_inv in Hrun as (or_expr & st3 & Hor & Hrun).
    apply bind_inv in Hrun as (u & st4 & Hxr & Hrun).
    destruct (or_loop _ _ _ _ _ _ _ _ Hor) as (Hm3 & ys & -> & Hall).
    destruct (disaggregation_loop _ _ dC k (disjunction_is_indexed x) orC k
                (fun i => consIdx_neq x k o i Ho) _ _ _ Hrun) as (Hem & Hm5).
    pose proof (preserves_constraint_add orC k
                  (Eq (fold_left (fun e y => Add e (Var y)) ys (Const 0)) (Const 1)) st3)
      as Hm4.
    rewrite Hxr in Hm4. simpl in Hm4.
    exists st0, st1, orC, dC, ys.
    split; [exact Hadd | ]. split; [exact Hcs | ]. split; [exact Hrec | ].
    split; [ | split; [ | split]].
    + destruct (recorded_xor st c) as [c0 | ]; [exact Hgen | ].
      destruct Hgen as (Hnew & Hkind & p & Hp & Hin).
      split; [exact Hnew | ]. split; [exact Hkind | ].
      destruct Hst as (_ & _ & _ & _ & Hbl & _).
      destruct (Hbl _ _ Hp) as (p' & Hp' & _ & _ & _ & more & Hdecls).
      exists p'. split; [exact Hp' | ]. rewrite Hdecls. apply in_or_app. left. exact Hin.
    + destruct (mono_trans _ _ _ Hm4 Hm5) as (B & _).
      eapply Forall2_impl; [exact Hall | ].
      intros d y (bd & Hbd & Hy). destruct (B _ _ Hbd) as (bd' & Hbd' & E).
      exists bd'. split; [exact Hbd' | congruence].
    + rewrite Hem. destruct u. exact (constraint_add_emitted _ _ _ _ _ Hxr).
    + intros rho. simpl. rewrite eval_or_expr. simpl.
      split; intros E; [rewrite <- E | rewrite E]; ring.
Qed.

End Properties.

(** ** The theorems at the example model *)



Lemma unknown_mode_rejected_when_nonlinear_witness :
  xform_constraint_index (H := Pyomo.host) 7 1 false 2 2
    (Var <$> {[0%nat := 4%nat]}) ((fun _ => Const 0) <$> {[0%nat := 4%nat]})
    KNone Example.rewriting =
  (Err UnknownFormulationMode,
   set_constraints
     [ SimpleConstraint true (Some Example.c1);
       SimpleConstraint false (Some Example.c2);
       IndexedConstraint true [] ] Example.rewriting).
Proof.
  exact (proj1 (unknown_mode_rejected_when_nonlinear (H := Pyomo.host) 7 1 2 false 2
                  (Var <$> {[0%nat := 4%nat]}) ((fun _ => Const 0) <$> {[0%nat := 4%nat]})
                  KNone Example.rewriting
                  (SimpleConstraint true (Some Example.c2)) (mkCon true Example.c2)
                  (mkBlock true (RDisjunct 2%nat) [RVar 2%nat; RConstraint 1%nat]
                     (Some 2%nat) NoAttr []) 2%nat
                  eq_refl eq_refl eq_refl eq_refl eq_refl
                  ltac:(discriminate) ltac:(discriminate) ltac:(discriminate))
           eq_refl).
Defined.

(** C9 (counterexample). With the unknown mode 7 the run over the model
    without nonlinear constraints completes. *)
Lemma unknown_mode_run_completes :
  (7 <> NL_Mode_LeeGrossmann /\ 7 <> NL_Mode_GrossmannLee /\
   7 <> NL_Mode_FurmanSawayaGrossmann)%Z /\
  (apply_to (H := Pyomo.host) 10 Example.instance Example.targets 7
     Example.linear_model).1 = Ok tt.
Proof. split; [repeat split; discriminate | vm_compute; reflexivity]. Qed.

(** C3. A disjunct that holds an active block with a constraint is not
    transformed: the handler of the block raises [NameError] for
    [varSet], the constraint of the block stays active and nothing is
    rewritten, while the same constraint directly on the disjunct is
    rewritten. *)
Theorem nested_block_raises_NameError :
  (apply_to (H := Pyomo.host) 10 Example.instance Example.targets 3
     Example.nested_model).1 = Err (NameError "varSet") /\
  constraints
    (apply_to (H := Pyomo.host) 10 Example.instance Example.targets 3
       Example.nested_model).2 !! 0%nat
  = Some (SimpleConstraint true (Some Example.c1)) /\
  (apply_to (H := Pyomo.host) 10 Example.instance Example.targets 3
     Example.model).1 = Ok tt /\
  constraints
    (apply_to (H := Pyomo.host) 10 Example.instance Example.targets 3
       Example.model).2 !! 0%nat
  = Some (SimpleConstraint false (Some Example.c1)).
Proof. vm_compute. repeat split; reflexivity. Qed.

Lemma unregistered_kind_fails_witness :
  transform_block_components (H := Pyomo.host) 3 1 1 1 0 ∅ ∅ Example.unsupported_model
  = (Err (UnsupportedEntityKind Objective), Example.unsupported_model).
Proof.
  exact (proj1 (unregistered_kind_fails (H := Pyomo.host) 3 1 1 1 0 ∅ ∅
                  Example.unsupported_model
                  (mkBlock true (RDisjunct 1%nat)
                     [RVar 1%nat; ROther Objective (Some true); RConstraint 0%nat]
                     (Some 1%nat) NoAttr [])
                  eq_refl)
           [RVar 1%nat] (ROther Objective (Some true)) [RConstraint 0%nat]
           Example.unsupported_model (Some true)
           eq_refl eq_refl eq_refl eq_refl eq_refl).
Defined.

Lemma inactive_target_skipped_witness :
  let st := (apply_to (H := Pyomo.host) 10 Example.instance Example.targets 3
               Example.model).2 in
  apply_to_target (H := Pyomo.host) 10 3 (mkTransBlock 6 6)
    (TComponent (RDisjunction 0%nat)) st = (Ok tt, st).
Proof.
  intros st.
  refine (proj1 (proj1 (inactive_target_skipped (H := Pyomo.host) 10 3 (mkTransBlock 6 6)
                          (TComponent (RDisjunction 0%nat)) st) _ _)).
  - vm_compute. reflexivity.
  - vm_compute. reflexivity.
Defined.


(** C4 (counterexample). The first disjunct of the example, relaxed by
    another transformation, is not skipped: a relaxation block and a copy
    of [x] with its bound constraints are created and the dict of the
    disjunct is written. *)
Lemma relaxed_elsewhere_not_skipped :
  let run := transform_disjunct (H := Pyomo.host) 3 1 Example.transBlock
               [Example.x] Example.relaxed_elsewhere in
  run.1 = Ok tt /\
  run.2 <> Example.relaxed_elsewhere /\
  length (blocks run.2) = S (length (blocks Example.relaxed_elsewhere)) /\
  length (vars run.2) = S (length (vars Example.relaxed_elsewhere)) /\
  blockcomps run.2 !! 4%nat = Some (IndexedBlock true [(KInt 0, 4%nat)]) /\
  dicts run.2 !! 0%nat <> dicts Example.relaxed_elsewhere !! 0%nat.
Proof.
  intros run.
  assert (E : length (blocks run.2) = S (length (blocks Example.relaxed_elsewhere)))
    by (vm_compute; reflexivity).
  split; [vm_compute; reflexivity | ].
  split; [intros C; rewrite C in E; simpl in E; lia | ].
  split; [exact E | ].
  split; [vm_compute; reflexivity | ].
  split; [vm_compute; reflexivity | ].
  vm_compute. discriminate.
Qed.

Lemma relaxed_elsewhere_is_transformed_witness :
  exists res st',
    transform_disjunct (H := Pyomo.host) 3 1 Example.transBlock [Example.x]
      Example.relaxed_elsewhere = (res, st') /\
    (length (blocks Example.relaxed_elsewhere) < length (blocks st'))%nat /\
    (exists x', blockcomps st' !! 4%nat = Some x' /\
                (0 < length (blockcomp_data x'))%nat) /\
    ([Example.x] <> [] -> (length (vars Example.relaxed_elsewhere) < length (vars st'))%nat).
Proof.
  refine (relaxed_elsewhere_is_transformed (H := Pyomo.host) 3 1 Example.transBlock
            [Example.x] Example.relaxed_elsewhere
            (mkBlock false (RDisjunct 1%nat) [RVar 1%nat; RConstraint 0%nat]
               (Some 1%nat) (IsDict 0%nat) [])
            1%nat 0%nat (with_relaxed (Some true) empty_dict)
            1%nat (SimpleBlock 1%nat) true []
            (mkBlock true (RBlock 3%nat) [RBlock 4%nat; ROther Set_ (Some true)]
               None NoAttr [])
            eq_refl eq_refl eq_refl eq_refl eq_refl eq_refl
            eq_refl eq_refl _ eq_refl eq_refl eq_refl _); discriminate.
Defined.

(** C8 (counterexample). The second run on the example adds a second
    transformation block to the instance: the model has three objects
    more than after the first run. *)
Lemma second_run_adds_a_scope :
  let once := apply_to (H := Pyomo.host) 10 Example.instance Example.targets 3
                Example.model in
  let twice := apply_to (H := Pyomo.host) 10 Example.instance Example.targets 3
                 once.2 in
  once.1 = Ok tt /\ twice.1 = Ok tt /\
  (object_count once.2 - object_count Example.model = 13)%nat /\
  (object_count twice.2 - object_count Example.model = 16)%nat /\
  (blk_decls <$> blocks once.2 !! Example.instance) =
    Some [RVar 0%nat; RDisjunct 1%nat; RDisjunct 2%nat; RDisjunction 0%nat;
          RBlock 3%nat; RConstraint 2%nat; RConstraint 3%nat] /\
  (blk_decls <$> blocks twice.2 !! Example.instance) =
    Some [RVar 0%nat; RDisjunct 1%nat; RDisjunct 2%nat; RDisjunction 0%nat;
          RBlock 3%nat; RConstraint 2%nat; RConstraint 3%nat; RBlock 5%nat].
Proof. vm_compute. repeat split; reflexivity. Qed.

Lemma second_run_adds_only_a_scope_witness :
  let st1 := (apply_to (H := Pyomo.host) 10 Example.instance Example.targets 3
                Example.model).2 in
  exists st2,
    apply_to (H := Pyomo.host) 10 Example.instance Example.targets 3 st1 = (Ok tt, st2) /\
    vars st2 = vars st1 /\
    constraints st2 = constraints st1 /\
    disjunctions st2 = disjunctions st1 /\
    dicts st2 = dicts st1 /\
    blockcomps st2 =
      blockcomps st1 ++ [SimpleBlock (length (blocks st1)); IndexedBlock true []] /\
    length (blocks st2) = S (length (blocks st1)) /\
    object_count st2 = (object_count st1 + 3)%nat.
Proof.
  intros st1.
  refine (second_run_adds_only_a_scope (H := Pyomo.host) 10 Example.instance 0%nat 3 3
            Example.model st1 _).
  vm_compute. reflexivity.
Defined.

Lemma linear_rewrite_semantics_witness :
  exists st',
    xform_constraint_index (H := Pyomo.host) 3 0 false 2 1
      (Var <$> {[0%nat := 3%nat]}) ((fun _ => Const 0) <$> {[0%nat := 3%nat]})
      KNone Example.rewriting = (Ok tt, st') /\
    exists r, emitted st' 2 lb = Some r /\
      forall rho : vid -> Q,
        (rho 1%nat == 1 ->
         (holds rho r <->
          5 <= eval (at_copies rho {[0%nat := 3%nat]})
                 (Add (Mul (Const 2) (Var 0)) (Const 3))))%Q /\
        (rho 1%nat == 0 ->
         (forall v dv, ({[0%nat := 3%nat]} : gmap vid vid) !! v = Some dv -> rho dv == 0) ->
         holds rho r)%Q.
Proof.
  destruct (linear_rewrite_semantics (H := Pyomo.host) 3 0 2 false 1
              {[0%nat := 3%nat]} KNone Example.rewriting
              (SimpleConstraint true (Some Example.c1)) (mkCon true Example.c1)
              true [] (mkBlock true (RDisjunct 1%nat) [RVar 1%nat; RConstraint 0%nat]
                         (Some 1%nat) NoAttr []) 1%nat
              eq_refl eq_refl eq_refl eq_refl ltac:(discriminate)
              eq_refl eq_refl eq_refl)
    as (st' & Hrun & Hlo & _).
  exists st'. split; [exact Hrun | ]. exact (Hlo 5%Q eq_refl).
Defined.

Lemma robust_rewrite_semantics_witness :
  exists st',
    xform_constraint_index (H := Pyomo.host) 3 1 false 2 2
      (Var <$> {[0%nat := 4%nat]}) ((fun _ => Const 0) <$> {[0%nat := 4%nat]})
      KNone Example.rewriting = (Ok tt, st') /\
    exists r, emitted st' 2 ub = Some r /\
      forall rho : vid -> Q,
        (defined_relation rho r ->
         defined (at_zero rho {[0%nat := 4%nat]}) (Pow (Var 0) 2)) /\
        (rho 2%nat == 1 ->
         defined (at_copies rho {[0%nat := 4%nat]}) (Pow (Var 0) 2) ->
         defined (at_zero rho {[0%nat := 4%nat]}) (Pow (Var 0) 2) ->
         defined_relation rho r /\
         (holds rho r <->
          eval (at_copies rho {[0%nat := 4%nat]}) (Pow (Var 0) 2) <= 4))%Q /\
        (rho 2%nat == 0 ->
         (forall v dv, ({[0%nat := 4%nat]} : gmap vid vid) !! v = Some dv -> rho dv == 0) ->
         defined (at_zero rho {[0%nat := 4%nat]}) (Pow (Var 0) 2) ->
         defined_relation rho r /\ holds rho r)%Q.
Proof.
  destruct (robust_rewrite_semantics (H := Pyomo.host) 1 2 false 2
              {[0%nat := 4%nat]} KNone Example.rewriting
              (SimpleConstraint true (Some Example.c2)) (mkCon true Example.c2)
              true [] (mkBlock true (RDisjunct 2%nat) [RVar 2%nat; RConstraint 1%nat]
                         (Some 2%nat) NoAttr []) 2%nat
              eq_refl eq_refl eq_refl eq_refl ltac:(discriminate)
              eq_refl eq_refl eq_refl)
    as (st' & Hrun & _ & Hup).
  exists st'. split; [exact Hrun | ]. exact (Hup 4%Q eq_refl).
Defined.

Lemma lee_grossmann_rewrite_witness :
  exists st',
    xform_constraint_index (H := Pyomo.host) 1 1 false 2 2
      (Var <$> {[0%nat := 4%nat]}) ((fun _ => Const 0) <$> {[0%nat := 4%nat]})
      KNone Example.rewriting = (Ok tt, st') /\
    emitted st' 2 lb = None /\
    emitted st' 2 ub =
      Some (Le (Mul (Pow (Div (Var 4) (Var 2)) 2) (Var 2))
               (Mul (Const 4) (Var 2))).
Proof.
  destruct (lee_grossmann_rewrite (H := Pyomo.host) 1 2 false 2
              {[0%nat := 4%nat]} KNone Example.rewriting
              (SimpleConstraint true (Some Example.c2)) (mkCon true Example.c2)
              true [] (mkBlock true (RDisjunct 2%nat) [RVar 2%nat; RConstraint 1%nat]
                         (Some 2%nat) NoAttr []) 2%nat
              eq_refl eq_refl eq_refl eq_refl ltac:(discriminate)
              eq_refl eq_refl eq_refl)
    as (st' & Hrun & Hlo & Hup & _).
  exists st'. split; [exact Hrun | ]. split; [exact Hlo | exact Hup].
Defined.

Lemma grossmann_lee_rewrite_witness :
  exists st',
    xform_constraint_index (H := Pyomo.host) 2 1 false 2 2
      (Var <$> {[0%nat := 4%nat]}) ((fun _ => Const 0) <$> {[0%nat := 4%nat]})
      KNone Example.rewriting = (Ok tt, st') /\
    emitted st' 2 lb = None /\
    emitted st' 2 ub =
      Some (Le (Mul (Add (Var 2) (Const (1 # 100)))
                    (Pow (Div (Var 4) (Add (Var 2) (Const (1 # 100)))) 2))
               (Mul (Const 4) (Var 2))).
Proof.
  destruct (grossmann_lee_rewrite (H := Pyomo.host) 1 2 false 2
              {[0%nat := 4%nat]} KNone Example.rewriting
              (SimpleConstraint true (Some Example.c2)) (mkCon true Example.c2)
              true [] (mkBlock true (RDisjunct 2%nat) [RVar 2%nat; RConstraint 1%nat]
                         (Some 2%nat) NoAttr []) 2%nat
              eq_refl eq_refl eq_refl eq_refl ltac:(discriminate)
              eq_refl eq_refl eq_refl)
    as (st' & Hrun & Hlo & Hup & _).
  exists st'. split; [exact Hrun | ]. split; [exact Hlo | exact Hup].
Defined.

Lemma original_members_deactivated_witness :
  let st' := (xform_constraint (H := Pyomo.host) 3 (RConstraint 0%nat) 1 3 0
                (Var <$> {[0%nat := 3%nat]}) ((fun _ => Const 0) <$> {[0%nat := 3%nat]})
                Example.relaxing).2 in
  exists x',
    constraints st' !! 0%nat = Some x' /\
    constraint_is_indexed x' = false /\
    forall k d, constraint_getitem (SimpleConstraint true (Some Example.c1)) k = Some d ->
      constraint_getitem x' k = Some (mkCon false (con_expr d)).
Proof.
  intros st'.
  refine (original_members_deactivated (H := Pyomo.host) 3 0 1 3 0
            (Var <$> {[0%nat := 3%nat]}) ((fun _ => Const 0) <$> {[0%nat := 3%nat]})
            Example.relaxing st' (SimpleConstraint true (Some Example.c1)) eq_refl _).
  vm_compute. reflexivity.
Defined.

Lemma rewritten_constraint_recorded_witness :
  let st' := (xform_constraint (H := Pyomo.host) 3 (RConstraint 0%nat) 1 3 0
                (Var <$> {[0%nat := 3%nat]}) ((fun _ => Const 0) <$> {[0%nat := 3%nat]})
                Example.relaxing).2 in
  exists dd mc r ri rr ms,
    dicts st' !! 0%nat = Some dd /\
    relaxedConstraints dd = Some mc /\ mc !! 0%nat = Some 2%nat /\
    blocks st' !! 3%nat = Some r /\
    In (RConstraint 2%nat) (blk_decls r) /\
    gdp_transformation_info r = IsDict ri /\
    dicts st' !! ri = Some rr /\
    srcConstraints rr = Some ms /\ ms !! 2%nat = Some 0%nat /\
    is_Some (constraints st' !! 2%nat).
Proof.
  intros st'.
  refine (rewritten_constraint_recorded (H := Pyomo.host) 3 0 1 3 0
            (Var <$> {[0%nat := 3%nat]}) ((fun _ => Const 0) <$> {[0%nat := 3%nat]})
            Example.relaxing st' _).
  vm_compute. reflexivity.
Defined.

Lemma user_deactivated_disjunct_fixed_witness :
  exists st',
    transform_disjunct (H := Pyomo.host) 3 1 Example.transBlock [Example.x]
      Example.deactivated_model = (Ok tt, st') /\
    vars st' = <[1%nat := mkVar (Some 0%Q) (Some 1%Q) true (Some 0%Q)]>
                 (vars Example.deactivated_model) /\
    constraints st' = constraints Example.deactivated_model /\
    disjunctions st' = disjunctions Example.deactivated_model /\
    blockcomps st' = blockcomps Example.deactivated_model /\
    blocks st' = blocks Example.deactivated_model.
Proof.
  exact (user_deactivated_disjunct_fixed (H := Pyomo.host) 3 1 Example.transBlock
           [Example.x] Example.deactivated_model
           (mkBlock false (RDisjunct 1%nat) [RVar 1%nat; RConstraint 0%nat]
              (Some 1%nat) NoAttr [])
           1%nat (mkVar (Some 0%Q) (Some 1%Q) false None)
           eq_refl eq_refl eq_refl eq_refl (or_introl eq_refl)).
Defined.

Lemma conflicting_metadata_rejected_witness :
  transform_disjunct (H := Pyomo.host) 3 1 Example.transBlock [Example.x]
    Example.conflicting_model
  = (Err ConflictingMetadataAttribute, Example.conflicting_model).
Proof.
  exact (proj1 (conflicting_metadata_rejected (H := Pyomo.host) 3 Example.transBlock
                  [Example.x] Example.conflicting_model)
           1%nat
           (mkBlock true (RDisjunct 1%nat) [RVar 1%nat; RConstraint 0%nat]
              (Some 1%nat) NotADict [])
           eq_refl eq_refl).
Defined.

Lemma copy_bounds_semantics_witness :
  exists res st',
    transform_disjunct (H := Pyomo.host) 3 1 Example.transBlock [Example.x]
      Example.prepared = (res, st') /\
    exists rl ru,
      emitted st' 2 lb = Some rl /\ emitted st' 2 ub = Some ru /\
      forall rho : vid -> Q,
        holds rho rl -> holds rho ru ->
        (rho 1%nat * 0 <= rho 3%nat <= rho 1%nat * 10)%Q /\
        (rho 1%nat == 0 -> rho 3%nat == 0)%Q /\
        (rho 1%nat == 1 -> 0 <= rho 3%nat <= 10)%Q.
Proof.
  assert (HF : Forall (fun w => exists l u, bounded Example.prepared w l u) [Example.x]).
  { constructor; [ | constructor].
    exists 0%Q, 10%Q, (mkVar (Some 0%Q) (Some 10%Q) false None).
    repeat split. }
  destruct (copy_bounds_semantics (H := Pyomo.host) 3 1 Example.transBlock
              Example.prepared
              (mkBlock true (RDisjunct 1%nat) [RVar 1%nat; RConstraint 0%nat]
                 (Some 1%nat) NoAttr [])
              1%nat 1%nat (SimpleBlock 1%nat) true []
              (mkBlock true (RBlock 3%nat) [RBlock 4%nat; ROther Set_ (Some true)]
                 None NoAttr [])
              [Example.x]
              eq_refl eq_refl (or_introl (conj eq_refl eq_refl))
              eq_refl eq_refl ltac:(discriminate) eq_refl eq_refl eq_refl
              ltac:(discriminate)
              HF)
    as (res & st' & Hrun & Hall).
  exists res, st'. split; [exact Hrun | ].
  exact (Hall 0%nat Example.x 0%Q 10%Q eq_refl
           (ex_intro _ (mkVar (Some 0%Q) (Some 10%Q) false None)
              (conj eq_refl (conj eq_refl eq_refl)))).
Defined.
Lemma transformed_disjunct_not_again_witness :
  let st' := (transform_disjunct (H := Pyomo.host) 3 1 Example.transBlock [Example.x]
                Example.prepared).2 in
  transform_disjunct (H := Pyomo.host) 1 1 Example.transBlock [] st' = (Ok tt, st').
Proof.
  intros st'.
  refine (transformed_disjunct_not_again (H := Pyomo.host) 3 1 Example.transBlock
            [Example.x] Example.prepared st'
            (mkBlock true (RDisjunct 1%nat) [RVar 1%nat; RConstraint 0%nat]
               (Some 1%nat) NoAttr [])
            eq_refl eq_refl _ 1 Example.transBlock []).
  vm_compute. reflexivity.
Defined.

Lemma transformed_disjunct_linked_witness :
  let st' := (transform_disjunct (H := Pyomo.host) 3 1 Example.transBlock [Example.x]
                Example.prepared).2 in
  exists o' infodict dd r rinfo rr m1 m2 m3 m4,
    blocks st' !! 1%nat = Some o' /\ blk_active o' = false /\
    gdp_transformation_info o' = IsDict infodict /\
    dicts st' !! infodict = Some dd /\
    relaxed dd = Some true /\ chull dd = Some 4%nat /\
    disaggregatedVars dd = Some m1 /\ bigmConstraints dd = Some m2 /\
    blocks st' !! 4%nat = Some r /\ gdp_transformation_info r = IsDict rinfo /\
    dicts st' !! rinfo = Some rr /\ src rr = Some 1%nat /\
    srcVars rr = Some m3 /\ boundConstraintToSrcVar rr = Some m4 /\
    (forall v, In v [Example.x] -> is_Some (m1 !! v) /\ is_Some (m2 !! v)) /\
    (forall v dv, m1 !! v = Some dv -> m3 !! dv = Some v) /\
    (forall v bc, m2 !! v = Some bc -> m4 !! bc = Some v).
Proof.
  intros st'.
  refine (transformed_disjunct_linked (H := Pyomo.host) 3 1 Example.transBlock
            [Example.x] Example.prepared st'
            (mkBlock true (RDisjunct 1%nat) [RVar 1%nat; RConstraint 0%nat]
               (Some 1%nat) NoAttr [])
            1%nat 1%nat (SimpleBlock 1%nat) true []
            (mkBlock true (RBlock 3%nat) [RBlock 4%nat; ROther Set_ (Some true)]
               None NoAttr [])
            eq_refl eq_refl (or_introl (conj eq_refl eq_refl))
            eq_refl eq_refl ltac:(discriminate) eq_refl eq_refl eq_refl
            ltac:(discriminate) _).
  vm_compute. reflexivity.
Defined.

Lemma collected_variables_distinct_witness :
  NoDup [Example.x] /\
  Forall (fun v => exists d, vars Example.model !! v = Some d /\ var_fixed d = false)
    [Example.x].
Proof.
  refine (proj2 (collected_variables_distinct (H := Pyomo.host) 5 [1%nat; 2%nat]
                   Example.model Example.model [Example.x] _)).
  vm_compute. reflexivity.
Defined.

Lemma disaggregation_constraints_witness :
  let run := transformDisjunctionData (H := Pyomo.host) 10 3 (0%nat, KNone)
               Example.transBlock KNone Example.prepared in
  exists st0 st1 orC dC varSet,
    disjContainers_add Example.transBlock (RDisjunction 0%nat) Example.prepared
      = (Ok tt, st0) /\
    getDisjunctionConstraints 0%nat st0 = (Ok (orC, dC), st1) /\
    collect_varSet (H := Pyomo.host) 10 [1%nat; 2%nat] st1 = (Ok varSet, st1) /\
    forall i var, varSet !! i = Some var ->
      exists dvs,
        Forall2 (fun d dv => disaggregatedVar_of d var run.2 = (Ok dv, run.2))
          [1%nat; 2%nat] dvs /\
        emitted run.2 dC (consIdx KNone false i) =
          Some (Eq (Var var) (fold_left (fun e dv => Add e (Var dv)) dvs (Const 0))) /\
        forall rho,
          holds rho (Eq (Var var) (fold_left (fun e dv => Add e (Var dv)) dvs (Const 0)))
          <-> (rho var == fold_right (fun dv s => rho dv + s) 0 dvs)%Q.
Proof.
  intros run.
  assert (E : run = (Ok tt, run.2)) by (vm_compute; reflexivity).
  exact (disaggregation_constraints (H := Pyomo.host) 10 3 0%nat KNone
           Example.transBlock Example.prepared run.2
           (mkDisjunctionComp 0%nat
              (SimpleDisjunction (mkDisjunction true true [1%nat; 2%nat])))
           (mkDisjunction true true [1%nat; 2%nat])
           eq_refl eq_refl E).
Defined.

Lemma disjunction_constraints_made_once_witness :
  let run := getDisjunctionConstraints 0%nat Example.prepared in
  run.1 = Ok (3%nat, 2%nat) /\
  getDisjunctionConstraints 0%nat run.2 = (Ok (3%nat, 2%nat), run.2).
Proof.
  intros run.
  assert (E : run = (Ok (3%nat, 2%nat), run.2)) by (vm_compute; reflexivity).
  split; [rewrite E; reflexivity | ].
  exact (proj2 (disjunction_constraints_made_once 0%nat Example.prepared run.2
                  3%nat 2%nat
                  (mkDisjunctionComp 0%nat
                     (SimpleDisjunction (mkDisjunction true true [1%nat; 2%nat])))
                  eq_refl E)).
Defined.

Lemma exclusivity_constraint_witness :
  let run := transformDisjunctionData (H := Pyomo.host) 10 3 (0%nat, KNone)
               Example.transBlock KNone Example.prepared in
  run.1 = Ok tt /\
  exists st0 st1 orC dC ys,
    disjContainers_add Example.transBlock (RDisjunction 0%nat) Example.prepared
      = (Ok tt, st0) /\
    getDisjunctionConstraints 0%nat st0 = (Ok (orC, dC), st1) /\
    recorded_xor st1 0%nat = Some orC /\
    (constraints Example.prepared !! orC = None /\
     constraints st1 !! orC = Some (SimpleConstraint true None) /\
     exists p, blocks run.2 !! 0%nat = Some p /\ In (RConstraint orC) (blk_decls p)) /\
    Forall2 (fun d y => exists bd, blocks run.2 !! d = Some bd /\
                                   indicator_var bd = Some y)
      [1%nat; 2%nat] ys /\
    emitted run.2 orC KNone =
      Some (Eq (fold_left (fun e y => Add e (Var y)) ys (Const 0)) (Const 1)) /\
    forall rho,
      holds rho (Eq (fold_left (fun e y => Add e (Var y)) ys (Const 0)) (Const 1))
      <-> (fold_right (fun y s => rho y + s) 0 ys == 1)%Q.
Proof.
  intros run.
  assert (E : run = (Ok tt, run.2)) by (vm_compute; reflexivity).
  split; [rewrite E; reflexivity | ].
  exact (proj2 (proj2 (exclusivity_constraint (H := Pyomo.host) 10 3 0%nat KNone
                         Example.transBlock Example.prepared
                         (mkDisjunctionComp 0%nat
                            (SimpleDisjunction (mkDisjunction true true [1%nat; 2%nat])))
                         (mkDisjunction true true [1%nat; 2%nat])
                         eq_refl eq_refl) run.2 E)).
Defined.

Lemma unsupported_target_rejected_witness :
  exists st',
    apply_to (H := Pyomo.host) 10 0 (Some [TComponent (RConstraint 0%nat)]) 3 Example.model
      = (Err UnsupportedTargetKind, st') /\
    vars st' = vars Example.model /\
    constraints st' = constraints Example.model /\
    disjunctions st' = disjunctions Example.model /\
    dicts st' = dicts Example.model /\
    blockcomps st' =
      blockcomps Example.model ++ [SimpleBlock 3%nat; IndexedBlock true []] /\
    length (blocks st') = 4%nat.
Proof.
  refine (unsupported_target_rejected (H := Pyomo.host) 10 0
            (TComponent (RConstraint 0%nat)) [] 3 Example.model
            (mkBlock true (RBlock 0%nat)
               [RVar 0%nat; RDisjunct 1%nat; RDisjunct 2%nat; RDisjunction 0%nat]
               None NoAttr [])
            eq_refl _ _ eq_refl).
  - vm_compute. reflexivity.
  - vm_compute. reflexivity.
Defined.

Lemma nested_disjunction_must_be_transformed_witness :
  transform_component (H := Pyomo.host) 3 1 3 0 ∅ ∅ (RDisjunction 0%nat) Example.model
  = (Err OrderingViolation, Example.model).
Proof.
  exact (proj1 (nested_disjunction_must_be_transformed (H := Pyomo.host) 3 1 3 0 ∅ ∅
                  0%nat
                  (mkDisjunctionComp 0%nat
                     (SimpleDisjunction (mkDisjunction true true [1%nat; 2%nat])))
                  Example.model eq_refl eq_refl)
           (mkDisjunction true true [1%nat; 2%nat]) eq_refl).
Defined.


Lemma transformed_disjunction_deactivated_witness :
  let x := mkDisjunctionComp 0%nat
             (SimpleDisjunction (mkDisjunction true true [1%nat; 2%nat])) in
  let st' := (transformDisjunction (H := Pyomo.host) 10 3 0 Example.transBlock
                Example.prepared).2 in
  exists x',
    disjunctions st' !! 0%nat = Some x' /\
    disjunction_active x' = false /\
    kkeys (disjunction_data x') = kkeys (disjunction_data x) /\
    forall k d, kget k (disjunction_data x) = Some d ->
      xor d = true /\
      exists d', kget k (disjunction_data x') = Some d' /\
                 dj_active d' = false /\ xor d' = true /\ disjuncts d' = disjuncts d.
Proof.
  intros x st'.
  refine (transformed_disjunction_deactivated (H := Pyomo.host) 10 3 0
            Example.transBlock Example.prepared st' x eq_refl _).
  vm_compute. reflexivity.
Defined.
